(** * PAI multi-device sync: hooks, redaction, conflict resolution

    A shallow embedding of the TypeScript sources of the
    [pai-multi-device-sync] pack:

    - [Hooks/SessionEnd.ts]   (redact, commit, push, queue),
    - [Hooks/PrePush.ts]      (pattern scan of the derived artifacts),
    - [Hooks/SessionStart.ts] (pull, retry of queued pushes, registry),
    - [Scripts/redact-pii.ts] (marker substitution),
    - [Scripts/resolve-conflicts.ts] (timestamp-based resolution).

    Text is a sequence of code units below 256, written [list ascii].
    Regular expressions are embedded as sequences of quantified
    character classes and literals, run by a backtracking matcher that
    tries the alternatives of each quantifier in the priority order of
    the JavaScript engine (longest first when greedy, shortest first when
    lazy).  The hooks are written in a state monad with exceptions and
    process exit; what the operating system and git answer is read from
    a [World]. *)

From Stdlib Require Import List Ascii ZArith Lia Bool Arith.
From Stdlib Require String DecimalString.
Import ListNotations String.StringSyntax.

Abbreviation string := String.string.

Set Implicit Arguments.

(* ================================================================== *)
(** * Text *)

Module Text.

Definition text := list ascii.

(** String literals of the source, as code units. *)
Definition str (s : string) : text := String.list_ascii_of_string s.
Arguments str s%_string_scope.

Definition code (c : ascii) : nat := nat_of_ascii c.

Definition between (lo hi : nat) (c : ascii) : bool :=
  (lo <=? code c) && (code c <=? hi).

Definition is_digit : ascii -> bool := between 48 57.
Definition is_upper : ascii -> bool := between 65 90.
Definition is_lower : ascii -> bool := between 97 122.
Definition is_alnum (c : ascii) : bool := is_digit c || is_upper c || is_lower c.

(** [\w] *)
Definition is_word (c : ascii) : bool := is_alnum c || Ascii.eqb c "_".

(** [\s], for code units below 256: TAB, LF, VT, FF, CR, space, NBSP. *)
Definition is_space (c : ascii) : bool :=
  between 9 13 c || (code c =? 32) || (code c =? 160).

(** Line terminators, which [.] does not match without the [s] flag. *)
Definition is_line_terminator (c : ascii) : bool :=
  (code c =? 10) || (code c =? 13).

Definition one_of (s : string) (c : ascii) : bool :=
  existsb (Ascii.eqb c) (str s).
Arguments one_of s%_string_scope c.

Definition to_upper_char (c : ascii) : ascii :=
  if is_lower c then ascii_of_nat (code c - 32) else c.

Definition to_lower_char (c : ascii) : ascii :=
  if is_upper c then ascii_of_nat (code c + 32) else c.

(** [String.prototype.toUpperCase], on the ASCII letters. *)
Definition toUpperCase (s : text) : text := map to_upper_char s.
Definition toLowerCase (s : text) : text := map to_lower_char s.

Definition newline : ascii := ascii_of_nat 10.
Definition dquote : ascii := ascii_of_nat 34.

Fixpoint text_eqb (a b : text) : bool :=
  match a, b with
  | [], [] => true
  | x :: a', y :: b' => Ascii.eqb x y && text_eqb a' b'
  | _, _ => false
  end.

(** [s.startsWith(p)] *)
Fixpoint starts_with (p s : text) : bool :=
  match p, s with
  | [], _ => true
  | x :: p', y :: s' => Ascii.eqb x y && starts_with p' s'
  | _ :: _, [] => false
  end.

(** [s.includes(needle)] *)
Fixpoint includes (needle s : text) : bool :=
  starts_with needle s ||
  match s with
  | [] => false
  | _ :: s' => includes needle s'
  end.

(** [s.endsWith(p)] *)
Definition ends_with (p s : text) : bool :=
  starts_with (rev p) (rev s).

(** [s.replace(pat, rep)] with a string pattern: the first occurrence. *)
Fixpoint replace_first (pat rep s : text) : text :=
  if starts_with pat s then rep ++ skipn (length pat) s
  else match s with
       | [] => []
       | c :: s' => c :: replace_first pat rep s'
       end.

Fixpoint drop_while (p : ascii -> bool) (s : text) : text :=
  match s with
  | [] => []
  | c :: s' => if p c then drop_while p s' else s
  end.

(** [s.trim()] *)
Definition trim (s : text) : text :=
  rev (drop_while is_space (rev (drop_while is_space s))).

(** [s.slice(0, n)] for [n >= 0]. *)
Definition slice0 (n : nat) (s : text) : text := firstn n s.

(** Decimal rendering of a count, as template literals do. *)
Definition decimal (n : nat) : text :=
  str (DecimalString.NilEmpty.string_of_uint (Nat.to_uint n)).

(** Rendering of an integer in a template literal. *)
Definition decimalZ (z : Z) : text :=
  str (DecimalString.NilZero.string_of_int (Z.to_int z)).

(** [s.split(sep)] for a one-character separator. *)
Fixpoint split (sep : ascii) (s : text) : list text :=
  match s with
  | [] => [[]]
  | c :: s' =>
      if Ascii.eqb c sep then [] :: split sep s'
      else match split sep s' with
           | l :: ls => (c :: l) :: ls
           | [] => [[c]]
           end
  end.

(** [path.join(a, b)] for a normalised directory and a plain entry name. *)
Definition join (a b : text) : text := a ++ str "/" ++ b.

End Text.

Import Text.

(* ================================================================== *)
(** * Regular expressions *)

Module Regex.

(** One element of a pattern.  A pattern is a sequence of elements; the
    text matched by the [k]-th element is its [k]-th piece, so that
    capture groups and back-references are positions in the sequence. *)
Inductive item : Type :=
| Lit (s : text)
| Cls (p : ascii -> bool) (lo : nat) (hi : option nat) (greedy : bool)
| WordB
| BackRef (k : nat).

Definition regex := list item.

(** Length of the longest prefix of [s] within class [p]. *)
Fixpoint run_length (p : ascii -> bool) (s : text) : nat :=
  match s with
  | c :: s' => if p c then S (run_length p s') else 0
  | [] => 0
  end.

Definition cap (hi : option nat) (n : nat) : nat :=
  match hi with
  | Some h => Nat.min h n
  | None => n
  end.

(** The repetition counts a quantifier may take at [s], shortest first. *)
Definition counts (p : ascii -> bool) (lo : nat) (hi : option nat) (s : text)
  : list nat :=
  seq lo (S (cap hi (run_length p s)) - lo).

Definition head_is_word (s : text) : bool :=
  match s with
  | c :: _ => is_word c
  | [] => false
  end.

Definition prev_is_word (prev : option ascii) : bool :=
  match prev with
  | Some c => is_word c
  | None => false
  end.

(** The pieces an element may match at the head of [s], in the order in
    which a backtracking engine tries them.  [prev] is the code unit just
    before [s] in the subject, [pieces] the pieces matched so far. *)
Definition candidates (it : item) (pieces : list text) (prev : option ascii)
    (s : text) : list text :=
  match it with
  | Lit l => if starts_with l s then [l] else []
  | Cls p lo hi greedy =>
      let ns := counts p lo hi s in
      map (fun n => firstn n s) (if greedy then rev ns else ns)
  | WordB => if xorb (prev_is_word prev) (head_is_word s) then [[]] else []
  | BackRef k =>
      let l := nth k pieces [] in
      if starts_with l s then [l] else []
  end.

Fixpoint first_some {A B : Type} (f : A -> option B) (l : list A) : option B :=
  match l with
  | [] => None
  | x :: l' =>
      match f x with
      | Some r => Some r
      | None => first_some f l'
      end
  end.

Definition last_of (prev : option ascii) (piece : text) : option ascii :=
  match rev piece with
  | c :: _ => Some c
  | [] => prev
  end.

(** Match [re] at the head of [s]: the pieces and the unread rest. *)
Fixpoint exec (re : regex) (pieces : list text) (prev : option ascii)
    (s : text) : option (list text * text) :=
  match re with
  | [] => Some (pieces, s)
  | it :: re' =>
      first_some
        (fun piece =>
           exec re' (pieces ++ [piece]) (last_of prev piece)
                (skipn (length piece) s))
        (candidates it pieces prev s)
  end.

(** [match[0]] *)
Definition whole (pieces : list text) : text := concat pieces.

(** [s.match(re)] without the [g] flag: the leftmost match. *)
Fixpoint search (re : regex) (prev : option ascii) (s : text)
  : option (list text) :=
  match exec re [] prev s with
  | Some (ps, _) => Some ps
  | None =>
      match s with
      | [] => None
      | c :: s' => search re (Some c) s'
      end
  end.

(** [s.match(re)] with the [g] flag: all matches, left to right, each
    starting where the previous one ended.  [skip] counts the code units
    still covered by the last match. *)
Fixpoint match_all (re : regex) (skip : nat) (prev : option ascii) (s : text)
  : list text :=
  match s with
  | [] =>
      match skip, exec re [] prev [] with
      | 0, Some (ps, _) => [whole ps]
      | _, _ => []
      end
  | c :: s' =>
      match skip with
      | S k => match_all re k (Some c) s'
      | 0 =>
          match exec re [] prev s with
          | Some (ps, _) =>
              whole ps :: match_all re (length (whole ps) - 1) (Some c) s'
          | None => match_all re 0 (Some c) s'
          end
      end
  end.

(** [s.replace(re, f)] with the [g] flag. *)
Fixpoint replace_all (re : regex) (f : list text -> text) (skip : nat)
    (prev : option ascii) (s : text) : text :=
  match s with
  | [] =>
      match skip, exec re [] prev [] with
      | 0, Some (ps, _) => f ps
      | _, _ => []
      end
  | c :: s' =>
      match skip with
      | S k => replace_all re f k (Some c) s'
      | 0 =>
          match exec re [] prev s with
          | Some (ps, _) =>
              f ps ++
              match whole ps with
              | [] => c :: replace_all re f 0 (Some c) s'
              | _ :: m => replace_all re f (length m) (Some c) s'
              end
          | None => c :: replace_all re f 0 (Some c) s'
          end
      end
  end.

(** Patterns without [\b]. *)
Definition no_boundary (re : regex) : bool :=
  forallb (fun it => match it with WordB => false | _ => true end) re.

(** Case folding of a class under the [i] flag. *)
Definition ci (p : ascii -> bool) (c : ascii) : bool :=
  p c || p (to_lower_char c) || p (to_upper_char c).

Definition any_char (_ : ascii) : bool := true.
Definition dot (c : ascii) : bool := negb (is_line_terminator c).

End Regex.

Import Regex.

(* ================================================================== *)
(** * Effects: state, exceptions and process exit *)

Module Effects.

(** The fields of a thrown error that the hooks look at. *)
Record js_error : Type := {
  err_message : text;
  err_code : option text;
  err_status : option Z;
  err_stderr : option text
}.

Definition plain_error (msg : text) : js_error :=
  {| err_message := msg; err_code := None; err_status := None;
     err_stderr := None |}.

Inductive outcome (A : Type) : Type :=
| Returned (a : A)
| Thrown (e : js_error)
| Exited (exit_status : Z).
Arguments Thrown {A}.
Arguments Exited {A}.

Definition M (S A : Type) : Type := S -> outcome A * S.

Definition ret {S A : Type} (a : A) : M S A := fun st => (Returned a, st).

Definition bind {S A B : Type} (m : M S A) (k : A -> M S B) : M S B :=
  fun st =>
    match m st with
    | (Returned a, st') => k a st'
    | (Thrown e, st') => (Thrown e, st')
    | (Exited c, st') => (Exited c, st')
    end.

Definition throw {S A : Type} (e : js_error) : M S A := fun st => (Thrown e, st).

(** [process.exit(c)]: no [catch] sees it. *)
Definition exit {S A : Type} (c : Z) : M S A := fun st => (Exited c, st).

Definition try_catch {S A : Type} (body : M S A) (handler : js_error -> M S A)
  : M S A :=
  fun st =>
    match body st with
    | (Thrown e, st') => handler e st'
    | r => r
    end.

Definition gets {S A : Type} (f : S -> A) : M S A := fun st => (Returned (f st), st).
Definition modify {S : Type} (f : S -> S) : M S unit := fun st => (Returned tt, f st).

Definition when {S : Type} (b : bool) (m : M S unit) : M S unit :=
  if b then m else ret tt.

(** [wp m Q s]: running [m] from [s] ends in an outcome and a state
    that satisfy [Q]. *)
Definition wp {S A : Type} (m : M S A) (Q : outcome A -> S -> Prop) (s : S)
  : Prop :=
  Q (fst (m s)) (snd (m s)).

Definition after {S A B : Type} (k : A -> M S B) (Q : outcome B -> S -> Prop)
    (o : outcome A) (s : S) : Prop :=
  match o with
  | Returned a => wp (k a) Q s
  | Thrown e => Q (Thrown e) s
  | Exited c => Q (Exited c) s
  end.

Definition caught {S A : Type} (h : js_error -> M S A)
    (Q : outcome A -> S -> Prop) (o : outcome A) (s : S) : Prop :=
  match o with
  | Thrown e => wp (h e) Q s
  | _ => Q o s
  end.

Inductive level : Type := info | success | warn | error.

(** The shell commands the pack gives to [execSync]. *)
Inductive command : Type :=
| RunRedactionScript
| GitStatusShort
| GitAddAll
| GitCommit (commitMessage : text)
| GitRevParseHead
| GitPush
| GitPullRebase
| GitDiffUnmerged
| GitAdd (filePath : text).

Inductive answer : Type :=
| Output (stdout : text)
| Fails (e : js_error).

(** A JSON file on disk: missing, not parseable into the expected
    shape, or holding a value of that shape. *)
Inductive json_file (A : Type) : Type :=
| Absent
| Garbled
| Holds (a : A).
Arguments Absent {A}.
Arguments Garbled {A}.

End Effects.

Import Effects.

Declare Scope hook_scope.
Delimit Scope hook_scope with hook.
Notation "x <- c ;; k" := (bind c (fun x => k))
  (at level 61, c at next level, right associativity) : hook_scope.
Notation "c ;; k" := (bind c (fun _ => k))
  (at level 61, right associativity) : hook_scope.

(* ================================================================== *)
(** * Scripts/redact-pii.ts *)

Module Redact.

(** [/\[PII:(\w+)\](.*?)\[\/PII:\1\]/gs]: group 1 is piece 1, group 2 is
    piece 3; with the [s] flag the dot matches every code unit. *)
Definition PII_MARKER_PATTERN : regex :=
  [ Lit (str "[PII:");
    Cls is_word 1 None true;
    Lit (str "]");
    Cls any_char 0 None false;
    Lit (str "[/PII:");
    BackRef 1;
    Lit (str "]") ].

(** The replacement callback [(match, type) => `[REDACTED:${type}]`]. *)
Definition redacted_token (type : text) : text :=
  str "[REDACTED:" ++ type ++ str "]".

Definition replacement (pieces : list text) : text :=
  redacted_token (nth 1 pieces []).

Definition redactPII (content : text) : text :=
  replace_all PII_MARKER_PATTERN replacement 0 None content.

(** The two tags of a marked span, and what follows their bracket. *)
Definition opening (T : text) : text := str "[PII:" ++ T ++ str "]".
Definition closing (T : text) : text := str "[/PII:" ++ T ++ str "]".
Definition opening_tail (T : text) : text := str "PII:" ++ T ++ str "]".
Definition closing_tail (T : text) : text := str "/PII:" ++ T ++ str "]".

Definition not_bracket (c : ascii) : bool := negb (Ascii.eqb c "[").

(** No suffix of [x] is matched by the marker pattern. *)
Definition unmatched (x : text) : Prop :=
  forall a b, x = a ++ b -> exec PII_MARKER_PATTERN [] None b = None.

End Redact.

(* ================================================================== *)
(** * Hooks/PrePush.ts *)

Module PrePush.

Record pattern : Type := {
  name : text;
  regex_of : regex;
  description : text
}.

Definition email_local (c : ascii) : bool :=
  is_lower c || is_digit c || one_of "._%+-" c.
Definition email_domain (c : ascii) : bool :=
  is_lower c || is_digit c || one_of ".-" c.
Definition space_or_dash (c : ascii) : bool := is_space c || one_of "-" c.
Definition digit_or_upper (c : ascii) : bool := is_digit c || is_upper c.
Definition base64url (c : ascii) : bool := is_alnum c || one_of "_-" c.

Definition opt (p : ascii -> bool) : item := Cls p 0 (Some 1) true.
Definition digits (lo hi : nat) : item := Cls is_digit lo (Some hi) true.

(** [/[a-z0-9._%+-]+@[a-z0-9.-]+\.[a-z]{2,}/gi] *)
Definition email_regex : regex :=
  [ Cls (ci email_local) 1 None true; Lit (str "@");
    Cls (ci email_domain) 1 None true; Lit (str ".");
    Cls (ci is_lower) 2 None true ].

(** [/\+?\d{1,3}[\s-]?\(?\d{1,4}\)?[\s-]?\d{1,4}[\s-]?\d{1,9}/g] *)
Definition phone_regex : regex :=
  [ opt (one_of "+"); digits 1 3; opt space_or_dash; opt (one_of "(");
    digits 1 4; opt (one_of ")"); opt space_or_dash; digits 1 4;
    opt space_or_dash; digits 1 9 ].

(** [/sk-[a-zA-Z0-9]{20,}/g] *)
Definition apiKey_regex : regex :=
  [ Lit (str "sk-"); Cls is_alnum 20 None true ].

(** [/AKIA[0-9A-Z]{16}/g] *)
Definition awsKey_regex : regex :=
  [ Lit (str "AKIA"); Cls digit_or_upper 16 (Some 16) true ].

(** [/eyJ[a-zA-Z0-9_-]{5,}\.eyJ[a-zA-Z0-9_-]{5,}\.[a-zA-Z0-9_-]{5,}/g] *)
Definition jwt_regex : regex :=
  [ Lit (str "eyJ"); Cls base64url 5 None true; Lit (str ".");
    Lit (str "eyJ"); Cls base64url 5 None true; Lit (str ".");
    Cls base64url 5 None true ].

(** [/ghp_[a-zA-Z0-9]{36}/g] *)
Definition githubToken_regex : regex :=
  [ Lit (str "ghp_"); Cls is_alnum 36 (Some 36) true ].

(** [/\b\d{4}[\s-]?\d{4}[\s-]?\d{4}[\s-]?\d{4}\b/g] *)
Definition creditCard_regex : regex :=
  [ WordB; digits 4 4; opt space_or_dash; digits 4 4; opt space_or_dash;
    digits 4 4; opt space_or_dash; digits 4 4; WordB ].

(** [/\b\d{3}-\d{2}-\d{4}\b/g] *)
Definition ssn_regex : regex :=
  [ WordB; digits 3 3; Lit (str "-"); digits 2 2; Lit (str "-");
    digits 4 4; WordB ].

Definition email : pattern :=
  {| name := str "email"; regex_of := email_regex;
     description := str "Email address" |}.
Definition phone : pattern :=
  {| name := str "phone"; regex_of := phone_regex;
     description := str "Phone number" |}.
Definition apiKey : pattern :=
  {| name := str "apiKey"; regex_of := apiKey_regex;
     description := str "OpenAI API key" |}.
Definition awsKey : pattern :=
  {| name := str "awsKey"; regex_of := awsKey_regex;
     description := str "AWS access key" |}.
Definition jwt : pattern :=
  {| name := str "jwt"; regex_of := jwt_regex;
     description := str "JWT token" |}.
Definition githubToken : pattern :=
  {| name := str "githubToken"; regex_of := githubToken_regex;
     description := str "GitHub personal access token" |}.
Definition creditCard : pattern :=
  {| name := str "creditCard"; regex_of := creditCard_regex;
     description := str "Credit card number" |}.
Definition ssn : pattern :=
  {| name := str "ssn"; regex_of := ssn_regex;
     description := str "Social security number" |}.

(** [Object.entries(PII_PATTERNS)], in insertion order. *)
Definition PII_PATTERNS : list pattern :=
  [ email; phone; apiKey; awsKey; jwt; githubToken; creditCard; ssn ].

(** [content.match(pattern.regex)]: the array of matches; the source
    tests [matches && matches.length > 0]. *)
Definition matches_of (pat : pattern) (content : text) : list text :=
  match_all (regex_of pat) 0 None content.

(** [`[PII:${type.toUpperCase()}]`] and [`[REDACTED:${type.toUpperCase()}]`] *)
Definition pii_tag (type : text) : text :=
  str "[PII:" ++ toUpperCase type ++ str "]".
Definition redacted_tag (type : text) : text :=
  str "[REDACTED:" ++ toUpperCase type ++ str "]".

Definition isMarked (pat : pattern) (content : text) : bool :=
  includes (pii_tag (name pat)) content ||
  includes (redacted_tag (name pat)) content.

(** [`${pattern.description} (${n} occurrence${n > 1 ? 's' : ''})`] *)
Definition finding (pat : pattern) (n : nat) : text :=
  description pat ++ str " (" ++ decimal n ++ str " occurrence" ++
  (if 1 <? n then str "s" else []) ++ str ")".

(** One turn of the loop over the patterns. *)
Definition check_pattern (content : text) (pat : pattern) : list text :=
  let matches := matches_of pat content in
  if 0 <? length matches then
    if isMarked pat content then [] else [finding pat (length matches)]
  else [].

Definition binary_extensions : list text :=
  [ str "jpg"; str "jpeg"; str "png"; str "gif"; str "pdf"; str "zip";
    str "tar"; str "gz"; str "exe"; str "dll"; str "so"; str "dylib" ].

(** [filePath.match(/\.(jpg|...|dylib)$/i)] *)
Definition has_binary_extension (filePath : text) : bool :=
  existsb (fun e => ends_with (str "." ++ e) (toLowerCase filePath))
          binary_extensions.

Record check_result : Type := {
  hasPII : bool;
  findings : list text
}.

(** The working tree below [MEMORY_DIR].  A file carries what
    [readFileSync] returns for it ([None]: the read throws); [Dir] is a
    directory with what [readdirSync] returns, [Locked] one on which it
    throws, [Special] an entry that is neither file nor directory, and
    [Broken] one on which [statSync] throws. *)
#[local] Unset Elimination Schemes.
Inductive node : Type :=
| File (entry : text) (content : option text)
| Dir (entry : text) (entries : list node)
| Locked (entry : text)
| Special (entry : text)
| Broken (entry : text).
#[local] Set Elimination Schemes.

(** Every regular file below a node, with its full path. *)
Fixpoint files_in (dir : text) (n : node) : list (text * option text) :=
  match n with
  | File e c => [(join dir e, c)]
  | Dir e sub => flat_map (files_in (join dir e)) sub
  | _ => []
  end.

Definition all_files (dir : text) (entries : list node)
  : list (text * option text) :=
  flat_map (files_in dir) entries.

(** The [for] loop of [walk] inside its [try]: [body] returns the array
    and whether the loop goes on ([false]: it threw). *)
Definition loop_entries (body : node -> list text -> list text * bool)
  : list node -> list text -> list text :=
  fix loop (entries : list node) (files : list text) : list text :=
    match entries with
    | [] => files
    | entry :: rest =>
        let (files', go_on) := body entry files in
        if go_on then loop rest files' else files'
    end.

Section Gate.

Variable MEMORY_DIR : text.
Variable root : list node.

Definition readFileSync (filePath : text) : option text :=
  match find (fun fc => text_eqb (fst fc) filePath) (all_files MEMORY_DIR root) with
  | Some (_, c) => c
  | None => None
  end.

Definition checkFileForPII (filePath : text) : check_result :=
  if has_binary_extension filePath then
    {| hasPII := false; findings := [] |}
  else if includes (str ".git/") filePath then
    {| hasPII := false; findings := [] |}
  else
    match readFileSync filePath with
    | None => {| hasPII := false; findings := [] |}
    | Some content =>
        let findings := flat_map (check_pattern content) PII_PATTERNS in
        {| hasPII := 0 <? length findings; findings := findings |}
    end.

(** [fullPath.match(/\.(safe|quick)\.md$/)] *)
Definition is_derived_artifact (fullPath : text) : bool :=
  ends_with (str ".safe.md") fullPath || ends_with (str ".quick.md") fullPath.

(** One turn of the loop of [walk(dir)]: [files] is the array being
    filled.  A throwing [statSync] leaves the loop of its directory
    through the [catch]; a throwing [readdirSync] is caught by the inner
    [walk], and the outer loop goes on. *)
Fixpoint visit (dir : text) (entry : node) (files : list text)
  : list text * bool :=
  match entry with
  | Broken _ => (files, false)
  | Special _ => (files, true)
  | Locked _ => (files, true)
  | Dir e sub =>
      if text_eqb e (str ".git") then (files, true)
      else (loop_entries (visit (join dir e)) sub files, true)
  | File e _ =>
      let fullPath := join dir e in
      (if is_derived_artifact fullPath then files ++ [fullPath] else files,
       true)
  end.

Definition walk (dir : text) (entries : list node) (files : list text)
  : list text :=
  loop_entries (visit dir) entries files.

Definition getFilesToCheck : list text := walk MEMORY_DIR root [].

(** [path.relative(MEMORY_DIR, file)] for a file below [MEMORY_DIR]. *)
Definition relative (file : text) : text :=
  if starts_with (MEMORY_DIR ++ str "/") file
  then skipn (length (MEMORY_DIR ++ str "/")) file
  else file.

Record detection : Type := {
  file : text;
  file_findings : list text
}.

Definition scan_files (filesToCheck : list text) : list detection :=
  flat_map
    (fun f =>
       let result := checkFileForPII f in
       if hasPII result
       then [ {| file := relative f; file_findings := findings result |} ]
       else [])
    filesToCheck.

(** Lines written to standard error.  The fixed banner and advice lines
    of the report are left out; the per-file part is kept. *)
Inductive line : Type :=
| Log (lvl : level) (message : text)
| ReportFile (f : text)
| ReportFinding (finding : text).

Definition report (piiDetected : list detection) : list line :=
  flat_map
    (fun item => ReportFile (file item) :: map ReportFinding (file_findings item))
    piiDetected.

Record Config : Type := { redact_pii : bool }.

Record run : Type := {
  exit_code : Z;
  stderr : list line
}.

(** [stdin_json]: standard input holds a JSON document. *)
Definition main (stdin_json : bool) (config_file : json_file Config) : run :=
  if negb stdin_json then
    {| exit_code := 0; stderr := [Log error (str "Hook error")] |}
  else
    let started := [Log info (str "PrePush event received")] in
    let config :=
      match config_file with
      | Holds c => Some c
      | _ => None
      end in
    let config_log :=
      match config_file with
      | Absent => [Log warn (str "No config found - PII check disabled")]
      | Garbled => [Log error (str "Failed to load config")]
      | Holds _ => []
      end in
    match config with
    | Some {| redact_pii := true |} =>
        let filesToCheck := getFilesToCheck in
        if length filesToCheck =? 0 then
          {| exit_code := 0;
             stderr := started ++ config_log ++
                       [Log info (str "Checking for unredacted PII...");
                        Log info (str "No files to check")] |}
        else
          let piiDetected := scan_files filesToCheck in
          if 0 <? length piiDetected then
            {| exit_code := 2;
               stderr := started ++ config_log ++
                         [Log info (str "Checking for unredacted PII...");
                          Log info (str "Checking files");
                          Log error (str "PII DETECTED - PUSH BLOCKED")] ++
                         report piiDetected |}
          else
            {| exit_code := 0;
               stderr := started ++ config_log ++
                         [Log info (str "Checking for unredacted PII...");
                          Log info (str "Checking files");
                          Log info (str "All files PII-safe")] |}
    | _ =>
        {| exit_code := 0;
           stderr := started ++ config_log ++
                     [Log info (str "PII checking disabled in config")] |}
    end.

End Gate.

End PrePush.

(* ================================================================== *)
(** * Scripts/resolve-conflicts.ts *)

Module Resolver.

Local Open Scope hook_scope.

(** A [Date] object: a time value in milliseconds, or the invalid date
    whose time value is [NaN]. *)
Inductive Date : Type :=
| TimeValue (ms : Z)
| InvalidDate.

(** [a > b] on dates: a comparison with [NaN] is false. *)
Definition date_gt (a b : Date) : bool :=
  match a, b with
  | TimeValue x, TimeValue y => (y <? x)%Z
  | _, _ => false
  end.

Inductive side : Type := local | remote.

Record ConflictMarkers : Type := {
  local_body : text;
  remote_body : text;
  localDevice : option text;
  remoteDevice : option text;
  localTimestamp : option Date;
  remoteTimestamp : option Date
}.

Definition nl : text := [newline].

(** [/<<<<<<< HEAD\n([\s\S]*?)\n=======\n([\s\S]*?)\n>>>>>>> .*/]:
    group 1 is piece 1, group 2 is piece 3. *)
Definition conflictPattern : regex :=
  [ Lit (str "<<<<<<< HEAD" ++ nl);
    Cls any_char 0 None false;
    Lit (nl ++ str "=======" ++ nl);
    Cls any_char 0 None false;
    Lit (nl ++ str ">>>>>>> ");
    Cls dot 0 None true ].

(** The text of a conflict region. *)
Definition region (l r label : text) : text :=
  str "<<<<<<< HEAD" ++ nl ++ l ++ nl ++ str "=======" ++ nl ++ r ++ nl ++
  str ">>>>>>> " ++ label.

Definition extractConflict (content : text) : option ConflictMarkers :=
  match search conflictPattern None content with
  | None => None
  | Some m =>
      Some {| local_body := nth 1 m []; remote_body := nth 3 m [];
              localDevice := None; remoteDevice := None;
              localTimestamp := None; remoteTimestamp := None |}
  end.

Definition d2 : item := Cls is_digit 2 (Some 2) true.
Definition d4 : item := Cls is_digit 4 (Some 4) true.

(** [/\d{4}-\d{2}-\d{2}T\d{2}:\d{2}:\d{2}/] *)
Definition isoPattern : regex :=
  [ d4; Lit (str "-"); d2; Lit (str "-"); d2; Lit (str "T");
    d2; Lit (str ":"); d2; Lit (str ":"); d2 ].

(** [/\d{4}-\d{2}-\d{2}\s+\d{2}:\d{2}:\d{2}/] *)
Definition datePattern : regex :=
  [ d4; Lit (str "-"); d2; Lit (str "-"); d2; Cls is_space 1 None true;
    d2; Lit (str ":"); d2; Lit (str ":"); d2 ].

Definition not_quote (c : ascii) : bool := negb (Ascii.eqb c dquote).

(** The pattern of a quoted JSON field, [key] in double quotes, a colon,
    [\s*], and a double-quoted group of one or more code units other
    than the double quote.  The group is piece 3. *)
Definition fieldPattern (key : string) : regex :=
  [ Lit ([dquote] ++ str key ++ [dquote] ++ str ":");
    Cls is_space 0 None true;
    Lit [dquote];
    Cls not_quote 1 None true;
    Lit [dquote] ].
Arguments fieldPattern key%_string_scope.

(** [/\*\*Device\*\*:\s*(\S+)/]: the group is piece 2. *)
Definition mdDevicePattern : regex :=
  [ Lit (str "**Device**:");
    Cls is_space 0 None true;
    Cls (fun c => negb (is_space c)) 1 None true ].

Definition extractDevice (content : text) : text :=
  match search (fieldPattern "device_name") None content with
  | Some m => nth 3 m []
  | None =>
      match search mdDevicePattern None content with
      | Some m => nth 2 m []
      | None => str "unknown"
      end
  end.

Record resolution : Type := {
  winner : side;
  reason : text
}.

Definition side_name (s : side) : text :=
  match s with
  | local => str "local"
  | remote => str "remote"
  end.

Definition other (s : side) : side :=
  match s with
  | local => remote
  | remote => local
  end.

(** [Math.round((a.getTime() - b.getTime()) / 60000)] as rendered in a
    template literal. *)
Definition diffMinutes (a b : Date) : text :=
  match a, b with
  | TimeValue x, TimeValue y => decimalZ ((x - y + 30000) / 60000)%Z
  | _, _ => str "NaN"
  end.

Definition MANUAL_RESOLUTION_FILES : list text :=
  [ str ".config.json"; str ".sync-config.json";
    str "sync/device-registry.json" ].

(** [path.basename(p)]: the last segment of the path, the slashes at
    its end set aside. *)
Definition basename (p : text) : text :=
  let ending := drop_while (fun c => Ascii.eqb c "/") (rev p) in
  rev (firstn (run_length (fun c => negb (Ascii.eqb c "/")) ending) ending).

(** [s.replace(/[:.]/g, '-')] *)
Definition dashed (s : text) : text :=
  map (fun c => if one_of ":." c then "-"%char else c) s.

Definition unlines (ls : list text) : text :=
  concat (map (fun l => l ++ nl) ls).

(** The working copy as the script sees it. *)
Record Disk : Type := {
  files : text -> option text;
  dirs : text -> bool;
  staged : list text;
  ran : list command;
  console : list (level * text)
}.

Definition log (msg : text) (lvl : level) : M Disk unit :=
  modify (fun d => {| files := files d; dirs := dirs d; staged := staged d;
                      ran := ran d; console := console d ++ [(lvl, msg)] |}).

Definition existsSync (p : text) : M Disk bool :=
  gets (fun d => match files d p with Some _ => true | None => dirs d p end).

Definition mkdirSync (p : text) : M Disk unit :=
  modify (fun d => {| files := files d;
                      dirs := fun q => text_eqb q p || dirs d q;
                      staged := staged d; ran := ran d;
                      console := console d |}).

Definition readFileSync (p : text) : M Disk text :=
  fun d =>
    match files d p with
    | Some c => (Returned c, d)
    | None => (Thrown (plain_error (str "ENOENT: no such file or directory")), d)
    end.

Definition writeFileSync (p content : text) : M Disk unit :=
  modify (fun d => {| files := fun q => if text_eqb q p then Some content
                                        else files d q;
                      dirs := dirs d; staged := staged d; ran := ran d;
                      console := console d |}).

(** One turn of the loop of [normalizeString] in [path.normalize], at
    the end of a segment: [kept] holds the segments of the result so
    far, the last one first.  An empty segment and [.] are dropped;
    [..] takes the last segment away, or is kept, when above the root
    is allowed, once there is none to take. *)
Definition keep_segment (allowAboveRoot : bool) (kept : list text)
    (segment : text) : list text :=
  if text_eqb segment [] || text_eqb segment (str ".") then kept
  else if text_eqb segment (str "..") then
    match kept with
    | top :: below =>
        if text_eqb top (str "..")
        then (if allowAboveRoot then segment :: kept else kept)
        else below
    | [] => if allowAboveRoot then [segment] else []
    end
  else segment :: kept.

Fixpoint join_segments (l : list text) : text :=
  match l with
  | [] => []
  | [segment] => segment
  | segment :: rest => segment ++ str "/" ++ join_segments rest
  end.

(** [path.normalize(p)], for POSIX paths. *)
Definition normalize (p : text) : text :=
  match p with
  | [] => str "."
  | c :: _ =>
      let isAbsolute := Ascii.eqb c "/" in
      let trailingSeparator := ends_with (str "/") p in
      match join_segments
              (rev (fold_left (keep_segment (negb isAbsolute))
                              (split "/" p) [])) with
      | [] =>
          if isAbsolute then str "/"
          else if trailingSeparator then str "./" else str "."
      | h :: t =>
          (if isAbsolute then str "/" else []) ++ (h :: t) ++
          (if trailingSeparator then str "/" else [])
      end
  end.

(** [path.join(a, b)]: the arguments that are not empty, put together
    with a slash and normalised. *)
Definition path_join (a b : text) : text :=
  match a, b with
  | [], [] => str "."
  | [], _ :: _ => normalize b
  | _ :: _, [] => normalize a
  | _ :: _, _ :: _ => normalize (a ++ str "/" ++ b)
  end.

Section Script.

Variable MEMORY_DIR : text.

(** [new Date(s)]: what the engine's date parser makes of [s]. *)
Variable parseDate : text -> Date.

(** [d.toISOString()] for a valid time value. *)
Variable isoString : Z -> text.

(** [new Date().toISOString()] during the run. *)
Variable now : text.

(** Whether [git add] succeeds on a path. *)
Variable git_add_ok : text -> bool.

(** What [git diff --name-only --diff-filter=U] answers. *)
Variable git_diff_unmerged : answer.

(** The [RangeError] that [toISOString] throws on an invalid date; its
    message is the engine's. *)
Variable invalid_time : js_error.

(** [`${error}`]: the string form of a thrown value. *)
Variable error_string : js_error -> text.

Definition CONFLICTS_DIR : text := join (join MEMORY_DIR (str "sync")) (str "conflicts").

Definition extractTimestamp (content : text) : option Date :=
  match search isoPattern None content with
  | Some m => Some (parseDate (whole m))
  | None =>
      match search datePattern None content with
      | Some m => Some (parseDate (whole m))
      | None =>
          match search (fieldPattern "last_updated") None content with
          | Some m => Some (parseDate (nth 3 m []))
          | None => None
          end
      end
  end.

Definition resolveByTimestamp (markers : ConflictMarkers) : resolution :=
  let localTs := extractTimestamp (local_body markers) in
  let remoteTs := extractTimestamp (remote_body markers) in
  match localTs, remoteTs with
  | None, None =>
      {| winner := local;
         reason := str "No timestamps found - defaulting to local" |}
  | None, Some _ =>
      {| winner := remote; reason := str "Only remote has timestamp" |}
  | Some _, None =>
      {| winner := local; reason := str "Only local has timestamp" |}
  | Some l, Some r =>
      if date_gt r l then
        {| winner := remote;
           reason := str "Remote is newer by " ++ diffMinutes r l ++
                     str " minute(s)" |}
      else
        {| winner := local;
           reason := str "Local is newer by " ++ diffMinutes l r ++
                     str " minute(s)" |}
  end.

(** The body that [resolveFile] writes back. *)
Definition winning_body (m : ConflictMarkers) : text :=
  match winner (resolveByTimestamp m) with
  | local => local_body m
  | remote => remote_body m
  end.

(** [d.toISOString()], which throws on an invalid date. *)
Definition toISOString (d : Date) : M Disk text :=
  match d with
  | TimeValue ms => ret (isoString ms)
  | InvalidDate => throw invalid_time
  end.

(** The name of the archive holds the device text read from the file
    body, which can hold slashes and dots: [path.join] is taken with
    its normalisation. *)
Definition archiveLoserVersion (filePath content device : text)
    (timestamp : option Date) : M Disk unit :=
  present <- existsSync CONFLICTS_DIR ;;
  when (negb present) (mkdirSync CONFLICTS_DIR) ;;
  let filename := basename filePath in
  tsStr <- match timestamp with
           | Some d => (iso <- toISOString d ;; ret (dashed iso))
           | None => ret (dashed now)
           end ;;
  let archivePath :=
    path_join CONFLICTS_DIR
              (filename ++ str "." ++ device ++ str "." ++ tsStr ++
               str ".archived") in
  writeFileSync archivePath content ;;
  log (str "Archived to: " ++ archivePath) info.

(** [`${ts?.toISOString() || 'Not found'}`] *)
Definition timestamp_line (ts : option Date) : M Disk text :=
  match ts with
  | Some d => toISOString d
  | None => ret (str "Not found")
  end.

Definition logConflictResolution (filePath : text) (w : side) (why : text)
    (localDev remoteDev : text) (localTs remoteTs : option Date)
  : M Disk unit :=
  let logFile := join CONFLICTS_DIR (str "resolution-log.md") in
  present <- existsSync CONFLICTS_DIR ;;
  when (negb present) (mkdirSync CONFLICTS_DIR) ;;
  lts <- timestamp_line localTs ;;
  rts <- timestamp_line remoteTs ;;
  let logEntry :=
    unlines
      [ [];
        str "## Conflict Resolution - " ++ now;
        [];
        str "**File**: " ++ filePath;
        str "**Winner**: " ++ side_name w;
        str "**Reason**: " ++ why;
        [];
        str "**Local Version**:";
        str "- Device: " ++ localDev;
        str "- Timestamp: " ++ lts;
        [];
        str "**Remote Version**:";
        str "- Device: " ++ remoteDev;
        str "- Timestamp: " ++ rts;
        [];
        str "**Action**: Kept " ++ side_name w ++ str " version, archived " ++
          side_name (other w) ++ str " version";
        [];
        str "---" ] in
  has_log <- existsSync logFile ;;
  when (negb has_log)
       (writeFileSync logFile (str "# Conflict Resolution Log" ++ nl ++ nl)) ;;
  existingContent <- readFileSync logFile ;;
  writeFileSync logFile (existingContent ++ logEntry).

Definition requiresManualResolution (filePath : text) : bool :=
  let relativePath := replace_first (MEMORY_DIR ++ str "/") [] filePath in
  existsb (fun pattern => includes pattern relativePath) MANUAL_RESOLUTION_FILES.

(** [execSync] of [git add] on the quoted [filePath]. *)
Definition ran_command (c : command) : M Disk unit :=
  modify (fun d => {| files := files d; dirs := dirs d; staged := staged d;
                      ran := ran d ++ [c]; console := console d |}).

Definition git_add (filePath : text) : M Disk unit :=
  ran_command (GitAdd filePath) ;;
  if git_add_ok filePath then
    modify (fun d => {| files := files d; dirs := dirs d;
                        staged := staged d ++ [filePath];
                        ran := ran d; console := console d |})
  else throw (plain_error (str "Command failed: git add")).

(** Messages are given without their pictographs. *)
Definition resolveFile (filePath : text) : M Disk bool :=
  try_catch
    (log (str "Processing: " ++ filePath) info ;;
     if requiresManualResolution filePath then
       log (str "This file requires manual resolution (critical config)") warn ;;
       log (str "   Edit: " ++ filePath) info ;;
       log (str "   Remove markers: <<<<<<< ======= >>>>>>>") info ;;
       log (str "   Then: git add " ++ filePath) info ;;
       ret false
     else
       content <- readFileSync filePath ;;
       match extractConflict content with
       | None =>
           log (str "No conflict markers found") warn ;;
           ret false
       | Some m =>
           let localDev := extractDevice (local_body m) in
           let remoteDev := extractDevice (remote_body m) in
           let localTs := extractTimestamp (local_body m) in
           let remoteTs := extractTimestamp (remote_body m) in
           let res := resolveByTimestamp m in
           log (str "Resolution: " ++ side_name (winner res) ++ str " wins (" ++
                reason res ++ str ")") success ;;
           let loserContent :=
             match winner res with local => remote_body m | remote => local_body m end in
           let loserDevice :=
             match winner res with local => remoteDev | remote => localDev end in
           let loserTimestamp :=
             match winner res with local => remoteTs | remote => localTs end in
           archiveLoserVersion filePath loserContent loserDevice loserTimestamp ;;
           let winnerContent :=
             match winner res with local => local_body m | remote => remote_body m end in
           writeFileSync filePath winnerContent ;;
           git_add filePath ;;
           logConflictResolution filePath (winner res) (reason res)
                                 localDev remoteDev localTs remoteTs ;;
           log (str "Resolved: " ++ filePath) success ;;
           ret true
       end)
    (fun e =>
       log (str "Failed to resolve " ++ filePath ++ str ": " ++ error_string e)
           error ;;
       ret false).

(** The lines of the answer are joined to the directory as
    [path.join] does, whatever they hold. *)
Definition getConflictedFiles : M Disk (list text) :=
  try_catch
    (ran_command GitDiffUnmerged ;;
     match git_diff_unmerged with
     | Output output =>
         ret (map (path_join MEMORY_DIR)
                  (filter (fun f => negb (text_eqb f [])) (split newline output)))
     | Fails e => throw e
     end)
    (fun _ => log (str "Failed to get conflicted files") error ;; ret []).

Record tally : Type := {
  resolved : nat;
  manual : nat;
  failed : nat
}.

(** The loop of [main] over the conflicted files. *)
Fixpoint resolve_each (conflictedFiles : list text) (t : tally)
  : M Disk tally :=
  match conflictedFiles with
  | [] => ret t
  | f :: rest =>
      result <- resolveFile f ;;
      resolve_each rest
        (if result then
           {| resolved := S (resolved t); manual := manual t; failed := failed t |}
         else if requiresManualResolution f then
           {| resolved := resolved t; manual := S (manual t); failed := failed t |}
         else
           {| resolved := resolved t; manual := manual t; failed := S (failed t) |})
  end.

(** [main], without the banner and the summary it prints. *)
Definition main : M Disk unit :=
  present <- existsSync MEMORY_DIR ;;
  if negb present then
    log (str "Memory directory not found") error ;; exit 1
  else
    conflictedFiles <- getConflictedFiles ;;
    if length conflictedFiles =? 0 then
      log (str "No conflicts found") success ;; exit 0
    else
      log (str "Found " ++ decimal (length conflictedFiles) ++
           str " conflicted file(s)") info ;;
      t <- resolve_each conflictedFiles
             {| resolved := 0; manual := 0; failed := 0 |} ;;
      exit (if (0 <? manual t) || (0 <? failed t) then 1 else 0).

End Script.

End Resolver.

(* ================================================================== *)
(** * What the two session hooks share *)

Module Host.

Local Open Scope hook_scope.

(** [.config.json], with the fields the hooks read. *)
Record Config : Type := {
  sync_enabled : bool;
  device_name : text;
  on_session_start : bool;
  on_session_end : bool;
  redact_pii : bool
}.

Record PendingPush : Type := {
  timestamp : text;
  commit_hash : text;
  retry_count : Z;
  error_text : option text;
  last_retry : option text
}.

Record Device : Type := {
  device_key : text;
  last_seen : text
}.

Record Registry : Type := {
  devices : list Device;
  last_updated : text
}.

(** What the hook finds outside itself.  [reply n c] is the outcome of
    command [c] when it is the [n]-th command of the run. *)
Record World : Type := {
  stdin_json : bool;
  config_file : json_file Config;
  memory_dir_exists : bool;
  redaction_script_exists : bool;
  reply : nat -> command -> answer;
  now : text;
  disk_writable : bool;
  session_entry : text -> option text
}.

(** What the hook changes. *)
Record State : Type := {
  trace : list (command * answer);
  console : list (level * text);
  pending_file : json_file (list PendingPush);
  registry_file : json_file Registry;
  sync_dir_exists : bool;
  daily_log : list text
}.

Definition hook : Type -> Type := M State.

Definition log (msg : text) (lvl : level) : hook unit :=
  modify (fun s => {| trace := trace s; console := console s ++ [(lvl, msg)];
                      pending_file := pending_file s;
                      registry_file := registry_file s;
                      sync_dir_exists := sync_dir_exists s;
                      daily_log := daily_log s |}).

Definition set_pending (q : list PendingPush) (s : State) : State :=
  {| trace := trace s; console := console s; pending_file := Holds q;
     registry_file := registry_file s; sync_dir_exists := sync_dir_exists s;
     daily_log := daily_log s |}.

Definition set_registry (r : Registry) (s : State) : State :=
  {| trace := trace s; console := console s; pending_file := pending_file s;
     registry_file := Holds r; sync_dir_exists := sync_dir_exists s;
     daily_log := daily_log s |}.

Section Calls.

Variable w : World.

Definition execSync (c : command) : hook text :=
  fun s =>
    let a := reply w (length (trace s)) c in
    let s' := {| trace := trace s ++ [(c, a)]; console := console s;
                 pending_file := pending_file s;
                 registry_file := registry_file s;
                 sync_dir_exists := sync_dir_exists s;
                 daily_log := daily_log s |} in
    match a with
    | Output out => (Returned out, s')
    | Fails e => (Thrown e, s')
    end.

(** A write to the disk: it throws when the disk cannot be written. *)
Definition writing (change : State -> State) : hook unit :=
  if disk_writable w then modify change
  else throw (plain_error (str "EACCES: permission denied")).

(** [JSON.parse(readFileSync(file))] for a file that exists. *)
Definition parse_file {A : Type} (f : json_file A) : hook A :=
  match f with
  | Holds a => ret a
  | _ => throw (plain_error (str "JSON Parse error"))
  end.

Definition file_exists {A : Type} (f : json_file A) : bool :=
  match f with
  | Absent => false
  | _ => true
  end.

(** [readFileSync(0)] and [JSON.parse] of standard input. *)
Definition read_event : hook unit :=
  if stdin_json w then ret tt
  else throw (plain_error (str "JSON Parse error")).

Definition loadConfig : hook (option Config) :=
  match config_file w with
  | Absent => log (str "No config found - sync disabled") warn ;; ret None
  | Garbled => log (str "Failed to load config") error ;; ret None
  | Holds c => ret (Some c)
  end.

End Calls.

End Host.

(* ================================================================== *)
(** * Hooks/SessionEnd.ts *)

Module SessionEnd.

Import Host.
Local Open Scope hook_scope.

Section Hook.

Variable w : World.

Definition redactPII : hook bool :=
  try_catch
    (if negb (redaction_script_exists w) then
       log (str "PII redaction script not found - skipping") warn ;;
       ret true
     else
       log (str "Running PII redaction...") info ;;
       _ <- execSync w RunRedactionScript ;;
       log (str "PII redaction complete") info ;;
       ret true)
    (fun e =>
       log (str "PII redaction failed: " ++ err_message e) error ;;
       ret false).

(** [new Date().toISOString().replace('T', '_').split('.')[0]] *)
Definition commit_timestamp : text :=
  let t := replace_first (str "T") (str "_") (now w) in
  firstn (run_length (fun c => negb (Ascii.eqb c ".")) t) t.

(** The commit message, without its fixed attribution trailer. *)
Definition commitMessage (deviceName : text) : text :=
  str "Auto-sync: SessionEnd on " ++ deviceName ++ [newline; newline] ++
  str "Session closed at " ++ commit_timestamp ++ [newline] ++
  str "Changes synced automatically via PAI hook".

(** [error.stderr?.includes('nothing to commit')] *)
Definition nothing_to_commit (e : js_error) : bool :=
  match err_stderr e with
  | Some t => includes (str "nothing to commit") t
  | None => false
  end.

Definition createCommit (deviceName : text) : hook (option text) :=
  try_catch
    (status <- execSync w GitStatusShort ;;
     if text_eqb (trim status) [] then
       log (str "No changes to commit") info ;;
       ret None
     else
       _ <- execSync w GitAddAll ;;
       _ <- execSync w (GitCommit (commitMessage deviceName)) ;;
       out <- execSync w GitRevParseHead ;;
       let commitHash := trim out in
       log (str "Commit created: " ++ slice0 7 commitHash) info ;;
       ret (Some commitHash))
    (fun e =>
       if nothing_to_commit e then
         log (str "No changes to commit") info ;;
         ret None
       else
         log (str "Failed to create commit: " ++ err_message e) error ;;
         ret None).

Record push_result : Type := {
  push_success : bool;
  push_error : option text
}.

Definition pushToCloud : hook push_result :=
  try_catch
    (_ <- execSync w GitPush ;;
     log (str "Cloud push complete") info ;;
     ret {| push_success := true; push_error := None |})
    (fun e =>
       log (str "Push failed: " ++ err_message e) warn ;;
       ret {| push_success := false; push_error := Some (err_message e) |}).

Definition new_entry (commitHash errorText : text) : PendingPush :=
  {| timestamp := now w; commit_hash := commitHash; retry_count := 0;
     error_text := Some errorText; last_retry := None |}.

Definition queuePendingPush (commitHash errorText : text) : hook unit :=
  try_catch
    (has_dir <- gets sync_dir_exists ;;
     when (negb has_dir)
          (writing w (fun s =>
             {| trace := trace s; console := console s;
                pending_file := pending_file s;
                registry_file := registry_file s;
                sync_dir_exists := true; daily_log := daily_log s |})) ;;
     f <- gets pending_file ;;
     pending <- (if file_exists f then parse_file f else ret []) ;;
     writing w (set_pending (pending ++ [new_entry commitHash errorText])) ;;
     log (str "Push queued for retry (commit: " ++ slice0 7 commitHash ++
          str ")") info)
    (fun e =>
       log (str "Failed to queue pending push: " ++ err_message e) error).

Definition generateDailyLog (deviceName : text) : hook unit :=
  try_catch
    (match session_entry w deviceName with
     | None => throw (plain_error (str "TypeError"))
     | Some sessionEntry =>
         writing w (fun s =>
           {| trace := trace s; console := console s;
              pending_file := pending_file s;
              registry_file := registry_file s;
              sync_dir_exists := sync_dir_exists s;
              daily_log := daily_log s ++ [sessionEntry] |}) ;;
         log (str "Daily log updated") info
     end)
    (fun e => log (str "Failed to generate daily log: " ++ err_message e) warn).

(** [pushResult.error || 'Unknown error'] *)
Definition error_or_unknown (e : option text) : text :=
  match e with
  | Some (c :: t) => c :: t
  | _ => str "Unknown error"
  end.

(** [if (!commitHash)]: [null] and the empty string are both falsy. *)
Definition truthy (h : option text) : option text :=
  match h with
  | Some (c :: t) => Some (c :: t)
  | _ => None
  end.

Definition main : hook unit :=
  try_catch
    (read_event w ;;
     log (str "SessionEnd event received") info ;;
     config <- loadConfig w ;;
     match config with
     | None => log (str "Sync disabled in config") info ;; exit 0
     | Some config =>
       if negb (sync_enabled config) then
         log (str "Sync disabled in config") info ;; exit 0
       else if negb (on_session_end config) then
         log (str "SessionEnd sync disabled in config") info ;; exit 0
       else if negb (memory_dir_exists w) then
         log (str "Memory directory not found - run installation first") error ;;
         exit 0
       else
         log (str "Starting cloud sync...") info ;;
         (if redact_pii config then
            redactionSuccess <- redactPII ;;
            if negb redactionSuccess then
              log (str "PII redaction failed - skipping push for safety") error ;;
              exit 0
            else ret tt
          else ret tt) ;;
         commitHash <- createCommit (device_name config) ;;
         match truthy commitHash with
         | None =>
             log (str "No commit created (no changes or error)") info ;;
             exit 0
         | Some commitHash =>
             pushResult <- pushToCloud ;;
             when (negb (push_success pushResult))
                  (queuePendingPush commitHash
                     (error_or_unknown (push_error pushResult))) ;;
             generateDailyLog (device_name config) ;;
             log (str "SessionEnd complete") info ;;
             exit 0
         end
     end)
    (fun e =>
       log (str "Hook error: " ++ err_message e) error ;;
       exit 0).

End Hook.

End SessionEnd.

(* ================================================================== *)
(** * Hooks/SessionStart.ts *)

Module SessionStart.

Import Host.
Local Open Scope hook_scope.

Section Hook.

Variable w : World.

Record pull_result : Type := {
  pull_success : bool;
  pull_message : text
}.

Definition is_code (c : string) (e : js_error) : bool :=
  match err_code e with
  | Some t => text_eqb t (str c)
  | None => false
  end.
Arguments is_code c%_string_scope e.

Definition is_status (n : Z) (e : js_error) : bool :=
  match err_status e with
  | Some k => (k =? n)%Z
  | None => false
  end.

Definition pullFromCloud : hook pull_result :=
  try_catch
    (_ <- execSync w GitPullRebase ;;
     status <- execSync w GitStatusShort ;;
     if includes (str "UU") status || includes (str "AA") status then
       log (str "Merge conflicts detected - manual resolution required") warn ;;
       ret {| pull_success := false;
              pull_message := str "Conflicts detected - see git status" |}
     else
       log (str "Cloud pull complete") info ;;
       ret {| pull_success := true; pull_message := str "Synced with cloud" |})
    (fun e =>
       if is_code "ETIMEDOUT" e then
         log (str "Network timeout - continuing offline") warn ;;
         ret {| pull_success := true;
                pull_message := str "Offline mode - sync skipped" |}
       else if is_status 128 e then
         log (str "Git error (network or auth) - continuing offline") warn ;;
         ret {| pull_success := true;
                pull_message := str "Offline mode - git error" |}
       else
         log (str "Pull failed: " ++ err_message e) error ;;
         ret {| pull_success := true;
                pull_message := str "Offline mode - error during pull" |}).

(** The entry after a failed retry: [retry_count++], [last_retry] and
    [error] set. *)
Definition retried (push : PendingPush) (msg : text) : PendingPush :=
  {| timestamp := timestamp push; commit_hash := commit_hash push;
     retry_count := retry_count push + 1;
     error_text := Some msg; last_retry := Some (now w) |}.

(** The [for] loop of [retryPendingPushes] over the entries still to
    visit, returning [stillPending]. *)
Fixpoint retry_loop (pending stillPending : list PendingPush)
  : hook (list PendingPush) :=
  match pending with
  | [] => ret stillPending
  | push :: rest =>
      if (3 <=? retry_count push)%Z then
        log (str "Max retries exceeded for " ++ commit_hash push ++
             str " - manual intervention required") warn ;;
        retry_loop rest (stillPending ++ [push])
      else
        kept <- try_catch
                  (_ <- execSync w GitPush ;;
                   log (str "Pending push succeeded: " ++ commit_hash push) info ;;
                   ret stillPending)
                  (fun e =>
                     let push' := retried push (err_message e) in
                     log (str "Retry " ++ decimalZ (retry_count push') ++
                          str "/3 failed for " ++ commit_hash push') warn ;;
                     ret (stillPending ++ [push'])) ;;
        retry_loop rest kept
  end.

Definition retryPendingPushes : hook unit :=
  try_catch
    (f <- gets pending_file ;;
     if negb (file_exists f) then ret tt
     else
       pending <- parse_file f ;;
       if length pending =? 0 then ret tt
       else
         log (str "Found " ++ decimal (length pending) ++
              str " pending push(es) - retrying...") info ;;
         stillPending <- retry_loop pending [] ;;
         writing w (set_pending stillPending))
    (fun e =>
       log (str "Error processing pending pushes: " ++ err_message e) error).

Definition touch (deviceName : text) (d : Device) : Device :=
  if text_eqb (device_key d) deviceName
  then {| device_key := device_key d; last_seen := now w |}
  else d.

Definition updateDeviceRegistry (deviceName : text) : hook unit :=
  try_catch
    (f <- gets registry_file ;;
     if negb (file_exists f) then
       log (str "Device registry not found - skipping update") warn
     else
       registry <- parse_file f ;;
       if negb (existsb (fun d => text_eqb (device_key d) deviceName)
                        (devices registry)) then
         log (str "Device " ++ deviceName ++
              str " not in registry - skipping update") warn
       else
         writing w (set_registry
                      {| devices := map (touch deviceName) (devices registry);
                         last_updated := now w |}) ;;
         log (str "Updated last_seen for device: " ++ deviceName) info)
    (fun e =>
       log (str "Failed to update device registry: " ++ err_message e) error).

Definition main : hook unit :=
  try_catch
    (read_event w ;;
     log (str "SessionStart event received") info ;;
     config <- loadConfig w ;;
     match config with
     | None => log (str "Sync disabled in config") info ;; exit 0
     | Some config =>
       if negb (sync_enabled config) then
         log (str "Sync disabled in config") info ;; exit 0
       else if negb (on_session_start config) then
         log (str "SessionStart sync disabled in config") info ;; exit 0
       else if negb (memory_dir_exists w) then
         log (str "Memory directory not found - run installation first") error ;;
         exit 0
       else
         log (str "Starting cloud sync...") info ;;
         pullResult <- pullFromCloud ;;
         when (negb (pull_success pullResult))
              (log (pull_message pullResult) warn) ;;
         retryPendingPushes ;;
         (match device_name config with
          | [] => ret tt
          | _ :: _ => updateDeviceRegistry (device_name config)
          end) ;;
         log (str "SessionStart complete") info ;;
         exit 0
     end)
    (fun e =>
       log (str "Hook error: " ++ err_message e) error ;;
       exit 0).

End Hook.

End SessionStart.

(* ================================================================== *)
(** * The pending-push queue as a whole *)

Module Queue.
Import Host.

(** The bound on the retry count of a queued push. *)
Definition bounded (p : PendingPush) : Prop := (0 <= retry_count p <= 3)%Z.

(** The contents the pending-push file can have, from no file at all,
    through the two operations that write it. *)
Inductive stored : json_file (list PendingPush) -> Prop :=
| stored_absent : stored Absent
| stored_enqueue (w : World) (commitHash errorText : text) (s : State) :
    stored (pending_file s) ->
    stored (pending_file (snd (SessionEnd.queuePendingPush w commitHash errorText s)))
| stored_drain (w : World) (s : State) :
    stored (pending_file s) ->
    stored (pending_file (snd (SessionStart.retryPendingPushes w s))).

(** Entries the drain does not retry any more. *)
Definition spent (p : PendingPush) : bool := (3 <=? retry_count p)%Z.

Definition only_pushes (added : list (command * answer)) : Prop :=
  forall c a, In (c, a) added -> c = GitPush.

End Queue.

(* ================================================================== *)
(** * Inputs for the examples *)

Module Samples.
Definition MEMORY_DIR : text := str "/home/u/.claude-memory-cloud".

Definition digit_value (c : ascii) : Z := Z.of_nat (code c) - 48.

(** The numbers written in a text, in order. *)
Fixpoint numbers (s : text) (current : option Z) : list Z :=
  match s with
  | [] => match current with Some n => [n] | None => [] end
  | c :: s' =>
      if is_digit c then
        numbers s' (Some (10 * match current with Some n => n | None => 0 end
                          + digit_value c)%Z)
      else match current with
           | Some n => n :: numbers s' None
           | None => numbers s' None
           end
  end.

(** A stand-in for the engine's date parser in the examples: six numeric
    fields, ordered as the calendar orders them (not the epoch value). *)
Definition calendar_parse (s : text) : Resolver.Date :=
  match numbers s None with
  | [y; mo; d; h; mi; sec] =>
      Resolver.TimeValue
        ((((((y * 12 + mo) * 31 + d) * 24 + h) * 60 + mi) * 60 + sec) * 1000)%Z
  | _ => Resolver.InvalidDate
  end.

Definition sample_now : text := str "2026-01-10T16:00:00.000Z".

Definition lines (ls : list text) : text := concat (map (fun l => l ++ [newline]) ls).

Definition notes_path : text := str "/home/u/.claude-memory-cloud/notes.md".
Definition intro : text := str "intro" ++ [newline].
Definition outro : text := [newline] ++ str "outro" ++ [newline].

(** A file with text around one conflict region. *)
Definition conflicted_notes : text :=
  intro ++
  (str "<<<<<<< HEAD" ++ [newline] ++ str "mine" ++
   [newline] ++ str "=======" ++ [newline] ++ str "theirs" ++
   [newline] ++ str ">>>>>>> origin/main") ++
  outro.

Definition disk_with (path content : text) : Resolver.Disk :=
  {| Resolver.files := fun p => if text_eqb p path then Some content else None;
     Resolver.dirs := fun p => text_eqb p MEMORY_DIR;
     Resolver.staged := []; Resolver.ran := []; Resolver.console := [] |}.

Definition markers_of (l r : text) : Resolver.ConflictMarkers :=
  {| Resolver.local_body := l; Resolver.remote_body := r;
     Resolver.localDevice := None; Resolver.remoteDevice := None;
     Resolver.localTimestamp := None; Resolver.remoteTimestamp := None |}.

Definition registry_path : text :=
  str "/home/u/.claude-memory-cloud/sync/device-registry.json".

Definition always (_ : text) : bool := true.

(** Stand-ins for the engine's texts in the examples: the string form
    of an error is carried in its message. *)
Definition invalid_time : js_error :=
  plain_error (str "RangeError: Invalid Date").
Definition error_string (e : js_error) : text := err_message e.

(** The resolver on the sample file. *)
Abbreviation resolve_notes :=
  (Resolver.resolveFile MEMORY_DIR calendar_parse decimalZ sample_now always
                        invalid_time error_string
                        notes_path (disk_with notes_path conflicted_notes)).

Definition older_body : text := str "edited 2026-01-10T14:00:00".
Definition newer_body : text := str "edited 2026-01-10T15:30:00".


(** A derived artifact with a token and, next to it, a bare address. *)
Definition token_and_address : text := str "[REDACTED:EMAIL] a@b.co".
Definition tree_with_token : list PrePush.node :=
  [ PrePush.Dir (str ".git") [];
    PrePush.File (str "global-memory.md") (Some (str "mail [PII:EMAIL]x@y.org[/PII:EMAIL] a@b.co"));
    PrePush.File (str "global-memory.safe.md") (Some token_and_address) ].
Definition safe_path : text := str "/home/u/.claude-memory-cloud/global-memory.safe.md".

Definition bare_address : text := str "mail bob@example.com today".
Definition tree_with_address : list PrePush.node :=
  [ PrePush.File (str "global-memory.safe.md") (Some bare_address) ].

Definition only_token : text := str "mail [REDACTED:EMAIL] today".
Definition tree_only_token : list PrePush.node :=
  [ PrePush.File (str "global-memory.safe.md") (Some only_token) ].

Definition key_with_api_token : text :=
  str "[REDACTED:API] key sk-abcdefghijklmnopqrstuvwxyz".
Definition tree_with_key : list PrePush.node :=
  [ PrePush.File (str "global-memory.safe.md") (Some key_with_api_token) ].

End Samples.

Module HookSamples.
Import Host.

Definition config_on : Config :=
  {| sync_enabled := true; device_name := str "laptop-work";
     on_session_start := true; on_session_end := true; redact_pii := true |}.

Definition fresh_state : State :=
  {| trace := []; console := []; pending_file := Absent;
     registry_file := Absent; sync_dir_exists := false; daily_log := [] |}.

Definition world_with (reply : nat -> command -> answer) : World :=
  {| stdin_json := true; config_file := Holds config_on;
     memory_dir_exists := true; redaction_script_exists := true;
     reply := reply; now := str "2026-01-10T16:00:00.000Z";
     disk_writable := true;
     session_entry := fun _ => Some (str "## Session") |}.

(** The redaction script exits with an error. *)
Definition redaction_fails (_ : nat) (c : command) : answer :=
  match c with
  | RunRedactionScript => Fails (plain_error (str "Command failed: bun redact-pii.ts"))
  | GitStatusShort => Output (str " M global-memory.md")
  | _ => Output []
  end.

Definition offline : js_error :=
  plain_error (str "Could not resolve host: github.com").

(** There is something to commit and the network is down. *)
Definition push_fails (_ : nat) (c : command) : answer :=
  match c with
  | GitStatusShort => Output (str " M global-memory.md")
  | GitRevParseHead => Output (str "3f2a9c1e" ++ [newline])
  | GitPush => Fails offline
  | _ => Output []
  end.

Definition commands_of_push_failure : list (command * answer) :=
  [ (RunRedactionScript, Output []);
    (GitStatusShort, Output (str " M global-memory.md"));
    (GitAddAll, Output []);
    (GitCommit (SessionEnd.commitMessage (world_with push_fails) (str "laptop-work")),
     Output []);
    (GitRevParseHead, Output (str "3f2a9c1e" ++ [newline]));
    (GitPush, Fails offline) ].

(** The pending-push file cannot be parsed. *)
Definition garbled_state : State :=
  {| trace := []; console := []; pending_file := Garbled;
     registry_file := Absent; sync_dir_exists := true; daily_log := [] |}.

(** The pull goes through and leaves an unmerged file. *)
Definition pull_conflicts (_ : nat) (c : command) : answer :=
  match c with
  | GitStatusShort => Output (str "UU notes.md")
  | _ => Output []
  end.

Definition entry (hash : string) (count : Z) : PendingPush :=
  {| timestamp := str "2026-01-09T10:00:00.000Z"; commit_hash := str hash;
     retry_count := count; error_text := Some (str "timeout");
     last_retry := None |}.
Arguments entry hash%_string_scope count%_Z_scope.

Definition queued_state : State :=
  {| trace := []; console := [];
     pending_file := Holds [entry "aaaaaaa" 3; entry "bbbbbbb" 1];
     registry_file := Absent; sync_dir_exists := true; daily_log := [] |}.
End HookSamples.

(* ================================================================== *)
(** * Patterns between [^] and [$] *)

Module Anchors.

(** Match [re] against the whole of [s]: without the [m] flag, [^] holds
    at the start of the subject only and [$] at its end only. *)
Fixpoint exec_all (re : regex) (pieces : list text) (prev : option ascii)
    (s : text) : option (list text) :=
  match re with
  | [] =>
      match s with
      | [] => Some pieces
      | _ :: _ => None
      end
  | it :: re' =>
      first_some
        (fun piece =>
           exec_all re' (pieces ++ [piece]) (last_of prev piece)
                    (skipn (length piece) s))
        (candidates it pieces prev s)
  end.

(** [re.test(s)] for such a pattern. *)
Definition test_all (re : regex) (s : text) : bool :=
  match exec_all re [] None s with
  | Some _ => true
  | None => false
  end.

End Anchors.

Import Anchors.

(* ================================================================== *)
(** * Scripts/redact-pii.ts: the script around [redactPII] *)

Module RedactScript.

Local Open Scope hook_scope.

Definition is_hash (c : ascii) : bool := Ascii.eqb c "#".

(** [/^(#{1,3})\s+(.+)$/]: group 1 is piece 0, group 2 is piece 2. *)
Definition headerPattern : regex :=
  [ Cls is_hash 1 (Some 3) true;
    Cls is_space 1 None true;
    Cls dot 1 None true ].

Definition includeSections : list text :=
  [ str "# PAI Global Memory";
    str "## User Profile";
    str "## Collaboration Patterns";
    str "## Active Projects";
    str "## Recent Context" ].

(** [includeSections.has(x)] *)
Definition has (x : text) : bool := existsb (text_eqb x) includeSections.

(** [`${'#'.repeat(level)} ${title}`] for a header match. *)
Definition fullHeader (headerMatch : list text) : text :=
  repeat "#"%char (length (nth 0 headerMatch [])) ++ str " " ++
  nth 2 headerMatch [].

(** The variables of the loop of [generateQuickVersion]. *)
Record scan : Type := {
  inIncludedSection : bool;
  headerLevel : nat;
  quickLines : list text
}.

Definition blank (line : text) : bool := text_eqb (trim line) [].

(** [quickLines.length > 0 &&
     quickLines[quickLines.length - 1].trim() !== ''] *)
Definition last_not_blank (quickLines : list text) : bool :=
  match rev quickLines with
  | [] => false
  | l :: _ => negb (blank l)
  end.

(** One turn of the loop over the lines. *)
Definition step (st : scan) (line : text) : scan :=
  match exec_all headerPattern [] None line with
  | Some headerMatch =>
      let level := length (nth 0 headerMatch []) in
      if has (fullHeader headerMatch) then
        {| inIncludedSection := true; headerLevel := level;
           quickLines := quickLines st ++ [line] |}
      else if level <=? headerLevel st then
        {| inIncludedSection := false; headerLevel := headerLevel st;
           quickLines := quickLines st |}
      else st
  | None =>
      if inIncludedSection st then
        if negb (blank line) || last_not_blank (quickLines st) then
          {| inIncludedSection := inIncludedSection st;
             headerLevel := headerLevel st;
             quickLines := quickLines st ++ [line] |}
        else st
      else st
  end.

Definition start : scan :=
  {| inIncludedSection := false; headerLevel := 0; quickLines := [] |}.

Definition scan_lines (lines : list text) : scan := fold_left step lines start.

(** [a.join('\n')] *)
Fixpoint join_lines (a : list text) : text :=
  match a with
  | [] => []
  | [l] => l
  | l :: rest => l ++ [newline] ++ join_lines rest
  end.

(** The lines pushed after the loop, but the last. *)
Definition footer (now : text) : list text :=
  [ []; str "---"; []; str "**Quick version generated**: " ++ now ].

(** One list of lines is got from another by leaving lines out. *)
Inductive kept : list text -> list text -> Prop :=
| kept_nil : kept [] []
| kept_skip (l : text) (a b : list text) : kept a b -> kept a (l :: b)
| kept_take (l : text) (a b : list text) : kept a b -> kept (l :: a) (l :: b).

(** A line that opens one of the included sections. *)
Definition opens_section (line : text) : bool :=
  match exec_all headerPattern [] None line with
  | Some headerMatch => has (fullHeader headerMatch)
  | None => false
  end.

Definition is_header (line : text) : bool :=
  match exec_all headerPattern [] None line with
  | Some _ => true
  | None => false
  end.

(** Once a line has been pushed, the first line is the header of an
    included section. *)
Definition opened (st : scan) : Prop :=
  (inIncludedSection st = true -> quickLines st <> []) /\
  (forall l rest, quickLines st = l :: rest -> opens_section l = true).

(** No blank line of [block] comes after a blank line; [before] tells
    whether the line before [block] is blank. *)
Fixpoint single_blanks (before : bool) (block : list text) : bool :=
  match block with
  | [] => true
  | l :: rest => negb (before && blank l) && single_blanks (blank l) rest
  end.

(** [filePath.replace(/\.md$/, suffix)] *)
Definition with_suffix (suffix filePath : text) : text :=
  if ends_with (str ".md") filePath
  then firstn (length filePath - 3) filePath ++ suffix
  else filePath.

(** [/\[REDACTED:\w+\]/g] *)
Definition redactedPattern : regex :=
  [ Lit (str "[REDACTED:"); Cls is_word 1 None true; Lit (str "]") ].

(** The files and the console as the script leaves them. *)
Record Store : Type := {
  files : text -> option text;
  console : list text
}.

Definition log (message : text) : M Store unit :=
  modify (fun s => {| files := files s; console := console s ++ [message] |}).

Definition readFileSync (p : text) : M Store text :=
  fun s =>
    match files s p with
    | Some c => (Returned c, s)
    | None => (Thrown (plain_error (str "ENOENT: no such file or directory")), s)
    end.

(** [fullPath.endsWith('.md') && !fullPath.endsWith('.safe.md') &&
     !fullPath.endsWith('.quick.md')] *)
Definition is_source (fullPath : text) : bool :=
  ends_with (str ".md") fullPath &&
  negb (ends_with (str ".safe.md") fullPath) &&
  negb (ends_with (str ".quick.md") fullPath).

(** One turn of the loop of [walk(dir)] in [findMarkdownFiles]; as in
    the pre-push hook, a throwing [statSync] ends the loop of its
    directory. *)
Fixpoint visit (dir : text) (entry : PrePush.node) (found : list text)
  : list text * bool :=
  match entry with
  | PrePush.Broken _ => (found, false)
  | PrePush.Special _ => (found, true)
  | PrePush.Locked _ => (found, true)
  | PrePush.Dir e sub =>
      if text_eqb e (str ".git") then (found, true)
      else (PrePush.loop_entries (visit (join dir e)) sub found, true)
  | PrePush.File e _ =>
      let fullPath := join dir e in
      (if is_source fullPath then found ++ [fullPath] else found, true)
  end.

Section Script.

Variable MEMORY_DIR : text.

(** Whether [MEMORY_DIR] exists, and what is below it. *)
Variable memory_dir_exists : bool.
Variable root : list PrePush.node.

(** [new Date().toISOString()] when the console holds [n] lines. *)
Variable now_at : nat -> text.

(** [Math.round((1 - a / b) * 100)], computed in floating point, as a
    template literal renders it. *)
Variable percent : nat -> nat -> text.

(** Whether a file can be written. *)
Variable writable : text -> bool.

Definition generateQuickVersion (now content : text) : text :=
  let lines := split newline content in
  let quick := quickLines (scan_lines lines) ++ footer now in
  join_lines
    (quick ++
     [ str "**Token reduction**: ~" ++ percent (length quick) (length lines) ++
       str "%" ]).

(** The last line of the quick version, after the lines [body] kept
    from [lines]. *)
Definition reduction_line (now : text) (body lines : list text) : text :=
  str "**Token reduction**: ~" ++
  percent (length (body ++ footer now)) (length lines) ++ str "%".

Definition writeFileSync (p content : text) : M Store unit :=
  if writable p then
    modify (fun s => {| files := fun q => if text_eqb q p then Some content
                                          else files s q;
                        console := console s |})
  else throw (plain_error (str "EACCES: permission denied")).

(** Messages are given without their pictographs. *)
Definition processFile (filePath : text) : M Store unit :=
  try_catch
    (log (str "Processing: " ++ filePath) ;;
     content <- readFileSync filePath ;;
     let safeContent := Redact.redactPII content in
     let safeFilePath := with_suffix (str ".safe.md") filePath in
     writeFileSync safeFilePath safeContent ;;
     log (str "  Generated: " ++ safeFilePath) ;;
     now <- gets (fun s => now_at (length (console s))) ;;
     let quickContent := generateQuickVersion now safeContent in
     let quickFilePath := with_suffix (str ".quick.md") filePath in
     writeFileSync quickFilePath quickContent ;;
     let originalLines := length (split newline content) in
     let quickLines := length (split newline quickContent) in
     log (str "  Generated: " ++ quickFilePath ++ str " (" ++
          percent quickLines originalLines ++ str "% smaller)") ;;
     let redactionCount := length (match_all redactedPattern 0 None safeContent) in
     when (0 <? redactionCount)
          (log (str "  Redactions: " ++ decimal redactionCount ++
                str " PII markers replaced")))
    (fun e =>
       log (str "  Error processing " ++ filePath ++ str ": " ++ err_message e)).

Definition findMarkdownFiles : list text :=
  PrePush.loop_entries (visit MEMORY_DIR) root [].

(** The loop of [main] over the files. *)
Fixpoint process_each (found : list text) : M Store unit :=
  match found with
  | [] => ret tt
  | file :: rest => processFile file ;; process_each rest
  end.

Definition main : M Store unit :=
  try_catch
    (log (str "Starting PII redaction...") ;;
     if negb memory_dir_exists then
       log (str "Memory directory not found: " ++ MEMORY_DIR) ;;
       log (str "   Run installation first.") ;;
       exit 1
     else
       let found := findMarkdownFiles in
       if length found =? 0 then
         log (str "No markdown files found to process") ;;
         exit 0
       else
         log (str "Found " ++ decimal (length found) ++
              str " markdown file(s) to process") ;;
         log [] ;;
         process_each found ;;
         log [] ;;
         log (str "PII redaction complete (" ++ decimal (length found) ++
              str " file(s) processed)") ;;
         exit 0)
    (fun e =>
       log (str "Fatal error: " ++ err_message e) ;;
       exit 1).

End Script.

End RedactScript.

(* ================================================================== *)
(** * Scripts/register-device.ts: the check of a device name *)

Module Register.

Record validation : Type := {
  valid : bool;
  error_of : option text
}.

Definition name_char (c : ascii) : bool :=
  is_lower c || is_digit c || Ascii.eqb c "-".

(** [/^[a-z0-9-]+$/] *)
Definition namePattern : regex := [ Cls name_char 1 None true ].

Definition validateDeviceName (name : text) : validation :=
  if text_eqb name [] || text_eqb (trim name) [] then
    {| valid := false; error_of := Some (str "Device name cannot be empty") |}
  else if negb (test_all namePattern name) then
    {| valid := false;
       error_of := Some (str "Device name must be lowercase letters, numbers, and hyphens only") |}
  else if 50 <? length name then
    {| valid := false;
       error_of := Some (str "Device name must be 50 characters or less") |}
  else
    {| valid := true; error_of := None |}.

End Register.

(* ================================================================== *)
(** * What a computation leaves as it was *)

Module Frames.

(** [m] keeps [R] between the state it starts from and the state it
    ends in, however it ends. *)
Definition keeps {S A : Type} (R : S -> S -> Prop) (m : M S A) : Prop :=
  forall s, R s (snd (m s)).

(** [m] does not end the process. *)
Definition stays {S A : Type} (m : M S A) : Prop :=
  forall s c, fst (m s) <> Exited c.

(** [m] returns: it neither throws nor ends the process. *)
Definition settles {S A : Type} (m : M S A) : Prop :=
  forall s, exists a, fst (m s) = Returned a.

End Frames.

Import Frames.

(* ================================================================== *)
(** * Scripts/resolve-conflicts.ts: what a run leaves behind *)

Module ResolverRun.

Import Resolver.

(** Paths named as the archive of a version is. *)
Definition archive_named (q : text) : bool := ends_with (str ".archived") q.

Definition logFile (MEMORY_DIR : text) : text :=
  join (CONFLICTS_DIR MEMORY_DIR) (str "resolution-log.md").

(** The three literals of the conflict pattern. *)
Definition head_marker : text := str "<<<<<<< HEAD" ++ nl.
Definition separator : text := nl ++ str "=======" ++ nl.
Definition tail_marker : text := nl ++ str ">>>>>>> ".

(** The critical files being left alone, and nothing critical staged. *)
Definition spares (MEMORY_DIR : text) (d d' : Disk) : Prop :=
  (forall q, requiresManualResolution MEMORY_DIR q = true ->
             archive_named q = false -> files d' q = files d q) /\
  (exists added, staged d' = staged d ++ added /\
                 forall x, In x added ->
                           requiresManualResolution MEMORY_DIR x = false).

Section Script.

Variable MEMORY_DIR : text.
Variable parseDate : text -> Date.
Variable isoString : Z -> text.
Variable now : text.

(** The body that [resolveFile] archives, and where. *)
Definition losing_body (m : ConflictMarkers) : text :=
  match winner (resolveByTimestamp parseDate m) with
  | local => remote_body m
  | remote => local_body m
  end.

Definition losing_device (m : ConflictMarkers) : text :=
  match winner (resolveByTimestamp parseDate m) with
  | local => extractDevice (remote_body m)
  | remote => extractDevice (local_body m)
  end.

Definition losing_timestamp (m : ConflictMarkers) : option Date :=
  match winner (resolveByTimestamp parseDate m) with
  | local => extractTimestamp parseDate (remote_body m)
  | remote => extractTimestamp parseDate (local_body m)
  end.

(** [timestamp ? timestamp.toISOString().replace(/[:.]/g, '-')
              : new Date().toISOString().replace(/[:.]/g, '-')]
    for a time stamp that is absent or valid. *)
Definition archive_stamp (ts : option Date) : text :=
  match ts with
  | Some (TimeValue ms) => dashed (isoString ms)
  | _ => dashed now
  end.

Definition archivePath (filePath : text) (m : ConflictMarkers) : text :=
  path_join (CONFLICTS_DIR MEMORY_DIR)
            (basename filePath ++ str "." ++ losing_device m ++ str "." ++
             archive_stamp (losing_timestamp m) ++ str ".archived").

End Script.

End ResolverRun.

(* ================================================================== *)
(** * Sample inputs for the scripts *)

Module ScriptSamples.

(** [Math.round((1 - a / b) * 100)] on exact fractions, a stand-in for
    the floating-point value in the examples. *)
Definition rounded (a b : nat) : text :=
  decimalZ ((200 * (Z.of_nat b - Z.of_nat a) + Z.of_nat b) / (2 * Z.of_nat b)).

Definition clock (_ : nat) : text := Samples.sample_now.

Definition memory_path : text :=
  str "/home/u/.claude-memory-cloud/global-memory.md".
Definition memory_safe_path : text :=
  str "/home/u/.claude-memory-cloud/global-memory.safe.md".
Definition memory_quick_path : text :=
  str "/home/u/.claude-memory-cloud/global-memory.quick.md".
Definition todo_path : text := str "/home/u/.claude-memory-cloud/todo.txt".

Definition memory_text : text :=
  str "# PAI Global Memory" ++ [newline] ++
  str "## User Profile" ++ [newline] ++
  str "mail [PII:EMAIL]x@y.org[/PII:EMAIL]" ++ [newline] ++
  str "## Journal" ++ [newline] ++
  str "private".

Definition memory_tree : list PrePush.node :=
  [ PrePush.Dir (str ".git") [];
    PrePush.File (str "global-memory.md") (Some memory_text) ].

Definition store_with (path content : text) : RedactScript.Store :=
  {| RedactScript.files := fun p => if text_eqb p path then Some content else None;
     RedactScript.console := [] |}.

(** The quick version that the script writes for the sample. *)
Definition memory_quick : text :=
  RedactScript.generateQuickVersion rounded Samples.sample_now
    (Redact.redactPII memory_text).

Definition tree_after_redaction : list PrePush.node :=
  [ PrePush.File (str "global-memory.md") (Some memory_text);
    PrePush.File (str "global-memory.quick.md") (Some memory_quick) ].

(** A body whose [last_updated] field is no date. *)
Definition undated_body : text :=
  [dquote] ++ str "last_updated" ++ [dquote] ++ str ": " ++
  [dquote] ++ str "soon" ++ [dquote].

(** An older body whose device text holds steps to the directory
    above. *)
Definition climbing_body : text :=
  [dquote] ++ str "device_name" ++ [dquote] ++ str ": " ++
  [dquote] ++ str "x/../../../.config.json" ++ [dquote] ++
  str " edited 2026-01-10T14:00:00".

End ScriptSamples.

(* ================================================================== *)
(** * What a run of a hook leaves behind *)

Module HookRun.

Import Host.

(** Nothing but the console differs between two states. *)
Definition idle (s s' : State) : Prop :=
  trace s' = trace s /\
  pending_file s' = pending_file s /\
  registry_file s' = registry_file s /\
  sync_dir_exists s' = sync_dir_exists s /\
  daily_log s' = daily_log s.

(** A command that went through. *)
Definition went_through (x : command * answer) : bool :=
  match snd x with
  | Output _ => true
  | Fails _ => false
  end.

(** The switches the session-start hook looks at before it runs
    anything: the event can be read, the memory directory exists, and
    the configuration holds both switches on. *)
Definition start_enabled (w : World) : bool :=
  stdin_json w && memory_dir_exists w &&
  match config_file w with
  | Holds cfg => sync_enabled cfg && on_session_start cfg
  | _ => false
  end.

(** The entries of a pending-push file that the drain still retries:
    none when the file is missing or cannot be parsed. *)
Definition due (f : json_file (list PendingPush)) : list PendingPush :=
  match f with
  | Holds q => filter (fun p => negb (Queue.spent p)) q
  | _ => []
  end.

End HookRun.

Module RunSamples.

Import Host.

Definition config_off : Config :=
  {| sync_enabled := false; device_name := str "laptop-work";
     on_session_start := true; on_session_end := true; redact_pii := true |}.

(** There is nothing to commit. *)
Definition nothing_changed (_ : nat) (_ : command) : answer := Output [].

(** The sync is disabled in the configuration. *)
Definition switched_off : World :=
  {| stdin_json := true; config_file := Holds config_off;
     memory_dir_exists := true; redaction_script_exists := true;
     reply := nothing_changed; now := str "2026-01-10T16:00:00.000Z";
     disk_writable := true;
     session_entry := fun _ => Some (str "## Session") |}.

(** The redaction script is not on disk, and the network is down. *)
Definition without_script : World :=
  {| stdin_json := true; config_file := Holds HookSamples.config_on;
     memory_dir_exists := true; redaction_script_exists := false;
     reply := HookSamples.push_fails; now := str "2026-01-10T16:00:00.000Z";
     disk_writable := true;
     session_entry := fun _ => Some (str "## Session") |}.

End RunSamples.

Unset Implicit Arguments.

(* ================================================================== *)
(** * Facts about text *)

Module TextFacts.

Lemma text_eqb_refl (a : text) : text_eqb a a = true.
Proof.
  induction a as [|c a IH]; simpl; [reflexivity|].
  now rewrite Ascii.eqb_refl.
Qed.

Lemma text_eqb_eq (a b : text) : text_eqb a b = true <-> a = b.
Proof.
  split.
  - revert b; induction a as [|x a IH]; intros [|y b] H; simpl in H;
      try discriminate; [reflexivity|].
    apply andb_true_iff in H as [Hxy Hab].
    apply Ascii.eqb_eq in Hxy. f_equal; auto.
  - intros ->. apply text_eqb_refl.
Qed.

Lemma text_eqb_neq (a b : text) : a <> b -> text_eqb a b = false.
Proof.
  intros H. destruct (text_eqb a b) eqn:E; [|reflexivity].
  apply text_eqb_eq in E. contradiction.
Qed.

Lemma starts_with_app (p s : text) : starts_with p (p ++ s) = true.
Proof.
  induction p as [|c p IH]; simpl; [reflexivity|].
  now rewrite Ascii.eqb_refl.
Qed.

Lemma starts_with_split (p s : text) :
  starts_with p s = true -> s = p ++ skipn (length p) s.
Proof.
  revert s; induction p as [|c p IH]; intros s H; simpl in *; [reflexivity|].
  destruct s as [|d s]; [discriminate|].
  apply andb_true_iff in H as [Hc Hp].
  apply Ascii.eqb_eq in Hc; subst d. simpl. f_equal. auto.
Qed.

Lemma starts_with_iff (p s : text) :
  starts_with p s = true <-> exists r, s = p ++ r.
Proof.
  split.
  - intros H. eexists. apply starts_with_split, H.
  - intros [r ->]. apply starts_with_app.
Qed.

Lemma starts_with_head (c d : ascii) (n x : text) :
  starts_with (c :: n) (d :: x) = true -> d = c.
Proof.
  cbn [starts_with]. intros H. apply andb_true_iff in H as [H _].
  apply Ascii.eqb_eq in H. congruence.
Qed.

Lemma skipn_length_app (p s : text) : skipn (length p) (p ++ s) = s.
Proof. induction p; simpl; auto. Qed.

Lemma firstn_length_app (p s : text) : firstn (length p) (p ++ s) = p.
Proof. induction p; simpl; [reflexivity|now f_equal]. Qed.

Lemma includes_prefix (n s : text) :
  starts_with n s = true -> includes n s = true.
Proof. intros H. destruct s; simpl; now rewrite H. Qed.

Lemma includes_iff (n s : text) :
  includes n s = true <-> exists a b, s = a ++ n ++ b.
Proof.
  split.
  - induction s as [|c s IH]; simpl; intros H.
    + rewrite orb_false_r in H. apply starts_with_iff in H as [r ->].
      exists [], r. reflexivity.
    + apply orb_true_iff in H as [H|H].
      * apply starts_with_iff in H as [r ->]. exists [], r. reflexivity.
      * destruct (IH H) as (a & b & ->). exists (c :: a), b. reflexivity.
  - intros (a & b & ->). induction a as [|c a IH].
    + change ([] ++ n ++ b) with (n ++ b).
      apply includes_prefix, starts_with_app.
    + simpl. rewrite IH. apply orb_true_r.
Qed.

Lemma includes_app_r (n a b : text) :
  includes n b = true -> includes n (a ++ b) = true.
Proof.
  intros H. apply includes_iff in H as (x & y & ->).
  apply includes_iff. exists (a ++ x), y. now rewrite app_assoc.
Qed.

Lemma includes_cons (n : text) (c : ascii) (s : text) :
  includes n (c :: s) = starts_with n (c :: s) || includes n s.
Proof. reflexivity. Qed.

End TextFacts.

Import TextFacts.

(* ================================================================== *)
(** * Facts about the monad *)

Module MonadFacts.

Lemma pair_from_fst {A B : Type} (x : A * B) (a : A) :
  fst x = a -> x = (a, snd x).
Proof. destruct x. cbn. now intros ->. Qed.

Lemma bind_returned {S A B : Type} (m : M S A) (k : A -> M S B)
    (s s' : S) (b : B) :
  bind m k s = (Returned b, s') ->
  exists a s1, m s = (Returned a, s1) /\ k a s1 = (Returned b, s').
Proof.
  unfold bind. destruct (m s) as [[a|e|c] s1]; intros H;
    try discriminate H. eauto.
Qed.

Lemma try_catch_returned {S A : Type} (body : M S A)
    (handler : js_error -> M S A) (s s' : S) (a : A) :
  try_catch body handler s = (Returned a, s') ->
  body s = (Returned a, s') \/
  exists e s1, body s = (Thrown e, s1) /\ handler e s1 = (Returned a, s').
Proof.
  unfold try_catch. destruct (body s) as [[x|e|c] s1]; intros H; eauto.
Qed.

(** Inversion of one [bind] that returned. *)
Tactic Notation "step" hyp(H) "as" simple_intropattern(a) ident(s) ident(E) :=
  apply bind_returned in H as (a & s & E & H).

Tactic Notation "step" hyp(H) :=
  let a := fresh "a" in
  let s := fresh "s" in
  let E := fresh "E" in
  apply bind_returned in H as (a & s & E & H).


Lemma wp_bind {S A B : Type} (m : M S A) (k : A -> M S B)
    (Q : outcome B -> S -> Prop) (s : S) :
  wp m (after k Q) s -> wp (bind m k) Q s.
Proof.
  unfold wp, after, bind. destruct (m s) as [[a|e|c] s1]; cbn; auto.
Qed.

Lemma wp_try {S A : Type} (body : M S A) (h : js_error -> M S A)
    (Q : outcome A -> S -> Prop) (s : S) :
  wp body (caught h Q) s -> wp (try_catch body h) Q s.
Proof.
  unfold wp, caught, try_catch. destruct (body s) as [[a|e|c] s1]; cbn; auto.
Qed.

Lemma wp_mono {S A : Type} (m : M S A) (P Q : outcome A -> S -> Prop) (s : S) :
  wp m P s -> (forall o s1, P o s1 -> Q o s1) -> wp m Q s.
Proof. unfold wp. auto. Qed.

Lemma wp_ret {S A : Type} (a : A) (Q : outcome A -> S -> Prop) (s : S) :
  Q (Returned a) s -> wp (ret a) Q s.
Proof. auto. Qed.

Lemma wp_throw {S A : Type} (e : js_error) (Q : outcome A -> S -> Prop) (s : S) :
  Q (Thrown e) s -> wp (throw e) Q s.
Proof. auto. Qed.

Lemma wp_exit {S A : Type} (c : Z) (Q : outcome A -> S -> Prop) (s : S) :
  Q (Exited c) s -> wp (exit c) Q s.
Proof. auto. Qed.

Lemma wp_modify {S : Type} (f : S -> S) (Q : outcome unit -> S -> Prop) (s : S) :
  Q (Returned tt) (f s) -> wp (modify f) Q s.
Proof. auto. Qed.

Lemma wp_gets {S A : Type} (f : S -> A) (Q : outcome A -> S -> Prop) (s : S) :
  Q (Returned (f s)) s -> wp (gets f) Q s.
Proof. auto. Qed.

Lemma wp_run {S A : Type} (m : M S A) (Q : outcome A -> S -> Prop) (s : S)
    (o : outcome A) (s1 : S) :
  m s = (o, s1) -> Q o s1 -> wp m Q s.
Proof. unfold wp. intros ->. auto. Qed.

Lemma wp_returned {S A : Type} (m : M S A) (a : A) (P : S -> Prop) (s : S) :
  wp m (fun o s' => o = Returned a /\ P s') s ->
  exists s', m s = (Returned a, s') /\ P s'.
Proof.
  unfold wp. destruct (m s) as [o s']. cbn. intros [-> H]. eauto.
Qed.

(** Walk through the straight-line part of a hook. *)
Ltac wp_walk :=
  repeat (cbn beta;
          lazymatch goal with
          | |- wp (bind _ _) _ _ => apply wp_bind
          | |- wp (try_catch _ _) _ _ => apply wp_try
          | |- wp (ret _) _ _ => apply wp_ret
          | |- wp (exit _) _ _ => apply wp_exit
          | |- wp (throw _) _ _ => apply wp_throw
          | |- wp (modify _) _ _ => apply wp_modify
          | |- wp (gets _) _ _ => apply wp_gets
          | |- after _ _ _ _ => cbn [after]
          | |- caught _ _ _ _ => cbn [caught]
          end);
  cbn beta.

End MonadFacts.

Import MonadFacts.

(* ================================================================== *)
(** * Facts about the matcher *)

Module RegexFacts.

Lemma first_some_sound {A B : Type} (f : A -> option B) (l : list A) (r : B) :
  first_some f l = Some r -> exists x, In x l /\ f x = Some r.
Proof.
  induction l as [|x l IH]; simpl; [discriminate|].
  destruct (f x) eqn:E.
  - intros [= ->]. exists x. auto.
  - intros H. destruct (IH H) as (y & Hy & Hf). exists y. auto.
Qed.

Lemma first_some_complete {A B : Type} (f : A -> option B) (l : list A) (x : A) :
  In x l -> f x <> None -> first_some f l <> None.
Proof.
  induction l as [|y l IH]; simpl; [tauto|].
  intros [->|Hin] Hx.
  - destruct (f x); [discriminate|contradiction].
  - destruct (f y); [discriminate|auto].
Qed.

Lemma first_some_ext {A B : Type} (f g : A -> option B) (l : list A) :
  (forall x, f x = g x) -> first_some f l = first_some g l.
Proof.
  intros H. induction l as [|x l IH]; simpl; [reflexivity|].
  now rewrite H, IH.
Qed.

Lemma run_length_le (p : ascii -> bool) (s : text) : run_length p s <= length s.
Proof. induction s as [|c s IH]; simpl; [lia|]. destruct (p c); simpl; lia. Qed.

Lemma run_length_forallb (p : ascii -> bool) (s : text) (n : nat) :
  n <= run_length p s -> forallb p (firstn n s) = true.
Proof.
  revert n; induction s as [|c s IH]; intros [|n] H; simpl in *;
    try reflexivity; try lia.
  destruct (p c) eqn:E; [|lia]. simpl. apply IH. lia.
Qed.

Lemma run_length_app_ge (p : ascii -> bool) (t s : text) :
  forallb p t = true -> length t <= run_length p (t ++ s).
Proof.
  induction t as [|c t IH]; simpl; intros H; [lia|].
  apply andb_true_iff in H as [-> Ht]. specialize (IH Ht). lia.
Qed.

Lemma run_length_any (s : text) : run_length any_char s = length s.
Proof. induction s; simpl; auto. Qed.

(** The counts of a quantifier are those between its bounds. *)
Lemma in_counts (p : ascii -> bool) (lo : nat) (hi : option nat) (s : text) (n : nat) :
  In n (counts p lo hi s) <-> lo <= n <= cap hi (run_length p s).
Proof. unfold counts. rewrite in_seq. lia. Qed.

Lemma in_candidates_cls p lo hi g pieces prev s piece :
  In piece (candidates (Cls p lo hi g) pieces prev s) <->
  exists n, piece = firstn n s /\ lo <= n <= cap hi (run_length p s).
Proof.
  simpl. rewrite in_map_iff. split.
  - intros (n & <- & Hn). exists n. split; [reflexivity|].
    apply in_counts. destruct g; [apply in_rev|]; exact Hn.
  - intros (n & -> & Hn). exists n. split; [reflexivity|].
    apply in_counts in Hn. destruct g; [apply in_rev in Hn|]; exact Hn.
Qed.

Lemma in_candidates_lit l pieces prev s piece :
  In piece (candidates (Lit l) pieces prev s) <->
  piece = l /\ starts_with l s = true.
Proof.
  simpl. destruct (starts_with l s); simpl; intuition congruence.
Qed.

Lemma in_candidates_back k pieces prev s piece :
  In piece (candidates (BackRef k) pieces prev s) <->
  piece = nth k pieces [] /\ starts_with (nth k pieces []) s = true.
Proof.
  simpl. destruct (starts_with (nth k pieces []) s); simpl; intuition congruence.
Qed.

Lemma cap_le (hi : option nat) (n : nat) : cap hi n <= n.
Proof. destruct hi; simpl; lia. Qed.

(** Every candidate is a prefix of the subject. *)
Lemma candidate_prefix it pieces prev s piece :
  In piece (candidates it pieces prev s) ->
  s = piece ++ skipn (length piece) s.
Proof.
  destruct it as [l|p lo hi g| |k].
  - intros H. apply in_candidates_lit in H as [-> H].
    now apply starts_with_split.
  - intros H. apply in_candidates_cls in H as (n & -> & Hn).
    pose proof (run_length_le p s). pose proof (cap_le hi (run_length p s)).
    rewrite length_firstn, Nat.min_l by lia. symmetry. apply firstn_skipn.
  - simpl. destruct (xorb _ _); simpl; [|tauto]. intros [<-|[]]. reflexivity.
  - intros H. apply in_candidates_back in H as [-> H].
    now apply starts_with_split.
Qed.

Lemma exec_cons it re pieces prev s r :
  exec (it :: re) pieces prev s = Some r ->
  exists piece,
    In piece (candidates it pieces prev s) /\
    exec re (pieces ++ [piece]) (last_of prev piece)
         (skipn (length piece) s) = Some r.
Proof. simpl. apply first_some_sound. Qed.

Lemma exec_cons_complete it re pieces prev s piece :
  In piece (candidates it pieces prev s) ->
  exec re (pieces ++ [piece]) (last_of prev piece)
       (skipn (length piece) s) <> None ->
  exec (it :: re) pieces prev s <> None.
Proof. simpl. intros Hin Hex. eapply first_some_complete; eauto. Qed.

(** A match splits the subject into the matched pieces and the rest. *)
Lemma exec_splits re : forall pieces prev s ps rest,
  exec re pieces prev s = Some (ps, rest) ->
  exists qs, ps = pieces ++ qs /\ s = concat qs ++ rest /\
             length qs = length re.
Proof.
  induction re as [|it re IH]; intros pieces prev s ps rest H.
  - simpl in H. injection H as <- <-. exists []. now rewrite app_nil_r.
  - apply exec_cons in H as (piece & Hin & H).
    apply IH in H as (qs & -> & Hs & Hl).
    exists (piece :: qs). rewrite <- app_assoc. simpl.
    split; [reflexivity|]. split; [|now rewrite Hl].
    rewrite (candidate_prefix _ _ _ _ _ Hin) at 1.
    now rewrite Hs, app_assoc.
Qed.


(** Without [\b] a match does not look at the code unit before it. *)
Lemma exec_prev re : no_boundary re = true ->
  forall pieces p1 p2 s, exec re pieces p1 s = exec re pieces p2 s.
Proof.
  induction re as [|it re IH]; intros Hre pieces p1 p2 s; [reflexivity|].
  simpl in Hre. apply andb_true_iff in Hre as [Hit Hre]. simpl.
  replace (candidates it pieces p2 s) with (candidates it pieces p1 s)
    by (destruct it; try reflexivity; discriminate).
  apply first_some_ext. intros x. now apply IH.
Qed.

Lemma replace_all_prev re f : no_boundary re = true ->
  forall s skip p1 p2, replace_all re f skip p1 s = replace_all re f skip p2 s.
Proof.
  intros Hre. induction s as [|c s IH]; intros skip p1 p2; simpl.
  - now rewrite (exec_prev _ Hre [] p1 p2).
  - destruct skip; [|reflexivity].
    now rewrite (exec_prev _ Hre [] p1 p2).
Qed.

Lemma search_prev re : no_boundary re = true ->
  forall s p1 p2, search re p1 s = search re p2 s.
Proof.
  intros Hre. induction s as [|c s IH]; intros p1 p2; simpl;
    now rewrite (exec_prev _ Hre [] p1 p2).
Qed.

End RegexFacts.

Import RegexFacts.

(* ================================================================== *)
(** * Redaction *)

Module RedactFacts.

Import Redact.


Lemma marker_no_boundary : no_boundary PII_MARKER_PATTERN = true.
Proof. reflexivity. Qed.

Lemma length_ind (P : text -> Prop) :
  (forall s, (forall t, length t < length s -> P t) -> P s) -> forall s, P s.
Proof.
  intros H s. remember (length s) as n eqn:E. revert s E.
  induction n as [n IH] using lt_wf_ind. intros s ->.
  apply H. intros t Ht. eapply IH; eauto.
Qed.

(** What a match of the marker pattern looks like. *)
Lemma exec_marker_sound prev s ps rest :
  exec PII_MARKER_PATTERN [] prev s = Some (ps, rest) ->
  exists T mid,
    T <> [] /\ forallb is_word T = true /\ nth 1 ps [] = T /\
    whole ps = opening T ++ mid ++ closing T /\
    s = whole ps ++ rest.
Proof.
  intros H. pose proof (exec_splits _ _ _ _ _ _ H) as (qs & Hps & Hs & _).
  simpl in Hps. subst qs. unfold PII_MARKER_PATTERN in H.
  apply exec_cons in H as (q0 & H0 & H).
  apply in_candidates_lit in H0 as [-> _].
  apply exec_cons in H as (q1 & H1 & H).
  apply in_candidates_cls in H1 as (n1 & E1 & Hn1).
  apply exec_cons in H as (q2 & H2 & H).
  apply in_candidates_lit in H2 as [-> _].
  apply exec_cons in H as (q3 & H3 & H).
  apply exec_cons in H as (q4 & H4 & H).
  apply in_candidates_lit in H4 as [-> _].
  apply exec_cons in H as (q5 & H5 & H).
  apply in_candidates_back in H5 as [E5 _]. simpl in E5.
  apply exec_cons in H as (q6 & H6 & H).
  apply in_candidates_lit in H6 as [-> _].
  simpl in H. injection H as <- <-.
  exists q1, q3. subst q5. cbn [cap] in Hn1.
  assert (Hw : forallb is_word q1 = true)
    by (subst q1; apply run_length_forallb; lia).
  assert (Hne : q1 <> []).
  { intros E. rewrite E in E1. symmetry in E1.
    apply (f_equal (@length ascii)) in E1. rewrite length_firstn in E1.
    pose proof (run_length_le is_word (skipn (length (str "[PII:")) s)).
    change (length []) with 0 in E1. lia. }
  repeat split; auto.
  - unfold whole, opening, closing. simpl. rewrite <- !app_assoc. reflexivity.
Qed.

Lemma exec_marker_starts prev s :
  exec PII_MARKER_PATTERN [] prev s <> None ->
  starts_with (str "[PII:") s = true.
Proof.
  destruct (exec PII_MARKER_PATTERN [] prev s) as [[ps rest]|] eqn:E;
    [intros _|congruence].
  apply exec_marker_sound in E as (T & mid & _ & _ & _ & Hw & ->).
  rewrite Hw. unfold opening. rewrite <- !app_assoc. apply starts_with_app.
Qed.

(** An opening tag followed, anywhere, by its closing tag is matched. *)
Lemma exec_marker_complete prev T u :
  T <> [] -> forallb is_word T = true ->
  includes (closing T) u = true ->
  exec PII_MARKER_PATTERN [] prev (opening T ++ u) <> None.
Proof.
  intros Hne Hw Hin. apply includes_iff in Hin as (a & b & ->).
  unfold opening, closing, PII_MARKER_PATTERN. rewrite <- !app_assoc.
  apply exec_cons_complete with (piece := str "[PII:").
  { apply in_candidates_lit. split; [reflexivity|apply starts_with_app]. }
  rewrite skipn_length_app.
  apply exec_cons_complete with (piece := T).
  { apply in_candidates_cls. exists (length T).
    split; [now rewrite firstn_length_app|]. simpl.
    split; [destruct T; simpl; [congruence|lia]|].
    now apply run_length_app_ge. }
  rewrite skipn_length_app.
  apply exec_cons_complete with (piece := str "]").
  { apply in_candidates_lit. split; [reflexivity|apply starts_with_app]. }
  rewrite skipn_length_app.
  apply exec_cons_complete with (piece := a).
  { apply in_candidates_cls. exists (length a).
    split; [now rewrite firstn_length_app|]. simpl.
    rewrite run_length_any, length_app. lia. }
  rewrite skipn_length_app.
  apply exec_cons_complete with (piece := str "[/PII:").
  { apply in_candidates_lit. split; [reflexivity|apply starts_with_app]. }
  rewrite skipn_length_app.
  apply exec_cons_complete with (piece := T).
  { apply in_candidates_back. simpl. split; [reflexivity|apply starts_with_app]. }
  rewrite skipn_length_app.
  apply exec_cons_complete with (piece := str "]").
  { apply in_candidates_lit. split; [reflexivity|apply starts_with_app]. }
  simpl. discriminate.
Qed.

Lemma redact_nil : redactPII [] = [].
Proof. reflexivity. Qed.

Lemma redact_skip : forall s k prev,
  replace_all PII_MARKER_PATTERN replacement k prev s = redactPII (skipn k s).
Proof.
  unfold redactPII. induction s as [|c s IH]; intros k prev.
  - destruct k; reflexivity.
  - destruct k.
    + apply replace_all_prev, marker_no_boundary.
    + exact (IH k (Some c)).
Qed.

(** Where the pattern does not match, the code unit is copied. *)
Lemma redact_copy c s :
  exec PII_MARKER_PATTERN [] None (c :: s) = None ->
  redactPII (c :: s) = c :: redactPII s.
Proof.
  intros H. unfold redactPII at 1.
  change (replace_all PII_MARKER_PATTERN replacement 0 None (c :: s))
    with (match exec PII_MARKER_PATTERN [] None (c :: s) with
          | Some (ps, _) =>
              replacement ps ++
              match whole ps with
              | [] => c :: replace_all PII_MARKER_PATTERN replacement 0 (Some c) s
              | _ :: m => replace_all PII_MARKER_PATTERN replacement (length m) (Some c) s
              end
          | None => c :: replace_all PII_MARKER_PATTERN replacement 0 (Some c) s
          end).
  rewrite H. f_equal. apply (redact_skip s 0).
Qed.

(** Where it matches, the match becomes the token of its type. *)
Lemma redact_match s ps rest :
  exec PII_MARKER_PATTERN [] None s = Some (ps, rest) ->
  redactPII s = redacted_token (nth 1 ps []) ++ redactPII rest.
Proof.
  intros H. pose proof (exec_marker_sound _ _ _ _ H) as (T & mid & _ & _ & _ & Hw & Hs).
  destruct s as [|c s]; [cbv in H; discriminate H|].
  unfold redactPII at 1.
  change (replace_all PII_MARKER_PATTERN replacement 0 None (c :: s))
    with (match exec PII_MARKER_PATTERN [] None (c :: s) with
          | Some (ps, _) =>
              replacement ps ++
              match whole ps with
              | [] => c :: replace_all PII_MARKER_PATTERN replacement 0 (Some c) s
              | _ :: m => replace_all PII_MARKER_PATTERN replacement (length m) (Some c) s
              end
          | None => c :: replace_all PII_MARKER_PATTERN replacement 0 (Some c) s
          end).
  rewrite H. unfold replacement. f_equal.
  destruct (whole ps) as [|d m] eqn:E.
  - unfold opening, str in Hw. simpl in Hw. discriminate Hw.
  - simpl in Hs. injection Hs as -> ->.
    rewrite redact_skip. now rewrite skipn_length_app.
Qed.

Lemma match_shorter prev s ps rest :
  exec PII_MARKER_PATTERN [] prev s = Some (ps, rest) -> length rest < length s.
Proof.
  intros H. apply exec_marker_sound in H as (T & mid & _ & _ & _ & Hw & ->).
  rewrite length_app, Hw. unfold opening. rewrite !length_app. simpl. lia.
Qed.


Lemma word_not_bracket (T : text) :
  forallb is_word T = true -> forallb not_bracket T = true.
Proof.
  induction T as [|c T IH]; simpl; [reflexivity|].
  intros H. apply andb_true_iff in H as [Hc HT]. rewrite (IH HT), andb_true_r.
  unfold not_bracket. destruct (Ascii.eqb c "[") eqn:E; [|reflexivity].
  apply Ascii.eqb_eq in E. subst c. discriminate Hc.
Qed.

Lemma forallb_app_true (p : ascii -> bool) (a b : text) :
  forallb p a = true -> forallb p b = true -> forallb p (a ++ b) = true.
Proof. intros Ha Hb. rewrite forallb_app, Ha, Hb. reflexivity. Qed.

(** The first code unit of the output is that of the input. *)
Lemma redact_head s c r :
  redactPII s = c :: r -> not_bracket c = true ->
  exists s', s = c :: s' /\ r = redactPII s'.
Proof.
  intros H Hc. destruct s as [|a s]; [discriminate H|].
  destruct (exec PII_MARKER_PATTERN [] None (a :: s)) as [[ps rest]|] eqn:E.
  - rewrite (redact_match _ _ _ E) in H. simpl in H. injection H as <- _.
    discriminate Hc.
  - rewrite (redact_copy _ _ E) in H. injection H as -> <-. eauto.
Qed.

(** A bracket-free prefix of the output is a prefix of the input. *)
Lemma redact_prefix w : forall s r,
  forallb not_bracket w = true -> redactPII s = w ++ r ->
  exists s0, s = w ++ s0 /\ r = redactPII s0.
Proof.
  induction w as [|c w IH]; intros s r Hw H.
  - exists s. auto.
  - simpl in Hw. apply andb_true_iff in Hw as [Hc Hw]. simpl in H.
    apply redact_head in H as (s' & -> & H); [|exact Hc].
    symmetry in H. apply IH in H as (s0 & -> & ->); [|exact Hw].
    exists s0. auto.
Qed.

Lemma includes_skip (n : text) (w s : text) :
  forallb not_bracket w = true ->
  includes ("["%char :: n) (w ++ s) = includes ("["%char :: n) s.
Proof.
  induction w as [|c w IH]; intros H; [reflexivity|].
  simpl in H. apply andb_true_iff in H as [Hc Hw].
  change ((c :: w) ++ s) with (c :: (w ++ s)).
  rewrite includes_cons, (IH Hw).
  unfold not_bracket in Hc. apply negb_true_iff in Hc.
  cbn [starts_with]. rewrite Ascii.eqb_sym, Hc. reflexivity.
Qed.

(** A token holds no closing tag, whole or in part. *)
Lemma includes_token T T' b :
  forallb is_word T' = true ->
  includes (closing T) (redacted_token T' ++ b) = includes (closing T) b.
Proof.
  intros HT'. unfold redacted_token.
  change ((str "[REDACTED:" ++ T' ++ str "]") ++ b)
    with ("["%char :: (str "REDACTED:" ++ T' ++ str "]") ++ b).
  unfold closing.
  change (str "[/PII:" ++ T ++ str "]")
    with ("["%char :: "/"%char :: str "PII:" ++ T ++ str "]").
  rewrite includes_cons.
  replace (starts_with _ _) with false by reflexivity.
  simpl orb. apply includes_skip.
  repeat apply forallb_app_true; try reflexivity.
  now apply word_not_bracket.
Qed.


Lemma opening_cons T : opening T = "["%char :: opening_tail T.
Proof. reflexivity. Qed.

Lemma closing_cons T : closing T = "["%char :: closing_tail T.
Proof. reflexivity. Qed.

Lemma opening_tail_plain T :
  forallb is_word T = true -> forallb not_bracket (opening_tail T) = true.
Proof.
  intros H. unfold opening_tail.
  repeat apply forallb_app_true; try reflexivity. now apply word_not_bracket.
Qed.

Lemma closing_tail_plain T :
  forallb is_word T = true -> forallb not_bracket (closing_tail T) = true.
Proof.
  intros H. unfold closing_tail.
  repeat apply forallb_app_true; try reflexivity. now apply word_not_bracket.
Qed.

(** A closing tag found in the output was already in the input. *)
Lemma closing_from_input T :
  forallb is_word T = true ->
  forall s, includes (closing T) (redactPII s) = true ->
            includes (closing T) s = true.
Proof.
  intros HT. induction s as [s IH] using length_ind. intros H.
  destruct s as [|c s]; [simpl in H; discriminate H|].
  destruct (exec PII_MARKER_PATTERN [] None (c :: s)) as [[ps rest]|] eqn:E.
  - rewrite (redact_match _ _ _ E) in H.
    pose proof (match_shorter _ _ _ _ E) as Hlt.
    pose proof (exec_marker_sound _ _ _ _ E) as (T' & mid & _ & HT' & HT1 & _ & Hs).
    rewrite HT1, includes_token in H by exact HT'.
    rewrite Hs. apply includes_app_r. apply IH; auto.
  - rewrite (redact_copy _ _ E) in H. rewrite includes_cons in H.
    rewrite includes_cons.
    apply orb_true_iff in H as [H|H]; apply orb_true_iff.
    + left. apply starts_with_iff in H as [r H].
      rewrite closing_cons in H.
      change (("["%char :: closing_tail T) ++ r)
        with ("["%char :: (closing_tail T ++ r)) in H.
      injection H as -> H.
      apply (redact_prefix (closing_tail T) s r) in H as (s0 & -> & _);
        [|now apply closing_tail_plain].
      apply starts_with_iff. exists s0. now rewrite closing_cons.
    + right. apply IH; auto.
Qed.


Lemma unmatched_fixed x : unmatched x -> redactPII x = x.
Proof.
  induction x as [|c x IH]; intros H; [reflexivity|].
  rewrite redact_copy by (apply (H []); reflexivity).
  f_equal. apply IH. intros a b ->. apply (H (c :: a)). reflexivity.
Qed.

Lemma token_suffix_unmatched T l y a :
  forallb is_word T = true -> redacted_token T = a ++ l -> l <> [] ->
  exec PII_MARKER_PATTERN [] None (l ++ y) = None.
Proof.
  intros HT E Hl.
  destruct (exec PII_MARKER_PATTERN [] None (l ++ y)) eqn:Ex; [|reflexivity].
  assert (Hs : starts_with (str "[PII:") (l ++ y) = true)
    by (apply exec_marker_starts with (prev := None); congruence).
  exfalso. destruct a as [|c a].
  - simpl in E. subst l. discriminate Hs.
  - unfold redacted_token in E. simpl in E. injection E as _ E.
    assert (Hnb : forallb not_bracket (a ++ l) = true).
    { rewrite <- E. repeat apply forallb_app_true; try reflexivity.
      now apply word_not_bracket. }
    rewrite forallb_app in Hnb. apply andb_true_iff in Hnb as [_ Hnb].
    destruct l as [|d l]; [congruence|].
    simpl in Hnb. apply andb_true_iff in Hnb as [Hd _].
    apply (starts_with_head "["%char d (str "PII:") (l ++ y)) in Hs.
    subst d. discriminate Hd.
Qed.

(** The marker pattern matches nowhere in redacted text. *)
Lemma redact_unmatched : forall s, unmatched (redactPII s).
Proof.
  induction s as [s IH] using length_ind.
  destruct s as [|c s].
  - intros a b H. rewrite redact_nil in H.
    symmetry in H. apply app_eq_nil in H as [_ ->]. reflexivity.
  - destruct (exec PII_MARKER_PATTERN [] None (c :: s)) as [[ps rest]|] eqn:E.
    + rewrite (redact_match _ _ _ E).
      pose proof (match_shorter _ _ _ _ E) as Hlt.
      pose proof (exec_marker_sound _ _ _ _ E) as (T & mid & _ & HT & HT1 & _ & _).
      rewrite HT1. intros a b H.
      apply app_eq_app in H as [l [[H1 H2]|[H1 H2]]].
      * destruct l as [|d l].
        -- simpl in H2. subst b. apply (IH rest Hlt []). reflexivity.
        -- rewrite H2. eapply token_suffix_unmatched; eauto. discriminate.
      * apply (IH rest Hlt l). exact H2.
    + rewrite (redact_copy _ _ E). intros a b H.
      destruct a as [|d a].
      * simpl in H. subst b.
        destruct (exec PII_MARKER_PATTERN [] None (c :: redactPII s))
          as [[ps rest]|] eqn:E'; [exfalso|reflexivity].
        apply exec_marker_sound in E' as (T & mid & Hne & HT & _ & Hw & Hs).
        rewrite Hw, opening_cons, <- !app_assoc in Hs.
        change (("["%char :: opening_tail T) ++ mid ++ closing T ++ rest)
          with ("["%char :: (opening_tail T ++ mid ++ closing T ++ rest)) in Hs.
        injection Hs as -> Hs.
        apply (redact_prefix (opening_tail T) s (mid ++ closing T ++ rest))
          in Hs as (s0 & -> & Hs0); [|now apply opening_tail_plain].
        assert (Hin : includes (closing T) s0 = true).
        { apply closing_from_input; [exact HT|].
          rewrite <- Hs0. apply includes_iff. eauto. }
        apply (exec_marker_complete None T s0 Hne HT) in Hin.
        apply Hin. rewrite <- E, opening_cons. reflexivity.
      * simpl in H. injection H as _ H.
        apply (IH s (Nat.lt_succ_diag_r _) a). exact H.
Qed.

Lemma unmatched_search x : unmatched x -> search PII_MARKER_PATTERN None x = None.
Proof.
  induction x as [|c x IH]; intros H.
  - reflexivity.
  - cbn [search]. rewrite (H [] (c :: x)) by reflexivity.
    rewrite (search_prev _ marker_no_boundary x (Some c) None).
    apply IH. intros a b ->. apply (H (c :: a)). reflexivity.
Qed.

(** C9. Redaction is idempotent: redacting redacted text changes
    nothing, and the marker pattern [[PII:TYPE]...[/PII:TYPE]] finds no
    match in it, the [[REDACTED:TYPE]] tokens included. *)
Theorem redactPII_idempotent (s : text) :
  redactPII (redactPII s) = redactPII s /\
  search PII_MARKER_PATTERN None (redactPII s) = None.
Proof.
  split.
  - apply unmatched_fixed, redact_unmatched.
  - apply unmatched_search, redact_unmatched.
Qed.

End RedactFacts.

(* ================================================================== *)
(** * The pre-push scan *)

Module PrePushFacts.

Import PrePush.

Lemma derived_not_binary (f : text) :
  is_derived_artifact f = true -> has_binary_extension f = false.
Proof.
  unfold is_derived_artifact, has_binary_extension, ends_with, toLowerCase.
  intros H. rewrite <- map_rev.
  destruct (rev f) as [|c t]; [discriminate H|].
  assert (Hc : c = "d"%char).
  { apply orb_true_iff in H as [H|H];
      eapply starts_with_head; exact H. }
  subst c. reflexivity.
Qed.

Lemma check_pattern_finding (content : text) (p : pattern) :
  matches_of p content <> [] -> isMarked p content = false ->
  check_pattern content p = [finding p (length (matches_of p content))].
Proof.
  intros Hm Hk. unfold check_pattern. rewrite Hk.
  destruct (matches_of p content); [congruence|reflexivity].
Qed.

Lemma check_pattern_marked (content : text) (p : pattern) :
  isMarked p content = true -> check_pattern content p = [].
Proof.
  intros Hk. unfold check_pattern. rewrite Hk.
  now destruct (0 <? length (matches_of p content)).
Qed.

Lemma check_pattern_in (content : text) (p : pattern) (x : text) :
  In x (check_pattern content p) -> exists n, x = finding p n.
Proof.
  unfold check_pattern.
  destruct (0 <? _); [|intros []].
  destruct (isMarked p content); [intros []|].
  intros [<-|[]]. eauto.
Qed.

Section Gate.

Variable MEMORY_DIR : text.
Variable root : list node.

(** A pattern that matches in a scanned file without its tags blocks the
    push and names the file. *)
Lemma unmarked_match_blocks (p : pattern) (f content : text) :
  In p PII_PATTERNS ->
  In f (getFilesToCheck MEMORY_DIR root) ->
  is_derived_artifact f = true ->
  includes (str ".git/") f = false ->
  readFileSync MEMORY_DIR root f = Some content ->
  matches_of p content <> [] ->
  isMarked p content = false ->
  let r := main MEMORY_DIR root true (Holds {| redact_pii := true |}) in
  let n := length (matches_of p content) in
  exit_code r = 2%Z /\
  In (ReportFile (relative MEMORY_DIR f)) (stderr r) /\
  In (ReportFinding (finding p n)) (stderr r) /\
  In (finding p n) (findings (checkFileForPII MEMORY_DIR root f)).
Proof.
  intros Hp Hf Hd Hg Hr Hm Hk r n.
  assert (Hfind : In (finding p n) (findings (checkFileForPII MEMORY_DIR root f))).
  { unfold checkFileForPII. rewrite (derived_not_binary _ Hd), Hg, Hr.
    cbn [findings]. apply in_flat_map. exists p. split; [exact Hp|].
    rewrite check_pattern_finding by assumption. now left. }
  assert (Hhas : hasPII (checkFileForPII MEMORY_DIR root f) = true).
  { unfold checkFileForPII in *.
    rewrite (derived_not_binary _ Hd), Hg, Hr in *. cbn [findings hasPII] in *.
    destruct (flat_map _ _); [contradiction|reflexivity]. }
  assert (Hdet : In {| file := relative MEMORY_DIR f;
                       file_findings := findings (checkFileForPII MEMORY_DIR root f) |}
                    (scan_files MEMORY_DIR root (getFilesToCheck MEMORY_DIR root))).
  { unfold scan_files. apply in_flat_map. exists f. split; [exact Hf|].
    rewrite Hhas. now left. }
  assert (Hrep : In (ReportFile (relative MEMORY_DIR f))
                    (report (scan_files MEMORY_DIR root (getFilesToCheck MEMORY_DIR root))) /\
                 In (ReportFinding (finding p n))
                    (report (scan_files MEMORY_DIR root (getFilesToCheck MEMORY_DIR root)))).
  { unfold report. split; apply in_flat_map; eexists; (split; [exact Hdet|]); simpl.
    - now left.
    - right. now apply in_map. }
  subst r. unfold main. simpl negb. cbv iota.
  destruct (getFilesToCheck MEMORY_DIR root) as [|f0 fs] eqn:Efs; [contradiction|].
  cbn [length Nat.eqb].
  destruct (scan_files MEMORY_DIR root (f0 :: fs)) as [|d ds] eqn:Esc; [contradiction|].
  cbn [length Nat.ltb Nat.leb exit_code stderr].
  split; [reflexivity|].
  destruct Hrep as [H1 H2].
  split; [|split; [|exact Hfind]];
    rewrite !in_app_iff; right; right; right; assumption.
Qed.

(** C2. A scanned artifact in which the email pattern matches and which
    holds neither [[PII:EMAIL]] nor [[REDACTED:EMAIL]] anywhere makes the
    gate exit with status 2 and name the file; a scanned artifact that
    holds [[REDACTED:EMAIL]] gets no email finding. *)
Theorem email_gate (f content : text) :
  In f (getFilesToCheck MEMORY_DIR root) ->
  is_derived_artifact f = true ->
  includes (str ".git/") f = false ->
  readFileSync MEMORY_DIR root f = Some content ->
  (matches_of email content <> [] ->
   includes (str "[PII:EMAIL]") content = false ->
   includes (str "[REDACTED:EMAIL]") content = false ->
   let r := main MEMORY_DIR root true (Holds {| redact_pii := true |}) in
   exit_code r = 2%Z /\ In (ReportFile (relative MEMORY_DIR f)) (stderr r)) /\
  (includes (str "[REDACTED:EMAIL]") content = true ->
   forall n, ~ In (finding email n) (findings (checkFileForPII MEMORY_DIR root f))).
Proof.
  intros Hf Hd Hg Hr. split.
  - intros Hm H1 H2 r.
    destruct (unmarked_match_blocks email f content) as (He & Hn & _); auto.
    + simpl. auto.
    + unfold isMarked. change (pii_tag (name email)) with (str "[PII:EMAIL]").
      change (redacted_tag (name email)) with (str "[REDACTED:EMAIL]").
      now rewrite H1, H2.
  - intros Ht n Hin. unfold checkFileForPII in Hin.
    rewrite (derived_not_binary _ Hd), Hg, Hr in Hin. cbn [findings] in Hin.
    apply in_flat_map in Hin as (p & Hp & Hin).
    simpl in Hp.
    destruct Hp as [<-|Hp].
    + rewrite check_pattern_marked in Hin; [exact Hin|].
      unfold isMarked. change (redacted_tag (name email)) with (str "[REDACTED:EMAIL]").
      rewrite Ht. apply orb_true_r.
    + apply check_pattern_in in Hin as [k Hk].
      repeat (destruct Hp as [<-|Hp]; [discriminate Hk|]). exact Hp.
Qed.

(** C10. The tags looked for are the pattern names in upper case, so
    that an OpenAI-style key next to [[PII:API]] or [[REDACTED:API]], in
    a scanned file without [[PII:APIKEY]] and [[REDACTED:APIKEY]], is
    reported and blocks the push. *)
Theorem api_tag_does_not_mark (f content : text) :
  In f (getFilesToCheck MEMORY_DIR root) ->
  is_derived_artifact f = true ->
  includes (str ".git/") f = false ->
  readFileSync MEMORY_DIR root f = Some content ->
  matches_of apiKey content <> [] ->
  includes (str "[PII:API]") content = true \/
  includes (str "[REDACTED:API]") content = true ->
  includes (str "[PII:APIKEY]") content = false ->
  includes (str "[REDACTED:APIKEY]") content = false ->
  let r := main MEMORY_DIR root true (Holds {| redact_pii := true |}) in
  let n := length (matches_of apiKey content) in
  map (fun p => toUpperCase (name p)) PII_PATTERNS =
    [ str "EMAIL"; str "PHONE"; str "APIKEY"; str "AWSKEY"; str "JWT";
      str "GITHUBTOKEN"; str "CREDITCARD"; str "SSN" ] /\
  In (finding apiKey n) (findings (checkFileForPII MEMORY_DIR root f)) /\
  exit_code r = 2%Z /\
  In (ReportFile (relative MEMORY_DIR f)) (stderr r) /\
  In (ReportFinding (finding apiKey n)) (stderr r).
Proof.
  intros Hf Hd Hg Hr Hm _ H1 H2 r n.
  split; [reflexivity|].
  destruct (unmarked_match_blocks apiKey f content) as (He & Hn & Hrf & Hfi); auto.
  - simpl. auto.
  - unfold isMarked. change (pii_tag (name apiKey)) with (str "[PII:APIKEY]").
    change (redacted_tag (name apiKey)) with (str "[REDACTED:APIKEY]").
    now rewrite H1, H2.
Qed.

End Gate.

(** C2, as stated, fails: an address that no marker wraps passes the
    gate when the file holds a [[REDACTED:EMAIL]] token elsewhere. *)
Lemma bare_email_not_always_blocked :
  ~ (forall (MEMORY_DIR : text) (root : list node) (f pre e post : text),
       In f (getFilesToCheck MEMORY_DIR root) ->
       is_derived_artifact f = true ->
       readFileSync MEMORY_DIR root f = Some (pre ++ e ++ post) ->
       In e (matches_of email (pre ++ e ++ post)) ->
       ~ (ends_with (str "[PII:EMAIL]") pre = true /\
          starts_with (str "[/PII:EMAIL]") post = true) ->
       let r := main MEMORY_DIR root true (Holds {| redact_pii := true |}) in
       exit_code r = 2%Z /\ In (ReportFile (relative MEMORY_DIR f)) (stderr r)).
Proof.
  intros H.
  specialize (H Samples.MEMORY_DIR Samples.tree_with_token Samples.safe_path
                (str "[REDACTED:EMAIL] ") (str "a@b.co") []).
  destruct H as [H _].
  - vm_compute. auto.
  - reflexivity.
  - reflexivity.
  - vm_compute. auto.
  - intros [H _]. discriminate H.
  - vm_compute in H. discriminate H.
Qed.

Lemma email_gate_witness :
  (let r := main Samples.MEMORY_DIR Samples.tree_with_address true
                 (Holds {| redact_pii := true |}) in
   exit_code r = 2%Z /\
   In (ReportFile (relative Samples.MEMORY_DIR Samples.safe_path)) (stderr r)) /\
  (forall n, ~ In (finding email n)
                  (findings (checkFileForPII Samples.MEMORY_DIR
                               Samples.tree_only_token Samples.safe_path))).
Proof.
  split.
  - apply (email_gate Samples.MEMORY_DIR Samples.tree_with_address
                      Samples.safe_path Samples.bare_address).
    + vm_compute. auto.
    + reflexivity.
    + reflexivity.
    + reflexivity.
    + vm_compute. discriminate.
    + reflexivity.
    + reflexivity.
  - apply (email_gate Samples.MEMORY_DIR Samples.tree_only_token
                      Samples.safe_path Samples.only_token).
    + vm_compute. auto.
    + reflexivity.
    + reflexivity.
    + reflexivity.
    + reflexivity.
Defined.

Lemma api_tag_does_not_mark_witness :
  let r := main Samples.MEMORY_DIR Samples.tree_with_key true
                (Holds {| redact_pii := true |}) in
  let n := length (matches_of apiKey Samples.key_with_api_token) in
  map (fun p => toUpperCase (name p)) PII_PATTERNS =
    [ str "EMAIL"; str "PHONE"; str "APIKEY"; str "AWSKEY"; str "JWT";
      str "GITHUBTOKEN"; str "CREDITCARD"; str "SSN" ] /\
  In (finding apiKey n)
     (findings (checkFileForPII Samples.MEMORY_DIR Samples.tree_with_key
                                Samples.safe_path)) /\
  exit_code r = 2%Z /\
  In (ReportFile (relative Samples.MEMORY_DIR Samples.safe_path)) (stderr r) /\
  In (ReportFinding (finding apiKey n)) (stderr r).
Proof.
  apply (api_tag_does_not_mark Samples.MEMORY_DIR Samples.tree_with_key
           Samples.safe_path Samples.key_with_api_token).
  - vm_compute. auto.
  - reflexivity.
  - reflexivity.
  - reflexivity.
  - vm_compute. discriminate.
  - right. reflexivity.
  - reflexivity.
  - reflexivity.
Defined.

End PrePushFacts.

(* ================================================================== *)
(** * The conflict resolver *)

Module ResolverFacts.

Import Resolver.

Lemma replace_first_prefix (p r s : text) :
  replace_first p r (p ++ s) = r ++ s.
Proof.
  destruct (p ++ s) eqn:E; simpl; rewrite <- E;
    rewrite starts_with_app, skipn_length_app; reflexivity.
Qed.

Lemma critical_below (M n : text) :
  In n MANUAL_RESOLUTION_FILES -> requiresManualResolution M (join M n) = true.
Proof.
  intros H. unfold requiresManualResolution, join.
  rewrite app_assoc, replace_first_prefix. simpl app.
  apply existsb_exists. exists n. split; [exact H|].
  apply includes_prefix. rewrite <- (app_nil_r n) at 2. apply starts_with_app.
Qed.

Section Script.

Variable MEMORY_DIR : text.
Variable parseDate : text -> Date.
Variable isoString : Z -> text.
Variable now : text.
Variable git_add_ok : text -> bool.
Variable invalid_time : js_error.
Variable error_string : js_error -> text.

(** C3. With a timestamp in both bodies the remote one wins exactly when
    it is strictly later, so that equal timestamps keep local; with a
    timestamp in one body only, that body wins; with none, local wins. *)
Theorem resolveByTimestamp_order (m : ConflictMarkers) :
  let lt := extractTimestamp parseDate (local_body m) in
  let rt := extractTimestamp parseDate (remote_body m) in
  let w := winner (resolveByTimestamp parseDate m) in
  (forall l r, lt = Some l -> rt = Some r ->
     (w = remote <-> date_gt r l = true)) /\
  (forall a b, lt = Some (TimeValue a) -> rt = Some (TimeValue b) ->
     (w = remote <-> (a < b)%Z) /\ (a = b -> w = local)) /\
  (forall l, lt = Some l -> rt = None -> w = local) /\
  (forall r, lt = None -> rt = Some r -> w = remote) /\
  (lt = None -> rt = None -> w = local).
Proof.
  intros lt rt w. subst w. unfold resolveByTimestamp. fold lt rt.
  split; [|split; [|split; [|split]]].
  - intros l r -> ->. destruct (date_gt r l); simpl; split; congruence.
  - intros a b -> ->. simpl.
    destruct (a <? b)%Z eqn:E; simpl.
    + apply Z.ltb_lt in E. split; [split; [intros _; exact E|reflexivity]|lia].
    + apply Z.ltb_ge in E. split; [split; [discriminate|lia]|reflexivity].
  - intros l -> ->. reflexivity.
  - intros r -> ->. reflexivity.
  - intros -> ->. reflexivity.
Qed.

(** C6. A file that matches a critical path is reported for manual
    resolution and nothing else happens: no file is written (the file
    itself, the archive and the resolution log included), nothing is
    staged, no command is run.  The three critical files below the
    memory directory match. *)
Theorem critical_file_untouched (filePath : text) (d : Disk) :
  requiresManualResolution MEMORY_DIR filePath = true ->
  let r := resolveFile MEMORY_DIR parseDate isoString now git_add_ok
                       invalid_time error_string filePath d in
  fst r = Returned false /\
  files (snd r) = files d /\ dirs (snd r) = dirs d /\
  staged (snd r) = staged d /\ ran (snd r) = ran d /\
  console (snd r) =
    console d ++
    [ (info, str "Processing: " ++ filePath);
      (warn, str "This file requires manual resolution (critical config)");
      (info, str "   Edit: " ++ filePath);
      (info, str "   Remove markers: <<<<<<< ======= >>>>>>>");
      (info, str "   Then: git add " ++ filePath) ] /\
  (forall n, In n MANUAL_RESOLUTION_FILES ->
             requiresManualResolution MEMORY_DIR (join MEMORY_DIR n) = true).
Proof.
  intros H r. subst r.
  unfold resolveFile, try_catch, bind, log, modify, ret. rewrite H. simpl.
  repeat split.
  - now rewrite <- !app_assoc.
  - intros n. apply critical_below.
Qed.


Lemma log_state msg lvl (d d1 : Disk) (a : unit) :
  log msg lvl d = (Returned a, d1) ->
  files d1 = files d /\ staged d1 = staged d.
Proof. unfold log, modify. intros [= _ <-]. auto. Qed.

Lemma toISOString_state (t : Date) (d d1 : Disk) (a : text) :
  toISOString isoString invalid_time t d = (Returned a, d1) -> d1 = d.
Proof. destruct t; unfold toISOString, ret, throw; intros [= _ <-]; auto. Qed.

Lemma timestamp_line_state (t : option Date) (d d1 : Disk) (a : text) :
  timestamp_line isoString invalid_time t d = (Returned a, d1) -> d1 = d.
Proof.
  destruct t as [t|]; simpl.
  - apply toISOString_state.
  - unfold ret. intros [= _ <-]. reflexivity.
Qed.

Lemma ensure_dir_state (p : text) (d d1 : Disk) (b : bool) (a : unit) :
  when b (mkdirSync p) d = (Returned a, d1) ->
  files d1 = files d /\ staged d1 = staged d.
Proof.
  destruct b; unfold when, mkdirSync, modify, ret; intros [= _ <-]; auto.
Qed.

Lemma existsSync_state (p : text) (d d1 : Disk) (b : bool) :
  existsSync p d = (Returned b, d1) -> d1 = d.
Proof. unfold existsSync, gets. intros [= _ <-]. reflexivity. Qed.

Lemma writeFileSync_state (p c : text) (d d1 : Disk) (a : unit) :
  writeFileSync p c d = (Returned a, d1) ->
  files d1 p = Some c /\ staged d1 = staged d /\
  (forall q, text_eqb q p = false -> files d1 q = files d q).
Proof.
  unfold writeFileSync, modify. intros [= _ <-]. cbn [files staged].
  rewrite text_eqb_refl. repeat split. intros q ->. reflexivity.
Qed.

Lemma readFileSync_state (p : text) (d d1 : Disk) (c : text) :
  readFileSync p d = (Returned c, d1) -> d1 = d /\ files d p = Some c.
Proof.
  unfold readFileSync. destruct (files d p); intros [= <- <-]; auto.
Qed.

Lemma git_add_state (p : text) (d d1 : Disk) (a : unit) :
  git_add git_add_ok p d = (Returned a, d1) ->
  files d1 = files d /\ staged d1 = staged d ++ [p].
Proof.
  unfold git_add, ran_command, bind, modify, throw, ret.
  destruct (git_add_ok p); intros [= _ <-]; auto.
Qed.

(** The log entry touches the resolution log only. *)
Lemma logConflictResolution_state filePath w why ld rd lt rt
    (d d1 : Disk) (a : unit) :
  logConflictResolution MEMORY_DIR isoString now invalid_time
                        filePath w why ld rd lt rt d
    = (Returned a, d1) ->
  staged d1 = staged d /\
  forall q, text_eqb q (join (CONFLICTS_DIR MEMORY_DIR) (str "resolution-log.md"))
            = false ->
            files d1 q = files d q.
Proof.
  unfold logConflictResolution. intros H.
  step H as present s1 E. apply existsSync_state in E as ->.
  step H as u1 s2 E. apply ensure_dir_state in E as [F1 S1].
  step H as lts s3 E. apply timestamp_line_state in E as ->.
  step H as rts s4 E. apply timestamp_line_state in E as ->.
  step H as has_log s5 E. apply existsSync_state in E as ->.
  step H as u2 s6 E.
  assert (F2 : staged s6 = staged s2 /\
               forall q, text_eqb q (join (CONFLICTS_DIR MEMORY_DIR)
                                          (str "resolution-log.md")) = false ->
                         files s6 q = files s2 q).
  { revert E. unfold when. destruct (negb has_log).
    - intros E. apply writeFileSync_state in E as (_ & S2 & F2). auto.
    - unfold ret. intros [= _ <-]. auto. }
  destruct F2 as [S2 F2].
  step H as existing s7 E0. apply readFileSync_state in E0 as [-> _].
  apply writeFileSync_state in H as (_ & S3 & F3).
  split; [congruence|].
  intros q Hq. rewrite F3, F2, F1 by exact Hq. reflexivity.
Qed.

End Script.


(** C4. On a file with a line before and a line after its conflict
    region, [resolveFile] returns true and stages the file, and the file
    then holds the winning body alone: both lines are gone, where the
    region alone was to be replaced. *)
Lemma resolveFile_drops_surrounding_text :
  let before := Samples.disk_with Samples.notes_path Samples.conflicted_notes in
  files before Samples.notes_path
    = Some (Samples.intro ++
            region (str "mine") (str "theirs") (str "origin/main") ++
            Samples.outro) /\
  fst Samples.resolve_notes = Returned true /\
  In Samples.notes_path (staged (snd Samples.resolve_notes)) /\
  files (snd Samples.resolve_notes) Samples.notes_path = Some (str "mine") /\
  str "mine" <> Samples.intro ++ str "mine" ++ Samples.outro.
Proof.
  cbv zeta. split; [reflexivity|]. split; [vm_compute; reflexivity|].
  split; [vm_compute; auto|]. split; [vm_compute; reflexivity|].
  vm_compute. discriminate.
Qed.

(** C4, as stated, fails: the text before and after the conflict region
    is not kept, the file is overwritten with the winning body alone. *)
Lemma surrounding_text_not_preserved :
  ~ (forall (M : text) (parseDate : text -> Date) (iso : Z -> text)
            (now : text) (ok : text -> bool) (bad : js_error)
            (shown : js_error -> text) (filePath : text)
            (d d' : Disk) (pre l r label post : text),
       files d filePath = Some (pre ++ region l r label ++ post) ->
       option_map local_body (extractConflict (pre ++ region l r label ++ post))
         = Some l ->
       option_map remote_body (extractConflict (pre ++ region l r label ++ post))
         = Some r ->
       resolveFile M parseDate iso now ok bad shown filePath d
         = (Returned true, d') ->
       (files d' filePath = Some (pre ++ l ++ post) \/
        files d' filePath = Some (pre ++ r ++ post)) /\
       In filePath (staged d')).
Proof.
  intros H.
  specialize (H Samples.MEMORY_DIR Samples.calendar_parse decimalZ
                Samples.sample_now Samples.always Samples.invalid_time
                Samples.error_string Samples.notes_path
                (Samples.disk_with Samples.notes_path Samples.conflicted_notes)
                (snd Samples.resolve_notes)
                Samples.intro (str "mine") (str "theirs") (str "origin/main")
                Samples.outro).
  destruct H as [[H|H] _];
    try (vm_compute; reflexivity);
    try (apply pair_from_fst; vm_compute; reflexivity);
    vm_compute in H; discriminate H.
Qed.

Lemma resolveByTimestamp_order_witness :
  winner (resolveByTimestamp Samples.calendar_parse
            (Samples.markers_of Samples.older_body Samples.newer_body)) = remote /\
  winner (resolveByTimestamp Samples.calendar_parse
            (Samples.markers_of Samples.newer_body Samples.newer_body)) = local /\
  winner (resolveByTimestamp Samples.calendar_parse
            (Samples.markers_of (str "no date") Samples.older_body)) = remote /\
  winner (resolveByTimestamp Samples.calendar_parse
            (Samples.markers_of (str "no date") (str "none here"))) = local.
Proof.
  split; [|split; [|split]].
  - destruct (resolveByTimestamp_order Samples.calendar_parse
                (Samples.markers_of Samples.older_body Samples.newer_body))
      as (_ & H & _).
    edestruct H as [Hiff _]; [reflexivity|reflexivity|].
    apply Hiff. reflexivity.
  - destruct (resolveByTimestamp_order Samples.calendar_parse
                (Samples.markers_of Samples.newer_body Samples.newer_body))
      as (_ & H & _).
    edestruct H as [_ Heq]; [reflexivity|reflexivity|].
    apply Heq. reflexivity.
  - destruct (resolveByTimestamp_order Samples.calendar_parse
                (Samples.markers_of (str "no date") Samples.older_body))
      as (_ & _ & _ & H & _).
    eapply H; reflexivity.
  - destruct (resolveByTimestamp_order Samples.calendar_parse
                (Samples.markers_of (str "no date") (str "none here")))
      as (_ & _ & _ & _ & H).
    apply H; reflexivity.
Defined.

Lemma critical_file_untouched_witness :
  let d := Samples.disk_with Samples.registry_path Samples.conflicted_notes in
  let r := resolveFile Samples.MEMORY_DIR Samples.calendar_parse decimalZ
                       Samples.sample_now Samples.always
                       Samples.invalid_time Samples.error_string
                       Samples.registry_path d in
  fst r = Returned false /\ files (snd r) = files d /\ staged (snd r) = [].
Proof.
  intros d r.
  destruct (critical_file_untouched Samples.MEMORY_DIR Samples.calendar_parse
              decimalZ Samples.sample_now Samples.always
              Samples.invalid_time Samples.error_string
              Samples.registry_path d) as (H1 & H2 & _ & H3 & _).
  - reflexivity.
  - exact (conj H1 (conj H2 H3)).
Defined.

End ResolverFacts.

(* ================================================================== *)
(** * The session-end hook *)

Module HostFacts.

Import Host.

(** Reduce the projections of the states met on the way. *)
Ltac tidy :=
  cbn [trace console pending_file registry_file sync_dir_exists daily_log] in *.

Ltac hwalk := wp_walk; tidy.

End HostFacts.

Import HostFacts.

Module SessionEndFacts.

Import Host SessionEnd.

Ltac open_hook :=
  unfold main, createCommit, pushToCloud, queuePendingPush, generateDailyLog,
    redactPII, read_event, loadConfig, execSync, writing, parse_file,
    file_exists, log, set_pending, when, try_catch, bind, ret, exit, throw,
    modify, gets.

(** C1. When redaction is enabled and the redaction script fails
    whenever it is run, the hook exits with status 0 having run no
    command but the script: no commit, no push, and the pending-push
    file is as it was. *)
Theorem redaction_failure_aborts (w : World) (s : State) (cfg : Config) :
  config_file w = Holds cfg ->
  redact_pii cfg = true ->
  redaction_script_exists w = true ->
  (forall n, exists e, reply w n RunRedactionScript = Fails e) ->
  let r := main w s in
  fst r = Exited 0 /\
  pending_file (snd r) = pending_file s /\
  exists added,
    trace (snd r) = trace s ++ added /\
    (forall c a, In (c, a) added -> c = RunRedactionScript) /\
    ~ In GitPush (map fst added) /\
    (forall msg, ~ In (GitCommit msg) (map fst added)).
Proof.
  intros Hcfg Hred Hscript Hfail r. subst r.
  destruct (Hfail (length (trace s))) as [e He].
  open_hook. rewrite Hcfg, Hred, Hscript.
  destruct (stdin_json w), (sync_enabled cfg), (on_session_end cfg),
    (memory_dir_exists w); cbn; rewrite ?He; cbn;
    (split; [reflexivity|]); (split; [reflexivity|]);
    first [ exists []; rewrite app_nil_r; split; [reflexivity|];
            repeat split; simpl; tauto
          | exists [(RunRedactionScript, Fails e)]; split; [reflexivity|];
            repeat split; simpl; intuition congruence ].
Qed.

Section Steps.

Variable w : World.

Lemma redactPII_spec (s : State) :
  exists b s1 added,
    redactPII w s = (Returned b, s1) /\
    pending_file s1 = pending_file s /\
    trace s1 = trace s ++ added /\
    (forall c a, In (c, a) added -> c = RunRedactionScript).
Proof.
  unfold redactPII, execSync, try_catch, bind, log, modify, ret.
  destruct (redaction_script_exists w); cbn.
  - destruct (reply w (length (trace s)) RunRedactionScript) eqn:E; cbn;
      do 2 eexists; eexists [_]; (split; [reflexivity|]); cbn;
      (split; [reflexivity|]); (split; [reflexivity|]);
      intros c a [[= <- _]|[]]; reflexivity.
  - do 2 eexists. exists []. rewrite app_nil_r. repeat split. intros c a [].
Qed.

Lemma createCommit_spec (deviceName : text) (s : State) :
  exists h s1 added,
    createCommit w deviceName s = (Returned h, s1) /\
    pending_file s1 = pending_file s /\
    trace s1 = trace s ++ added /\
    (forall c a, In (c, a) added -> c <> GitPush) /\
    (forall hash, truthy h = Some hash ->
       exists msg o1 out,
         In (GitCommit msg, Output o1) added /\
         In (GitRevParseHead, Output out) added /\
         hash = trim out).
Proof.
  unfold createCommit. generalize (commitMessage w deviceName) as msg.
  intros msg. unfold execSync, try_catch, bind, log, modify, ret. cbn.
  destruct (reply w (length (trace s)) GitStatusShort) as [status|e0] eqn:E0; cbn.
  2:{ destruct (nothing_to_commit e0); cbn;
      do 2 eexists; eexists [_]; (split; [reflexivity|]); cbn;
      repeat split; try (intros c a [[= <- _]|[]]; discriminate);
      intros hash [=]. }
  destruct (text_eqb (trim status) []); cbn.
  { do 2 eexists; eexists [_]; (split; [reflexivity|]); cbn;
      repeat split; try (intros c a [[= <- _]|[]]; discriminate);
      intros hash [=]. }
  rewrite !length_app. cbn [length].
  destruct (reply w (length (trace s) + 1) GitAddAll) as [o1|e1] eqn:E1; cbn.
  2:{ destruct (nothing_to_commit e1); cbn;
      do 2 eexists; eexists [_; _]; rewrite <- !app_assoc;
      (split; [reflexivity|]); cbn;
      repeat split;
      try (intros c a H; repeat destruct H as [[= <- _]|H]; try discriminate;
           destruct H);
      intros hash [=]. }
  rewrite !length_app. cbn [length].
  destruct (reply w (length (trace s) + 1 + 1) (GitCommit msg))
    as [o2|e2] eqn:E2; cbn.
  2:{ destruct (nothing_to_commit e2); cbn;
      do 2 eexists; eexists [_; _; _]; rewrite <- !app_assoc;
      (split; [reflexivity|]); cbn;
      repeat split;
      try (intros c a H; repeat destruct H as [[= <- _]|H]; try discriminate;
           destruct H);
      intros hash [=]. }
  rewrite !length_app. cbn [length].
  destruct (reply w (length (trace s) + 1 + 1 + 1) GitRevParseHead)
    as [o3|e3] eqn:E3; cbn.
  2:{ destruct (nothing_to_commit e3); cbn;
      do 2 eexists; eexists [_; _; _; _]; rewrite <- !app_assoc;
      (split; [reflexivity|]); cbn;
      repeat split;
      try (intros c a H; repeat destruct H as [[= <- _]|H]; try discriminate;
           destruct H);
      intros hash [=]. }
  do 2 eexists; eexists [_; _; _; _]; rewrite <- !app_assoc;
    (split; [reflexivity|]); cbn.
  split; [reflexivity|]. split; [reflexivity|]. split.
  - intros c a H; repeat destruct H as [[= <- _]|H]; try discriminate.
    destruct H.
  - intros hash Hh. exists msg, o2, o3.
    split; [auto|]. split; [auto 6|].
    destruct (trim o3); [discriminate Hh|]. now injection Hh as <-.
Qed.

Lemma pushToCloud_spec (s : State) :
  exists pr s1 a,
    pushToCloud w s = (Returned pr, s1) /\
    pending_file s1 = pending_file s /\
    sync_dir_exists s1 = sync_dir_exists s /\
    trace s1 = trace s ++ [(GitPush, a)] /\
    match a with
    | Output _ => push_success pr = true
    | Fails e => push_success pr = false /\ push_error pr = Some (err_message e)
    end.
Proof.
  unfold pushToCloud, execSync, try_catch, bind, log, modify, ret. cbn.
  destruct (reply w (length (trace s)) GitPush) eqn:E; cbn;
    do 3 eexists; (split; [reflexivity|]); cbn; repeat split.
Qed.

Lemma queuePendingPush_spec (commitHash errorText : text) (s : State) :
  exists s1,
    queuePendingPush w commitHash errorText s = (Returned tt, s1) /\
    trace s1 = trace s /\
    (disk_writable w = true ->
     forall q, pending_file s = Holds q \/ (pending_file s = Absent /\ q = []) ->
               pending_file s1 = Holds (q ++ [new_entry w commitHash errorText])) /\
    (disk_writable w = false \/ pending_file s = Garbled ->
     pending_file s1 = pending_file s) /\
    (pending_file s1 = pending_file s \/
     exists q, (pending_file s = Holds q \/ (pending_file s = Absent /\ q = [])) /\
               pending_file s1 = Holds (q ++ [new_entry w commitHash errorText])).
Proof.
  unfold queuePendingPush, writing, parse_file, file_exists, set_pending,
    when, try_catch, bind, log, modify, gets, ret, throw.
  destruct s as [tr con pf rf sd dl]. cbn.
  destruct sd, (disk_writable w), pf as [| |q0];
    cbn; eexists; (split; [reflexivity|]); cbn;
    (split; [reflexivity|]); (split; [|split]);
    try (intros H; discriminate H);
    try (intros _ q [[= <-]|[_ ->]]; reflexivity);
    try (intros _ q [[= ->]|[[=] _]]; reflexivity);
    try (intros _ q [[=]|[[=] _]]);
    try (intros _; reflexivity);
    try (intros [[=]|[=]]; reflexivity);
    try (intros [[=]|[=]]);
    try (left; reflexivity);
    try (right; exists []; split; [right; auto|reflexivity]);
    try (right; exists q0; split; [left; auto|reflexivity]).
Qed.

(** A record that cannot be stored leaves a line in the log. *)
Lemma queuePendingPush_logs (commitHash errorText : text) (s : State) :
  disk_writable w = false \/ pending_file s = Garbled ->
  exists msg,
    console (snd (queuePendingPush w commitHash errorText s)) =
    console s ++ [(error, str "Failed to queue pending push: " ++ msg)].
Proof.
  unfold queuePendingPush, writing, parse_file, file_exists, set_pending,
    when, try_catch, bind, log, modify, gets, ret, throw.
  destruct s as [tr con pf rf sd dl]. cbn.
  destruct sd, (disk_writable w), pf as [| |q0]; cbn;
    intros [H|H]; try discriminate H; eexists; reflexivity.
Qed.

Lemma generateDailyLog_console (deviceName : text) (s : State) :
  exists lines,
    console (snd (generateDailyLog w deviceName s)) = console s ++ lines.
Proof.
  unfold generateDailyLog, writing, try_catch, bind, log, modify, ret, throw.
  destruct (session_entry w deviceName), (disk_writable w); cbn;
    eexists; reflexivity.
Qed.

Lemma generateDailyLog_spec (deviceName : text) (s : State) :
  exists s1,
    generateDailyLog w deviceName s = (Returned tt, s1) /\
    trace s1 = trace s /\ pending_file s1 = pending_file s.
Proof.
  unfold generateDailyLog, writing, try_catch, bind, log, modify, ret, throw.
  destruct (session_entry w deviceName), (disk_writable w); cbn;
    eexists; repeat split.
Qed.

End Steps.

Ltac early :=
  split; [reflexivity|];
  let added := fresh "added" in
  let Ht := fresh "Ht" in
  intros added ? Ht ?; cbn [trace] in Ht;
  match type of Ht with
  | ?t = ?t ++ _ =>
      rewrite <- (app_nil_r t) in Ht at 1; apply app_inv_head in Ht;
      subst added; contradiction
  end.

(** C8. The hook always exits with status 0.  When its push fails, a
    commit had been created, and if the pending-push file is absent or
    holds a list and the disk can be written, exactly one record is
    appended to it, with the commit hash, [retry_count] 0, the push
    error (or the text [Unknown error] for an empty one) and the time;
    if the file cannot be parsed or written, it stays as it was and the
    failure is logged. *)
Theorem failed_push_is_queued (w : World) (s : State) :
  let r := main w s in
  fst r = Exited 0 /\
  forall added e,
    trace (snd r) = trace s ++ added ->
    In (GitPush, Fails e) added ->
    exists msg o1 out,
      In (GitCommit msg, Output o1) added /\
      In (GitRevParseHead, Output out) added /\
      (disk_writable w = true ->
       forall q, pending_file s = Holds q \/ (pending_file s = Absent /\ q = []) ->
         pending_file (snd r) =
           Holds (q ++ [ {| timestamp := now w;
                            commit_hash := trim out;
                            retry_count := 0;
                            error_text :=
                              Some (error_or_unknown (Some (err_message e)));
                            last_retry := None |} ])) /\
      (disk_writable w = false \/ pending_file s = Garbled ->
       pending_file (snd r) = pending_file s /\
       exists failure,
         In (error, str "Failed to queue pending push: " ++ failure)
            (console (snd r))).
Proof.
  intros r. subst r.
  change (wp (main w)
            (fun o s' =>
               o = Exited 0 /\
               forall added e,
                 trace s' = trace s ++ added ->
                 In (GitPush, Fails e) added ->
                 exists msg o1 out,
                   In (GitCommit msg, Output o1) added /\
                   In (GitRevParseHead, Output out) added /\
                   (disk_writable w = true ->
                    forall q, pending_file s = Holds q \/
                              (pending_file s = Absent /\ q = []) ->
                      pending_file s' =
                        Holds (q ++ [ {| timestamp := now w;
                                         commit_hash := trim out;
                                         retry_count := 0;
                                         error_text :=
                                           Some (error_or_unknown
                                                   (Some (err_message e)));
                                         last_retry := None |} ])) /\
                   (disk_writable w = false \/ pending_file s = Garbled ->
                    pending_file s' = pending_file s /\
                    exists failure,
                      In (error,
                          str "Failed to queue pending push: " ++ failure)
                         (console s'))) s).
  unfold main, read_event, loadConfig, log.
  apply wp_try, wp_bind.
  destruct (stdin_json w); hwalk; [|early].
  destruct (config_file w) as [| |cfg]; hwalk; try early.
  destruct (sync_enabled cfg); cbn [negb]; hwalk; [|early].
  destruct (on_session_end cfg); cbn [negb]; hwalk; [|early].
  destruct (memory_dir_exists w); cbn [negb]; hwalk; [|early].
  (* the redaction step runs the redaction script at most *)
  apply wp_mono with
    (P := fun o s1 =>
            (o = Returned tt \/ o = Exited 0) /\
            pending_file s1 = pending_file s /\
            exists add1, trace s1 = trace s ++ add1 /\
                         forall c a, In (c, a) add1 -> c = RunRedactionScript).
  { destruct (redact_pii cfg); hwalk.
    - match goal with |- wp (redactPII w) _ ?st =>
        destruct (redactPII_spec w st) as (b & s1 & add1 & E & P1 & T1 & A1) end.
      eapply wp_run; [exact E|]; cbn [after].
      destruct b; cbn [negb]; hwalk; cbn [trace pending_file] in *; eauto 6.
    - cbn [trace pending_file]. repeat split; auto.
      exists []. rewrite app_nil_r. split; [reflexivity|intros c a []]. }
  intros o s1 (Ho & P1 & add1 & T1 & A1).
  destruct Ho as [->| ->]; cbn [after caught].
  2:{ split; [reflexivity|]. intros added e Ht Hin.
      rewrite T1 in Ht. apply app_inv_head in Ht. subst added.
      apply A1 in Hin. discriminate Hin. }
  hwalk.
  destruct (createCommit_spec w (device_name cfg) s1)
    as (h & s2 & add2 & E2 & P2 & T2 & A2 & C2).
  eapply wp_run; [exact E2|]; cbn [after].
  destruct (truthy h) as [hash|] eqn:Hh; hwalk.
  2:{ split; [reflexivity|]. intros added e Ht Hin. cbn [trace] in Ht.
      rewrite T2, T1, <- app_assoc in Ht. apply app_inv_head in Ht.
      subst added. apply in_app_or in Hin as [Hin|Hin].
      - apply A1 in Hin. discriminate Hin.
      - apply A2 in Hin. congruence. }
  destruct (C2 hash eq_refl) as (msg & o1 & out & Hc & Hrp & ->).
  destruct (pushToCloud_spec w s2) as (pr & s3 & a & E3 & P3 & D3 & T3 & R3).
  eapply wp_run; [exact E3|]; cbn [after]. hwalk.
  destruct a as [o|e'].
  - rewrite R3. cbn [negb when]. hwalk.
    destruct (generateDailyLog_spec w (device_name cfg) s3) as (s4 & E4 & T4 & P4).
    eapply wp_run; [exact E4|]; cbn [after]. hwalk.
    split; [reflexivity|]. intros added e Ht Hin. cbn [trace] in Ht.
    rewrite T4, T3, T2, T1, <- !app_assoc in Ht. apply app_inv_head in Ht.
    subst added. exfalso.
    apply in_app_or in Hin as [Hin|Hin]; [apply A1 in Hin; discriminate Hin|].
    apply in_app_or in Hin as [Hin|Hin]; [apply A2 in Hin; congruence|].
    destruct Hin as [Hin|[]]. discriminate Hin.
  - destruct R3 as [R3 R3']. rewrite R3, R3'. cbn [negb when].
    destruct (queuePendingPush_spec w (trim out)
                (error_or_unknown (Some (err_message e'))) s3)
      as (s4 & E4 & T4 & Q4 & Q4' & _).
    pose proof (queuePendingPush_logs w (trim out)
                  (error_or_unknown (Some (err_message e'))) s3) as L4.
    rewrite E4 in L4. cbn [snd] in L4.
    eapply wp_run; [exact E4|]; cbn [after]. hwalk.
    destruct (generateDailyLog_spec w (device_name cfg) s4) as (s5 & E5 & T5 & P5).
    destruct (generateDailyLog_console w (device_name cfg) s4) as [lines L5].
    rewrite E5 in L5. cbn [snd] in L5.
    eapply wp_run; [exact E5|]; cbn [after]. hwalk.
    split; [reflexivity|]. intros added e Ht Hin. cbn [trace pending_file] in *.
    rewrite T5, T4, T3, T2, T1, <- !app_assoc in Ht. apply app_inv_head in Ht.
    subst added.
    assert (e = e').
    { apply in_app_or in Hin as [Hin|Hin]; [apply A1 in Hin; discriminate Hin|].
      apply in_app_or in Hin as [Hin|Hin]; [apply A2 in Hin; congruence|].
      destruct Hin as [Hin|[]]. congruence. }
    subst e'. exists msg, o1, out.
    split; [apply in_or_app; right; apply in_or_app; left; exact Hc|].
    split; [apply in_or_app; right; apply in_or_app; left; exact Hrp|].
    rewrite P5. rewrite P3, P2, P1 in Q4, Q4'. split.
    + intros Hw q Hq. exact (Q4 Hw q Hq).
    + intros Hbad. split; [rewrite Q4' by exact Hbad; congruence|].
      destruct L4 as [failure L4].
      { destruct Hbad as [Hbad|Hbad]; [now left|right]. congruence. }
      exists failure. rewrite L5, L4.
      apply in_or_app. left. apply in_or_app. left.
      apply in_or_app. right. now left.
Qed.

End SessionEndFacts.

(* ================================================================== *)
(** * The session-start hook and the queue *)

Module SessionStartFacts.

Import Host SessionStart Queue.

Section Steps.

Variable w : World.

(** The loop of the drain: one push for each entry below the cap; the
    entries at the cap are kept as they are, a failed entry is kept with
    its count raised by one, a pushed entry is dropped. *)
Lemma retry_loop_spec (pending : list PendingPush) :
  forall (acc : list PendingPush) (s : State),
  exists kept added s',
    retry_loop w pending acc s = (Returned (acc ++ kept), s') /\
    pending_file s' = pending_file s /\
    registry_file s' = registry_file s /\
    trace s' = trace s ++ added /\
    only_pushes added /\
    length added = length (filter (fun p => negb (spent p)) pending) /\
    (forall p, In p pending -> spent p = true -> In p kept) /\
    (forall p', In p' kept ->
       (In p' pending /\ spent p' = true) \/
       exists p msg, In p pending /\ spent p = false /\ p' = retried w p msg).
Proof.
  induction pending as [|push rest IH]; intros acc s.
  - exists [], [], s. cbn. rewrite !app_nil_r.
    repeat split; try tauto. intros c a [].
  - cbn [retry_loop]. fold (spent push). destruct (spent push) eqn:Hsp.
    + unfold bind at 1. unfold log at 1, modify at 1.
      match goal with |- context [retry_loop w rest ?a ?st] =>
        destruct (IH a st) as (kept & added & s' & E & P & R & T & O & L & K1 & K2) end.
      tidy. exists (push :: kept), added, s'.
      rewrite E, <- app_assoc. cbn [filter negb app]. rewrite Hsp. cbn [negb].
      repeat split; auto.
      * intros p [<-|Hin] Hp; [now left|right; auto].
      * intros p' [<-|Hin]; [left; split; [now left|exact Hsp]|].
        destruct (K2 p' Hin) as [[H1 H2]|(p & msg & H1 & H2 & H3)].
        -- left. split; [now right|exact H2].
        -- right. exists p, msg. split; [now right|auto].
    + unfold bind at 1, try_catch at 1, bind at 1, execSync at 1.
      destruct (reply w (length (trace s)) GitPush) as [o|e] eqn:Ea;
        cbn [fst snd]; unfold bind, log, modify, ret; tidy.
      * match goal with |- context [retry_loop w rest ?a ?st] =>
          destruct (IH a st) as (kept & added & s' & E & P & R & T & O & L & K1 & K2) end.
        tidy. exists kept, ((GitPush, Output o) :: added), s'.
        rewrite E. cbn [filter]. rewrite Hsp. cbn [negb length].
        rewrite T, <- app_assoc. repeat split; auto.
        -- intros c a [[= <- _]|Hin]; [reflexivity|eapply O; eauto].
        -- intros p [<-|Hin] Hp; [congruence|auto].
        -- intros p' Hin.
           destruct (K2 p' Hin) as [[H1 H2]|(p & msg & H1 & H2 & H3)].
           ++ left. split; [now right|exact H2].
           ++ right. exists p, msg. split; [now right|auto].
      * match goal with |- context [retry_loop w rest ?a ?st] =>
          destruct (IH a st) as (kept & added & s' & E & P & R & T & O & L & K1 & K2) end.
        tidy. exists (retried w push (err_message e) :: kept),
                ((GitPush, Fails e) :: added), s'.
        rewrite E. cbn [filter]. rewrite Hsp. cbn [negb length].
        rewrite T, <- !app_assoc. repeat split; auto.
        -- intros c a [[= <- _]|Hin]; [reflexivity|eapply O; eauto].
        -- intros p [<-|Hin] Hp; [congruence|right; auto].
        -- intros p' [<-|Hin].
           ++ right. exists push, (err_message e). split; [now left|auto].
           ++ destruct (K2 p' Hin) as [[H1 H2]|(p & msg & H1 & H2 & H3)].
              ** left. split; [now right|exact H2].
              ** right. exists p, msg. split; [now right|auto].
Qed.

Lemma retryPendingPushes_spec (s : State) :
  exists s',
    retryPendingPushes w s = (Returned tt, s') /\
    exists added,
    registry_file s' = registry_file s /\
    trace s' = trace s ++ added /\
    only_pushes added /\
    (forall q, pending_file s = Holds q ->
       length added = length (filter (fun p => negb (spent p)) q) /\
       exists q',
         pending_file s' = Holds q' /\
         (forall p, In p q -> spent p = true -> In p q') /\
         (forall p', In p' q' ->
            In p' q \/
            exists p msg, In p q /\ spent p = false /\ p' = retried w p msg)) /\
    (pending_file s = Absent \/ pending_file s = Garbled ->
     pending_file s' = pending_file s /\ added = []).
Proof.
  apply wp_returned. unfold retryPendingPushes, log. hwalk.
  destruct (pending_file s) as [| |q] eqn:Hq; cbn [file_exists negb parse_file];
    hwalk.
  - split; [reflexivity|]. exists []. rewrite app_nil_r.
    split; [reflexivity|]. split; [reflexivity|].
    split; [intros c a []|]. split; [intros q1 H; discriminate H|auto].
  - split; [reflexivity|]. exists []. rewrite app_nil_r.
    split; [reflexivity|]. split; [reflexivity|].
    split; [intros c a []|]. split; [intros q1 H; discriminate H|auto].
  - destruct q as [|p0 q0]; cbn [length Nat.eqb]; hwalk.
    + split; [reflexivity|]. exists []. rewrite app_nil_r.
      split; [reflexivity|]. split; [reflexivity|].
      split; [intros c a []|]. split; [|intros [H|H]; discriminate H].
      intros q1 [= <-]. split; [reflexivity|].
      exists []. split; [exact Hq|]. split; [auto|intros p' []].
    + match goal with |- wp (retry_loop w ?l ?a) _ ?st =>
        destruct (retry_loop_spec l a st)
          as (kept & added & s' & E & P & R & T & O & L & K1 & K2) end.
      eapply wp_run; [exact E|]. cbn [after]. tidy.
      unfold writing. destruct (disk_writable w); hwalk;
        (split; [reflexivity|]); exists added;
        (split; [exact R|]); (split; [exact T|]); (split; [exact O|]);
        (split; [|intros [H|H]; discriminate H]);
        intros q1 [= <-]; (split; [exact L|]).
      * exists kept. split; [reflexivity|]. split; [exact K1|].
        intros p' Hin. destruct (K2 p' Hin) as [[H1 _]|H1]; auto.
      * exists (p0 :: q0). split; [now rewrite P|]. split; auto.
Qed.

Lemma updateDeviceRegistry_spec (deviceName : text) (s : State) :
  exists s',
    updateDeviceRegistry w deviceName s = (Returned tt, s') /\
    trace s' = trace s /\ pending_file s' = pending_file s.
Proof.
  apply wp_returned. unfold updateDeviceRegistry, log. hwalk.
  destruct (registry_file s) as [| |reg]; cbn [file_exists negb parse_file];
    hwalk; auto.
  destruct (existsb _ _); cbn [negb]; hwalk; auto.
  unfold writing. destruct (disk_writable w); hwalk; auto.
Qed.

Lemma wp_execSync (c : command) (Q : outcome text -> State -> Prop) (s : State) :
  (let a := reply w (length (trace s)) c in
   let s' := {| trace := trace s ++ [(c, a)]; console := console s;
                pending_file := pending_file s;
                registry_file := registry_file s;
                sync_dir_exists := sync_dir_exists s;
                daily_log := daily_log s |} in
   match a with
   | Output out => Q (Returned out) s'
   | Fails e => Q (Thrown e) s'
   end) ->
  wp (execSync w c) Q s.
Proof.
  unfold wp, execSync. cbn zeta.
  destruct (reply w (length (trace s)) c); auto.
Qed.

End Steps.

(** C5. When the pull succeeds and [git status] shows unmerged files,
    the hook warns that manual resolution is required and runs no
    resolver; it then drains the pending-push queue, updates the device
    registry and exits with status 0.  The only commands it runs are
    the pull, the status and the pushes of the drain. *)
Theorem conflicts_are_reported (w : World) (s : State) (cfg : Config)
    (pulled status : text) :
  stdin_json w = true ->
  config_file w = Holds cfg ->
  sync_enabled cfg = true ->
  on_session_start cfg = true ->
  memory_dir_exists w = true ->
  reply w (length (trace s)) GitPullRebase = Output pulled ->
  reply w (length (trace s) + 1) GitStatusShort = Output status ->
  includes (str "UU") status || includes (str "AA") status = true ->
  let r := main w s in
  let warned :=
    {| trace := trace s ++ [(GitPullRebase, Output pulled);
                            (GitStatusShort, Output status)];
       console := console s ++
         [ (info, str "SessionStart event received");
           (info, str "Starting cloud sync...");
           (warn, str "Merge conflicts detected - manual resolution required");
           (warn, str "Conflicts detected - see git status") ];
       pending_file := pending_file s;
       registry_file := registry_file s;
       sync_dir_exists := sync_dir_exists s;
       daily_log := daily_log s |} in
  let drained := snd (retryPendingPushes w warned) in
  let updated :=
    match device_name cfg with
    | [] => drained
    | _ :: _ => snd (updateDeviceRegistry w (device_name cfg) drained)
    end in
  fst r = Exited 0 /\
  snd r = {| trace := trace updated;
             console := console updated ++ [(info, str "SessionStart complete")];
             pending_file := pending_file updated;
             registry_file := registry_file updated;
             sync_dir_exists := sync_dir_exists updated;
             daily_log := daily_log updated |} /\
  exists pushes,
    trace (snd r) = trace warned ++ pushes /\ only_pushes pushes.
Proof.
  intros Hin Hcfg Hen Hst Hdir Hpull Hstatus Hconf r warned drained updated.
  subst r.
  change (wp (main w)
            (fun o s' =>
               o = Exited 0 /\
               s' = {| trace := trace updated;
                       console := console updated ++
                                  [(info, str "SessionStart complete")];
                       pending_file := pending_file updated;
                       registry_file := registry_file updated;
                       sync_dir_exists := sync_dir_exists updated;
                       daily_log := daily_log updated |} /\
               exists pushes,
                 trace s' = trace warned ++ pushes /\ only_pushes pushes) s).
  unfold main, read_event, loadConfig, pullFromCloud, log.
  rewrite Hin, Hcfg. hwalk. cbn iota.
  rewrite Hen, Hst, Hdir. cbn [negb]. hwalk.
  apply wp_execSync. tidy. rewrite Hpull. hwalk.
  apply wp_execSync. tidy. rewrite length_app. cbn [length].
  rewrite Hstatus. hwalk. rewrite Hconf. hwalk.
  cbn [pull_success pull_message negb when].
  hwalk. rewrite <- !app_assoc. cbn [app]. fold warned.
  destruct (retryPendingPushes_spec w warned)
    as (s2 & E2 & pushes & _ & T2 & O2 & _).
  assert (Hd : drained = s2) by (subst drained; now rewrite E2).
  eapply wp_run; [exact E2|]. cbn [after]. hwalk.
  destruct (device_name cfg) as [|c dn] eqn:Hdev; hwalk.
  - subst updated. rewrite Hd.
    split; [reflexivity|]. split; [reflexivity|]. exists pushes. now split.
  - destruct (updateDeviceRegistry_spec w (c :: dn) s2) as (s3 & E3 & T3 & _).
    eapply wp_run; [exact E3|]. cbn [after]. hwalk.
    assert (Hu : updated = s3) by (subst updated; now rewrite Hd, E3).
    rewrite Hu. split; [reflexivity|]. split; [reflexivity|].
    exists pushes. rewrite T3. now split.
Qed.

(** C7. Every stored entry has a retry count between 0 and 3: an
    enqueued entry starts at 0, and one call of the drain pushes once
    for each entry below 3, raising the count of an entry whose push
    fails by one; an entry whose count has reached 3 is still in the
    queue after the drain. *)
Theorem queue_bound :
  (forall f, stored f -> forall q, f = Holds q -> Forall bounded q) /\
  (forall w commitHash errorText,
     retry_count (SessionEnd.new_entry w commitHash errorText) = 0%Z) /\
  (forall w s q,
     pending_file s = Holds q ->
     let s' := snd (retryPendingPushes w s) in
     exists q' added,
       pending_file s' = Holds q' /\
       trace s' = trace s ++ added /\
       only_pushes added /\
       length added = length (filter (fun p => negb (spent p)) q) /\
       length added <= length q /\
       (forall p, In p q -> (3 <= retry_count p)%Z -> In p q') /\
       (forall p', In p' q' ->
          In p' q \/
          exists p, In p q /\ (retry_count p < 3)%Z /\
                    retry_count p' = (retry_count p + 1)%Z /\
                    commit_hash p' = commit_hash p /\
                    timestamp p' = timestamp p)).
Proof.
  assert (drain : forall w s q,
     pending_file s = Holds q ->
     let s' := snd (retryPendingPushes w s) in
     exists q' added,
       pending_file s' = Holds q' /\
       trace s' = trace s ++ added /\
       only_pushes added /\
       length added = length (filter (fun p => negb (spent p)) q) /\
       length added <= length q /\
       (forall p, In p q -> (3 <= retry_count p)%Z -> In p q') /\
       (forall p', In p' q' ->
          In p' q \/
          exists p, In p q /\ (retry_count p < 3)%Z /\
                    retry_count p' = (retry_count p + 1)%Z /\
                    commit_hash p' = commit_hash p /\
                    timestamp p' = timestamp p)).
  { intros w s q Hq s'. subst s'.
    destruct (retryPendingPushes_spec w s)
      as (s' & E & added & _ & T & O & Hh & _).
    rewrite E. cbn [snd].
    destruct (Hh q Hq) as (L & q' & P & K1 & K2).
    exists q', added. repeat split; auto.
    - rewrite L. apply filter_length_le.
    - intros p Hin Hp. apply K1; [exact Hin|].
      unfold spent. now apply Z.leb_le.
    - intros p' Hin. destruct (K2 p' Hin) as [H|(p & msg & H1 & H2 & ->)]; auto.
      right. exists p. unfold spent in H2. apply Z.leb_gt in H2.
      repeat split; auto. }
  split; [|split; [reflexivity|exact drain]].
  intros f Hf. induction Hf as [|w h e s Hs IH|w s Hs IH]; intros q Hq.
  - discriminate Hq.
  - destruct (SessionEndFacts.queuePendingPush_spec w h e s)
      as (s1 & E & _ & _ & _ & [Hsame|(q0 & Hq0 & Hnew)]);
      rewrite E in Hq; cbn [snd] in Hq.
    + apply IH. congruence.
    + rewrite Hnew in Hq. injection Hq as <-.
      apply Forall_app. split.
      * destruct Hq0 as [Hq0|[_ ->]]; [now apply IH|constructor].
      * constructor; [|constructor]. unfold bounded. cbn. lia.
  - destruct (pending_file s) as [| |q0] eqn:Hq0.
    + destruct (retryPendingPushes_spec w s)
        as (s' & E & added & _ & _ & _ & _ & Hbad).
      rewrite E in Hq. cbn [snd] in Hq.
      destruct Hbad as [Hbad _]; [now left|]. congruence.
    + destruct (retryPendingPushes_spec w s)
        as (s' & E & added & _ & _ & _ & _ & Hbad).
      rewrite E in Hq. cbn [snd] in Hq.
      destruct Hbad as [Hbad _]; [now right|]. congruence.
    + destruct (drain w s q0 Hq0) as (q' & added & P & _ & _ & _ & _ & _ & K).
      rewrite P in Hq. injection Hq as <-.
      specialize (IH q0 eq_refl). rewrite Forall_forall in IH.
      apply Forall_forall. intros p' Hin.
      destruct (K p' Hin) as [H|(p & H1 & H2 & H3 & _)]; [now apply IH|].
      specialize (IH p H1). unfold bounded in *. lia.
Qed.

End SessionStartFacts.

(* ================================================================== *)
(** * The hooks on the examples *)

Module HookWitnesses.
Import Host Queue.

Lemma redaction_failure_aborts_witness :
  let r := SessionEnd.main (HookSamples.world_with HookSamples.redaction_fails)
                           HookSamples.fresh_state in
  fst r = Exited 0 /\
  pending_file (snd r) = pending_file HookSamples.fresh_state /\
  exists added,
    trace (snd r) = trace HookSamples.fresh_state ++ added /\
    (forall c a, In (c, a) added -> c = RunRedactionScript) /\
    ~ In GitPush (map fst added) /\
    (forall msg, ~ In (GitCommit msg) (map fst added)).
Proof.
  apply (SessionEndFacts.redaction_failure_aborts
           (HookSamples.world_with HookSamples.redaction_fails)
           HookSamples.fresh_state HookSamples.config_on).
  - reflexivity.
  - reflexivity.
  - reflexivity.
  - intros n. eexists. reflexivity.
Defined.

(** C8, as stated, fails: with a pending-push file that cannot be
    parsed, a commit is created, the push fails, and no record is
    stored. *)
Lemma failed_push_can_be_lost :
  ~ (forall (w : World) (s : State) (added : list (command * answer))
            (e : js_error) (msg o1 : text),
       trace (snd (SessionEnd.main w s)) = trace s ++ added ->
       In (GitCommit msg, Output o1) added ->
       In (GitPush, Fails e) added ->
       exists q p,
         pending_file (snd (SessionEnd.main w s)) = Holds (q ++ [p]) /\
         retry_count p = 0%Z).
Proof.
  intros H.
  destruct (H (HookSamples.world_with HookSamples.push_fails)
              HookSamples.garbled_state
              HookSamples.commands_of_push_failure
              HookSamples.offline
              (SessionEnd.commitMessage (HookSamples.world_with HookSamples.push_fails)
                                        (str "laptop-work"))
              []) as (q & p & Hq & _).
  - reflexivity.
  - cbn. auto.
  - cbn. auto 7.
  - vm_compute in Hq. discriminate Hq.
Qed.

Lemma failed_push_is_queued_witness :
  exists msg o1 out,
    In (GitCommit msg, Output o1) HookSamples.commands_of_push_failure /\
    In (GitRevParseHead, Output out) HookSamples.commands_of_push_failure /\
    pending_file (snd (SessionEnd.main (HookSamples.world_with HookSamples.push_fails)
                                       HookSamples.fresh_state))
    = Holds ([] ++ [ {| timestamp := str "2026-01-10T16:00:00.000Z";
                        commit_hash := trim out;
                        retry_count := 0;
                        error_text :=
                          Some (SessionEnd.error_or_unknown
                                  (Some (err_message HookSamples.offline)));
                        last_retry := None |} ]).
Proof.
  destruct (proj2 (SessionEndFacts.failed_push_is_queued
                     (HookSamples.world_with HookSamples.push_fails)
                     HookSamples.fresh_state)
                  HookSamples.commands_of_push_failure HookSamples.offline)
    as (msg & o1 & out & Hc & Hr & Hq & _).
  - reflexivity.
  - cbn. auto 7.
  - exists msg, o1, out. split; [exact Hc|]. split; [exact Hr|].
    apply Hq; [reflexivity|]. right. split; reflexivity.
Defined.

(** C5, as stated, fails: with an unmerged file reported by
    [git status], the hook runs the pull and the status only, warns,
    and exits; the resolver, which stages the file it resolves, is not
    run on it. *)
Lemma conflicts_are_not_delegated :
  let r := SessionStart.main (HookSamples.world_with HookSamples.pull_conflicts)
                             HookSamples.fresh_state in
  fst r = Exited 0 /\
  map fst (trace (snd r)) = [GitPullRebase; GitStatusShort] /\
  In (warn, str "Merge conflicts detected - manual resolution required")
     (console (snd r)) /\
  ~ In GitDiffUnmerged (map fst (trace (snd r))) /\
  ~ In (GitAdd Samples.notes_path) (map fst (trace (snd r))) /\
  In (GitAdd Samples.notes_path) (Resolver.ran (snd Samples.resolve_notes)).
Proof.
  vm_compute. repeat split; auto; intuition discriminate.
Qed.

Lemma conflicts_are_reported_witness :
  let r := SessionStart.main (HookSamples.world_with HookSamples.pull_conflicts)
                             HookSamples.queued_state in
  fst r = Exited 0 /\
  exists pushes,
    trace (snd r) =
      [(GitPullRebase, Output []); (GitStatusShort, Output (str "UU notes.md"))]
      ++ pushes /\
    only_pushes pushes.
Proof.
  destruct (SessionStartFacts.conflicts_are_reported
              (HookSamples.world_with HookSamples.pull_conflicts)
              HookSamples.queued_state HookSamples.config_on
              [] (str "UU notes.md"))
    as (H1 & _ & H3); try reflexivity.
  exact (conj H1 H3).
Defined.

Lemma queue_bound_witness :
  Forall bounded
    [ SessionEnd.new_entry (HookSamples.world_with HookSamples.push_fails)
                           (str "3f2a9c1e") (str "offline") ] /\
  exists (q' : list PendingPush) (added : list (command * answer)),
    pending_file (snd (SessionStart.retryPendingPushes
                         (HookSamples.world_with HookSamples.push_fails)
                         HookSamples.queued_state)) = Holds q' /\
    length added <= 2 /\
    In (HookSamples.entry "aaaaaaa" 3) q'.
Proof.
  destruct SessionStartFacts.queue_bound as (Hb & _ & Hd). split.
  - apply (Hb (pending_file
                 (snd (SessionEnd.queuePendingPush
                         (HookSamples.world_with HookSamples.push_fails)
                         (str "3f2a9c1e") (str "offline")
                         HookSamples.fresh_state)))).
    + apply stored_enqueue. apply stored_absent.
    + reflexivity.
  - destruct (Hd (HookSamples.world_with HookSamples.push_fails)
                 HookSamples.queued_state
                 [HookSamples.entry "aaaaaaa" 3; HookSamples.entry "bbbbbbb" 1]
                 eq_refl)
      as (q' & added & P & _ & _ & _ & L & K & _).
    exists q', added. split; [exact P|]. split; [exact L|].
    apply K; [now left|]. cbn. lia.
Defined.

End HookWitnesses.

(* ================================================================== *)
(** * Stepping the matcher *)

Module StepFacts.

Lemma first_some_map {A B C : Type} (g : A -> B) (f : B -> option C) (l : list A) :
  first_some f (map g l) = first_some (fun x => f (g x)) l.
Proof.
  induction l as [|x l IH]; simpl; [reflexivity|]. now rewrite IH.
Qed.

Lemma first_some_app {A B : Type} (f : A -> option B) (l1 l2 : list A) :
  (forall x, In x l1 -> f x = None) ->
  first_some f (l1 ++ l2) = first_some f l2.
Proof.
  induction l1 as [|x l1 IH]; intros H; simpl; [reflexivity|].
  rewrite (H x) by (left; reflexivity). apply IH. intros y Hy. apply H. now right.
Qed.

Lemma first_some_head {A B : Type} (f : A -> option B) (x : A) (l : list A) (r : B) :
  f x = Some r -> first_some f (x :: l) = Some r.
Proof. simpl. now intros ->. Qed.

(** The first count at which the rest of the pattern matches is taken. *)
Lemma first_some_seq {B : Type} (f : nat -> option B) (k len : nat) (r : B) :
  k < len ->
  (forall n, n < k -> f n = None) ->
  f k = Some r ->
  first_some f (seq 0 len) = Some r.
Proof.
  intros Hk Hnone Hsome.
  replace len with (k + (len - k)) by lia.
  rewrite seq_app. rewrite first_some_app.
  - destruct (len - k) as [|m] eqn:E; [lia|]. simpl. now rewrite Hsome.
  - intros n Hn. apply in_seq in Hn. apply Hnone. lia.
Qed.

Lemma length_firstn_le (n : nat) (s : text) :
  n <= length s -> length (firstn n s) = n.
Proof. intros H. rewrite length_firstn. lia. Qed.

(** A literal at the head of the subject. *)
Lemma exec_lit (l : text) (re : regex) pieces prev (s : text) :
  exec (Lit l :: re) pieces prev (l ++ s) =
  exec re (pieces ++ [l]) (last_of prev l) s.
Proof.
  cbn [exec candidates]. rewrite starts_with_app. cbn [first_some].
  rewrite skipn_length_app. now destruct (exec re _ _ s).
Qed.

Lemma exec_lit_none (l : text) (re : regex) pieces prev (s : text) :
  starts_with l s = false -> exec (Lit l :: re) pieces prev s = None.
Proof. intros H. cbn [exec candidates]. now rewrite H. Qed.

(** A back-reference to a piece that is at the head of the subject. *)
Lemma exec_back (k : nat) (re : regex) pieces prev (l s : text) :
  nth k pieces [] = l ->
  exec (BackRef k :: re) pieces prev (l ++ s) =
  exec re (pieces ++ [l]) (last_of prev l) s.
Proof.
  intros <-. cbn [exec candidates]. rewrite starts_with_app. cbn [first_some].
  rewrite skipn_length_app. now destruct (exec re _ _ s).
Qed.

Lemma run_length_stop (p : ascii -> bool) (t s : text) :
  forallb p t = true -> run_length p s = 0 -> run_length p (t ++ s) = length t.
Proof.
  intros Ht Hs. induction t as [|c t IH]; simpl; [exact Hs|].
  simpl in Ht. apply andb_true_iff in Ht as [-> Ht]. now rewrite IH.
Qed.

Lemma rev_seq_S (a k : nat) : rev (seq a (S k)) = (a + k) :: rev (seq a k).
Proof. rewrite seq_S, rev_app_distr. reflexivity. Qed.

(** A greedy class takes the whole run when the rest of the pattern
    matches after it. *)
Lemma exec_greedy (p : ascii -> bool) (lo : nat) (re : regex) pieces prev
    (t s : text) (r : list text * text) :
  forallb p t = true -> run_length p s = 0 -> lo <= length t ->
  exec re (pieces ++ [t]) (last_of prev t) s = Some r ->
  exec (Cls p lo None true :: re) pieces prev (t ++ s) = Some r.
Proof.
  intros Ht Hs Hlo H. cbn [exec candidates]. unfold counts. cbn [cap].
  rewrite (run_length_stop p t s Ht Hs).
  replace (S (length t) - lo) with (S (length t - lo)) by lia.
  rewrite rev_seq_S. replace (lo + (length t - lo)) with (length t) by lia.
  cbn [map]. apply first_some_head.
  rewrite firstn_length_app, skipn_length_app. exact H.
Qed.

(** A lazy [any] class stops at the first count at which the rest of the
    pattern matches. *)
Lemma exec_lazy (re : regex) pieces prev (v t : text) (r : list text * text) :
  (forall n, n < length v ->
     exec re (pieces ++ [firstn n (v ++ t)])
          (last_of prev (firstn n (v ++ t))) (skipn n (v ++ t)) = None) ->
  exec re (pieces ++ [v]) (last_of prev v) t = Some r ->
  exec (Cls any_char 0 None false :: re) pieces prev (v ++ t) = Some r.
Proof.
  intros Hnone Hsome. cbn [exec candidates]. unfold counts. cbn [cap].
  rewrite run_length_any, first_some_map, Nat.sub_0_r.
  apply first_some_seq with (k := length v).
  - rewrite length_app. lia.
  - intros n Hn. rewrite length_firstn_le by (rewrite length_app; lia).
    now apply Hnone.
  - rewrite firstn_length_app, skipn_length_app. exact Hsome.
Qed.

(** ** Occurrences of a tag before the place where it is known to be *)

(** An occurrence of [m] that starts inside [v], in [v ++ m ++ rest],
    lies within [v] or overlaps the [m] that follows. *)
Lemma early_occurrence (m v rest a b : text) :
  v = a ++ b -> b <> [] -> starts_with m (b ++ m ++ rest) = true ->
  includes m v = true \/
  exists c, m = b ++ c /\ c <> [] /\ starts_with c (m ++ rest) = true.
Proof.
  intros -> Hb H. apply starts_with_iff in H as [r H].
  apply app_eq_app in H as [l [[H1 H2]|[H1 H2]]].
  - left. apply includes_iff. exists a, l. now rewrite H1.
  - destruct l as [|x l].
    + left. rewrite app_nil_r in H1. subst m. apply includes_iff.
      exists a, []. now rewrite app_nil_r.
    + right. exists (x :: l). split; [exact H1|]. split; [discriminate|].
      apply starts_with_iff. exists r. exact H2.
Qed.

(** A tag whose first code unit does not come back in it cannot
    overlap itself. *)
Lemma no_early_first (h : ascii) (t v rest a b : text) :
  existsb (Ascii.eqb h) t = false ->
  includes (h :: t) v = false ->
  v = a ++ b -> b <> [] ->
  starts_with (h :: t) (b ++ (h :: t) ++ rest) = false.
Proof.
  intros Ht Hv E Hb.
  destruct (starts_with (h :: t) (b ++ (h :: t) ++ rest)) eqn:S; [|reflexivity].
  exfalso.
  destruct (early_occurrence _ _ _ _ _ E Hb S) as [H|(c & Hm & Hc & Hs)];
    [congruence|].
  destruct b as [|y b]; [congruence|].
  destruct c as [|x c]; [congruence|].
  simpl in Hm. injection Hm as <- Hm.
  simpl app in Hs. apply starts_with_head in Hs. subst x.
  assert (Hin : In h t) by (rewrite Hm; apply in_or_app; right; now left).
  assert (existsb (Ascii.eqb h) t = true).
  { apply existsb_exists. exists h. split; [exact Hin|apply Ascii.eqb_refl]. }
  congruence.
Qed.

Lemma starts_with_head_cons (p s : text) (c d : ascii) :
  starts_with (c :: p) (d :: s) = true -> d = c /\ starts_with p s = true.
Proof.
  cbn [starts_with]. intros H. apply andb_true_iff in H as [H1 H2].
  apply Ascii.eqb_eq in H1. split; congruence.
Qed.

(** A prefix of [m ++ rest] shorter than [m] is a prefix of [m]. *)
Lemma starts_with_shorter (c m rest : text) :
  starts_with c (m ++ rest) = true -> length c <= length m ->
  exists d, m = c ++ d.
Proof.
  revert m. induction c as [|x c IH]; intros m H Hl.
  - exists m. reflexivity.
  - destruct m as [|y m]; [simpl in Hl; lia|].
    simpl app in H. apply starts_with_head_cons in H as [-> H].
    simpl in Hl. destruct (IH m H) as [d ->]; [lia|].
    exists d. reflexivity.
Qed.

(** A tag whose last code unit does not occur before cannot overlap
    itself either. *)
Lemma no_early_last (z : ascii) (t v rest a b : text) :
  existsb (Ascii.eqb z) t = false ->
  includes (t ++ [z]) v = false ->
  v = a ++ b -> b <> [] ->
  starts_with (t ++ [z]) (b ++ (t ++ [z]) ++ rest) = false.
Proof.
  intros Ht Hv E Hb.
  destruct (starts_with (t ++ [z]) (b ++ (t ++ [z]) ++ rest)) eqn:S;
    [|reflexivity].
  exfalso.
  destruct (early_occurrence _ _ _ _ _ E Hb S) as [H|(c & Hm & Hc & Hs)];
    [congruence|].
  assert (Hlen : length c <= length t).
  { apply (f_equal (@length ascii)) in Hm. rewrite !length_app in Hm.
    simpl in Hm. destruct b; [congruence|]. simpl in Hm. lia. }
  rewrite <- app_assoc in Hs.
  apply starts_with_shorter in Hs as [d Hd]; [|exact Hlen].
  destruct (exists_last Hc) as (c' & y & ->).
  assert (y = z).
  { rewrite app_assoc in Hm. apply app_inj_tail in Hm as [_ ?]. congruence. }
  subst y.
  assert (Hin : In z t).
  { rewrite Hd. apply in_or_app. left. apply in_or_app. right. now left. }
  assert (existsb (Ascii.eqb z) t = true).
  { apply existsb_exists. exists z. split; [exact Hin|apply Ascii.eqb_refl]. }
  congruence.
Qed.

(** The same, counted from the start of [v]. *)
Lemma skipn_inside (n : nat) (v t : text) :
  n < length v ->
  exists a b, v = a ++ b /\ b <> [] /\ skipn n (v ++ t) = b ++ t /\
              firstn n (v ++ t) = a.
Proof.
  intros Hn. exists (firstn n v), (skipn n v).
  split; [symmetry; apply firstn_skipn|].
  split.
  - intros E. apply (f_equal (@length ascii)) in E.
    rewrite length_skipn in E. simpl in E. lia.
  - split.
    + rewrite skipn_app. replace (n - length v) with 0 by lia. reflexivity.
    + rewrite firstn_app. replace (n - length v) with 0 by lia.
      simpl. apply app_nil_r.
Qed.

End StepFacts.

Import StepFacts.

(* ================================================================== *)
(** * More on redaction *)

Module RedactSpans.

Import Redact RedactFacts.

(** Text without an opening bracket is copied. *)
Lemma redact_plain (w s : text) :
  forallb not_bracket w = true -> redactPII (w ++ s) = w ++ redactPII s.
Proof.
  induction w as [|c w IH]; intros H; [reflexivity|].
  simpl in H. apply andb_true_iff in H as [Hc Hw].
  change ((c :: w) ++ s) with (c :: (w ++ s)).
  rewrite redact_copy; [now rewrite IH|].
  destruct (exec PII_MARKER_PATTERN [] None (c :: w ++ s)) eqn:E; [|reflexivity].
  assert (Hs : starts_with (str "[PII:") (c :: w ++ s) = true)
    by (apply exec_marker_starts with (prev := None); congruence).
  apply (starts_with_head "["%char c (str "PII:") (w ++ s)) in Hs.
  subst c. discriminate Hc.
Qed.

(** The type of a tag ends at its closing bracket. *)
Lemma word_stop (T T' x y : text) :
  forallb is_word T = true -> forallb is_word T' = true ->
  T ++ "]"%char :: x = T' ++ "]"%char :: y -> T = T' /\ x = y.
Proof.
  revert T'. induction T as [|c T IH]; intros [|d T'] HT HT' E; simpl in *.
  - injection E as ->. auto.
  - injection E as <- _. discriminate HT'.
  - injection E as -> _. discriminate HT.
  - injection E as -> E.
    apply andb_true_iff in HT as [_ HT]. apply andb_true_iff in HT' as [_ HT'].
    destruct (IH T' HT HT' E) as [-> ->]. auto.
Qed.

Lemma closing_first_unique (T : text) :
  forallb is_word T = true ->
  existsb (Ascii.eqb "["%char) (closing_tail T) = false.
Proof.
  intros HT. pose proof (closing_tail_plain T HT) as H.
  induction (closing_tail T) as [|c l IH]; [reflexivity|].
  cbn [existsb forallb] in *. apply andb_true_iff in H as [Hc Hl].
  rewrite (IH Hl), orb_false_r.
  unfold not_bracket in Hc. apply negb_true_iff in Hc.
  now rewrite Ascii.eqb_sym.
Qed.

(** The end of the marker pattern matches at a closing tag only. *)
Lemma exec_closing_starts (p0 T : text) (ps : list text) prev (s : text) :
  exec [Lit (str "[/PII:"); BackRef 1; Lit (str "]")] (p0 :: T :: ps) prev s
    <> None ->
  starts_with (closing T) s = true.
Proof.
  intros H.
  destruct (exec _ (p0 :: T :: ps) prev s) as [r|] eqn:E; [clear H|congruence].
  apply exec_cons in E as (q0 & H0 & E).
  apply in_candidates_lit in H0 as [-> S0].
  apply starts_with_iff in S0 as [s1 ->]. rewrite skipn_length_app in E.
  apply exec_cons in E as (q1 & H1 & E).
  apply in_candidates_back in H1 as [-> S1].
  change (nth 1 ((p0 :: T :: ps) ++ [str "[/PII:"]) []) with T in *.
  apply starts_with_iff in S1 as [s2 ->]. rewrite skipn_length_app in E.
  apply exec_cons in E as (q2 & H2 & E).
  apply in_candidates_lit in H2 as [-> S2].
  apply starts_with_iff in S2 as [s3 ->].
  apply starts_with_iff. exists s3. unfold closing. now rewrite <- !app_assoc.
Qed.

(** The match at a marked span whose value holds no closing tag. *)
Lemma exec_marker_span prev (T v rest : text) :
  T <> [] -> forallb is_word T = true ->
  includes (closing T) v = false ->
  exec PII_MARKER_PATTERN [] prev (opening T ++ v ++ closing T ++ rest) =
  Some ([str "[PII:"; T; str "]"; v; str "[/PII:"; T; str "]"], rest).
Proof.
  intros Hne HT Hv. unfold PII_MARKER_PATTERN, opening. rewrite <- !app_assoc.
  rewrite exec_lit.
  apply exec_greedy; [exact HT|reflexivity|destruct T; simpl; [congruence|lia]|].
  rewrite exec_lit.
  apply exec_lazy.
  - intros n Hn.
    destruct (skipn_inside n v (closing T ++ rest) Hn) as (a & b & Ev & Hb & -> & ->).
    match goal with |- ?e = None => destruct e eqn:E; [exfalso|reflexivity] end.
    assert (S : starts_with (closing T) (b ++ closing T ++ rest) = true).
    { cbn [app] in E.
      match type of E with
      | exec _ (?p0 :: _ :: ?ps) ?pv _ = _ =>
          apply (exec_closing_starts p0 T ps pv)
      end.
      intros E'. pose proof (eq_trans (eq_sym E) E') as X. discriminate X. }
    rewrite closing_cons in S, Hv.
    rewrite (no_early_first "["%char (closing_tail T) v rest a b) in S;
      auto using closing_first_unique. discriminate S.
  - unfold closing. rewrite <- !app_assoc.
    rewrite exec_lit, (exec_back 1 _ _ _ T) by reflexivity.
    rewrite exec_lit. reflexivity.
Qed.

(** No match at an opening tag that no closing tag of its type follows. *)
Lemma exec_marker_unclosed prev (T u : text) :
  forallb is_word T = true -> includes (closing T) u = false ->
  exec PII_MARKER_PATTERN [] prev (opening T ++ u) = None.
Proof.
  intros HT Hu.
  destruct (exec PII_MARKER_PATTERN [] prev (opening T ++ u)) as [[ps rest]|] eqn:E;
    [exfalso|reflexivity].
  apply exec_marker_sound in E as (T' & mid & _ & HT' & _ & Hw & Hs).
  rewrite Hw in Hs. unfold opening in Hs. rewrite <- !app_assoc in Hs.
  apply app_inv_head in Hs.
  apply word_stop in Hs as [-> ->]; auto.
  assert (includes (closing T') (mid ++ closing T' ++ rest) = true)
    by (apply includes_iff; eauto).
  congruence.
Qed.

(** X1. A marked span whose value holds no closing tag of its type is
    replaced by the token of its type, value and tags dropped; what
    follows it is redacted in turn. *)
Theorem redactPII_span (T v rest : text) :
  T <> [] -> forallb is_word T = true ->
  includes (closing T) v = false ->
  redactPII (opening T ++ v ++ closing T ++ rest) =
  redacted_token T ++ redactPII rest.
Proof.
  intros Hne HT Hv.
  now rewrite (redact_match _ _ _ (exec_marker_span None T v rest Hne HT Hv)).
Qed.

Lemma redactPII_span_witness :
  redactPII (str "[PII:EMAIL]a@b.co[/PII:EMAIL] ok") = str "[REDACTED:EMAIL] ok".
Proof.
  apply (redactPII_span (str "EMAIL") (str "a@b.co") (str " ok"));
    [discriminate|reflexivity|reflexivity].
Defined.

(** X2. Text without the opening [[PII:] is left as it is. *)
Theorem redactPII_without_marker (s : text) :
  includes (str "[PII:") s = false -> redactPII s = s.
Proof.
  intros H. apply unmatched_fixed. intros a b ->.
  destruct (exec PII_MARKER_PATTERN [] None b) eqn:E; [exfalso|reflexivity].
  assert (Hs : starts_with (str "[PII:") b = true)
    by (apply exec_marker_starts with (prev := None); congruence).
  apply includes_prefix, (includes_app_r _ a) in Hs. congruence.
Qed.

Lemma redactPII_without_marker_witness :
  redactPII (str "[PII] and [REDACTED:EMAIL] stay") =
  str "[PII] and [REDACTED:EMAIL] stay".
Proof.
  apply (redactPII_without_marker (str "[PII] and [REDACTED:EMAIL] stay")).
  reflexivity.
Defined.

(** X3. An opening tag that no closing tag of the same type follows is
    not redacted: the tag and the value after it stay in the text. *)
Theorem redactPII_unclosed (T u : text) :
  forallb is_word T = true -> includes (closing T) u = false ->
  redactPII (opening T ++ u) = opening T ++ redactPII u.
Proof.
  intros HT Hu. rewrite opening_cons.
  change (("["%char :: opening_tail T) ++ u)
    with ("["%char :: (opening_tail T ++ u)).
  rewrite redact_copy.
  - rewrite redact_plain by now apply opening_tail_plain. reflexivity.
  - change ("["%char :: (opening_tail T ++ u)) with (opening T ++ u).
    now apply exec_marker_unclosed.
Qed.

Lemma redactPII_unclosed_witness :
  redactPII (str "[PII:EMAIL]a@b.co[/PII:PHONE]") =
  str "[PII:EMAIL]a@b.co[/PII:PHONE]".
Proof.
  apply (redactPII_unclosed (str "EMAIL") (str "a@b.co[/PII:PHONE]"));
    reflexivity.
Defined.

(** X4. Redaction never makes a text longer. *)
Theorem redactPII_length (s : text) : length (redactPII s) <= length s.
Proof.
  induction s as [s IH] using length_ind.
  destruct s as [|c s]; [reflexivity|].
  destruct (exec PII_MARKER_PATTERN [] None (c :: s)) as [[ps rest]|] eqn:E.
  - rewrite (redact_match _ _ _ E).
    pose proof (match_shorter _ _ _ _ E) as Hlt.
    pose proof (exec_marker_sound _ _ _ _ E) as (T & mid & _ & _ & -> & Hw & Hs).
    specialize (IH rest Hlt). rewrite Hs, Hw.
    unfold redacted_token, opening, closing. rewrite !length_app. simpl. lia.
  - rewrite (redact_copy _ _ E). simpl.
    specialize (IH s (Nat.lt_succ_diag_r _)). lia.
Qed.

End RedactSpans.

(* ================================================================== *)
(** * The quick version *)

Module QuickFacts.

Import RedactScript.

Lemma exec_all_cons it re pieces prev s r :
  exec_all (it :: re) pieces prev s = Some r ->
  exists piece,
    In piece (candidates it pieces prev s) /\
    exec_all re (pieces ++ [piece]) (last_of prev piece)
             (skipn (length piece) s) = Some r.
Proof. simpl. apply first_some_sound. Qed.

Lemma kept_app_skip (l : text) (a b : list text) : kept a b -> kept a (b ++ [l]).
Proof.
  induction 1; simpl; try (constructor; assumption).
  apply kept_skip, kept_nil.
Qed.

Lemma kept_app_take (l : text) (a b : list text) :
  kept a b -> kept (a ++ [l]) (b ++ [l]).
Proof.
  induction 1; simpl; try (constructor; assumption).
  apply kept_take, kept_nil.
Qed.

Lemma kept_In (a b : list text) (x : text) : kept a b -> In x a -> In x b.
Proof.
  induction 1; simpl; intros H'; auto.
  destruct H' as [->|H']; auto.
Qed.

Lemma kept_length (a b : list text) : kept a b -> length a <= length b.
Proof. induction 1; simpl; lia. Qed.

(** A turn of the loop pushes the line or nothing. *)
Lemma step_lines (st : scan) (line : text) :
  quickLines (step st line) = quickLines st \/
  quickLines (step st line) = quickLines st ++ [line].
Proof.
  unfold step.
  destruct (exec_all headerPattern [] None line) as [m|].
  - destruct (has (fullHeader m)); [now right|].
    destruct (_ <=? _); now left.
  - destruct (inIncludedSection st); [|now left].
    destruct (negb (blank line) || last_not_blank (quickLines st));
      [now right|now left].
Qed.

Lemma fold_kept (lines : list text) : forall (st : scan) (seen : list text),
  kept (quickLines st) seen ->
  kept (quickLines (fold_left step lines st)) (seen ++ lines).
Proof.
  induction lines as [|l lines IH]; intros st seen H; simpl.
  - now rewrite app_nil_r.
  - replace (seen ++ l :: lines) with ((seen ++ [l]) ++ lines)
      by now rewrite <- app_assoc.
    apply IH. destruct (step_lines st l) as [-> | ->].
    + now apply kept_app_skip.
    + now apply kept_app_take.
Qed.

Lemma scan_kept (lines : list text) : kept (quickLines (scan_lines lines)) lines.
Proof. apply (fold_kept lines start []). constructor. Qed.

(** The lines pushed so far stay where they are. *)
Lemma fold_extends (lines : list text) : forall st : scan,
  exists pushed, quickLines (fold_left step lines st) = quickLines st ++ pushed.
Proof.
  induction lines as [|l lines IH]; intros st; simpl.
  - exists []. now rewrite app_nil_r.
  - destruct (IH (step st l)) as [pushed ->].
    destruct (step_lines st l) as [-> | ->]; eauto.
    rewrite <- app_assoc. eauto.
Qed.

Lemma step_opened (st : scan) (line : text) : opened st -> opened (step st line).
Proof.
  intros [H1 H2]. unfold step, opened.
  destruct (exec_all headerPattern [] None line) as [m|] eqn:E.
  - destruct (has (fullHeader m)) eqn:Hh; cbn [inIncludedSection quickLines].
    + split; [intros _; now destruct (quickLines st)|].
      intros l rest. destruct (quickLines st) as [|l0 q] eqn:Q; simpl.
      * intros [= <- _]. unfold opens_section. now rewrite E.
      * intros [= <- _]. eapply H2; reflexivity.
    + destruct (_ <=? _); cbn [inIncludedSection quickLines]; split; auto.
      discriminate.
  - destruct (inIncludedSection st) eqn:I; [|split; auto; congruence].
    destruct (negb (blank line) || last_not_blank (quickLines st));
      cbn [inIncludedSection quickLines]; [|split; auto; congruence].
    split; [intros _; now destruct (quickLines st)|].
    intros l rest. specialize (H1 eq_refl).
    destruct (quickLines st) as [|l0 q] eqn:Q; [congruence|]. simpl.
    intros [= <- _]. eapply H2; reflexivity.
Qed.

Lemma fold_opened (lines : list text) : forall st : scan,
  opened st -> opened (fold_left step lines st).
Proof.
  induction lines as [|l lines IH]; intros st H; simpl; auto using step_opened.
Qed.

Lemma scan_opened (lines : list text) : opened (scan_lines lines).
Proof. apply fold_opened. split; [discriminate|]. intros l rest. discriminate. Qed.

(** A header line begins with a hash sign, so that it is not blank. *)
Lemma header_starts (line : text) :
  is_header line = true -> exists s, line = "#"%char :: s.
Proof.
  unfold is_header.
  destruct (exec_all headerPattern [] None line) as [m|] eqn:E; [intros _|discriminate].
  apply exec_all_cons in E as (q & Hq & _).
  apply in_candidates_cls in Hq as (n & _ & Hlo & Hn).
  destruct line as [|c s]; [simpl in Hn; lia|].
  simpl in Hn. destruct (is_hash c) eqn:Hc; [|simpl in Hn; lia].
  apply Ascii.eqb_eq in Hc. subst c. eauto.
Qed.

Lemma drop_while_last (p : ascii -> bool) (s : text) (c : ascii) :
  p c = false -> drop_while p (s ++ [c]) <> [].
Proof.
  intros Hc. induction s as [|d s IH]; simpl.
  - rewrite Hc. discriminate.
  - destruct (p d); [exact IH|discriminate].
Qed.

Lemma header_not_blank (line : text) : is_header line = true -> blank line = false.
Proof.
  intros H. apply header_starts in H as [s ->].
  unfold blank, trim. cbn [drop_while]. change (is_space "#") with false.
  cbn iota. cbn [rev].
  destruct (drop_while is_space (rev s ++ ["#"%char])) as [|c t] eqn:E.
  - now apply drop_while_last in E.
  - destruct (rev (c :: t)) eqn:R; [|reflexivity].
    apply (f_equal (@length ascii)) in R. rewrite length_rev in R. discriminate R.
Qed.

Lemma opens_is_header (line : text) : opens_section line = true -> is_header line = true.
Proof.
  unfold opens_section, is_header.
  now destruct (exec_all headerPattern [] None line).
Qed.

(** The header of an included section is pushed, whatever came before. *)
Lemma step_opens (st : scan) (h : text) :
  opens_section h = true ->
  inIncludedSection (step st h) = true /\
  quickLines (step st h) = quickLines st ++ [h].
Proof.
  unfold opens_section, step.
  destruct (exec_all headerPattern [] None h) as [m|]; [|discriminate].
  intros ->. auto.
Qed.

Lemma last_not_blank_app (q : list text) (l : text) :
  last_not_blank (q ++ [l]) = negb (blank l).
Proof. unfold last_not_blank. now rewrite rev_app_distr. Qed.

(** Inside an included section, text without headers and without two
    blank lines in a row is pushed line by line. *)
Lemma fold_block (block : list text) : forall st : scan,
  inIncludedSection st = true ->
  forallb (fun l => negb (is_header l)) block = true ->
  single_blanks (negb (last_not_blank (quickLines st))) block = true ->
  inIncludedSection (fold_left step block st) = true /\
  quickLines (fold_left step block st) = quickLines st ++ block.
Proof.
  induction block as [|l block IH]; intros st Hin Hh Hb; simpl.
  - now rewrite app_nil_r.
  - simpl in Hh, Hb. apply andb_true_iff in Hh as [Hl Hh].
    apply andb_true_iff in Hb as [Hb1 Hb].
    assert (E : step st l =
                {| inIncludedSection := true; headerLevel := headerLevel st;
                   quickLines := quickLines st ++ [l] |}).
    { unfold step. unfold is_header in Hl.
      destruct (exec_all headerPattern [] None l); [discriminate Hl|].
      rewrite Hin.
      destruct (blank l); simpl in *.
      - rewrite andb_true_r in Hb1. rewrite negb_involutive in Hb1.
        now rewrite Hb1.
      - reflexivity. }
    rewrite E.
    destruct (IH {| inIncludedSection := true; headerLevel := headerLevel st;
                    quickLines := quickLines st ++ [l] |}) as [I Q]; auto.
    + cbn [quickLines]. now rewrite last_not_blank_app, negb_involutive.
    + split; [exact I|]. rewrite Q. cbn [quickLines]. now rewrite <- app_assoc.
Qed.

(** A line of a joined list is part of the text. *)
Lemma join_lines_holds (a b : list text) (l : text) :
  exists P Q, join_lines (a ++ l :: b) = P ++ l ++ Q.
Proof.
  induction a as [|x a IH].
  - exists []. destruct b as [|y b]; simpl.
    + exists []. now rewrite app_nil_r.
    + eexists. reflexivity.
  - destruct IH as (P & Q & E).
    exists (x ++ [newline] ++ P), Q.
    change ((x :: a) ++ l :: b) with (x :: (a ++ l :: b)).
    destruct (a ++ l :: b) as [|y r] eqn:Er.
    + now destruct a.
    + cbn [join_lines]. cbn [join_lines] in E. rewrite E.
      now rewrite <- !app_assoc.
Qed.

Section Quick.

Variable percent : nat -> nat -> text.
Variable now : text.

(** The time of generation is part of the quick version. *)
Lemma footer_holds_time (body : list text) (last : text) :
  exists P Q, join_lines ((body ++ footer now) ++ [last]) = P ++ now ++ Q.
Proof.
  assert (E : (body ++ footer now) ++ [last] =
              (body ++ [[]; str "---"; []]) ++
              (str "**Quick version generated**: " ++ now) :: [last])
    by (unfold footer; rewrite <- !app_assoc; reflexivity).
  rewrite E.
  destruct (join_lines_holds (body ++ [[]; str "---"; []]) [last]
              (str "**Quick version generated**: " ++ now)) as (P & Q & E2).
  exists (P ++ str "**Quick version generated**: "), Q.
  etransitivity; [exact E2|]. now rewrite <- !app_assoc.
Qed.

Lemma quick_version_holds_time (content : text) :
  exists P Q, generateQuickVersion percent now content = P ++ now ++ Q.
Proof. unfold generateQuickVersion. cbv zeta. apply footer_holds_time. Qed.

(** X5. Before its five closing lines, the quick version holds lines of
    the content only, in the order of the content: nothing is added and
    nothing is moved. *)
Theorem quick_version_keeps_lines (content : text) :
  exists body,
    generateQuickVersion percent now content =
      join_lines (body ++ footer now ++
                  [reduction_line percent now body (split newline content)]) /\
    kept body (split newline content) /\
    length body <= length (split newline content).
Proof.
  exists (quickLines (scan_lines (split newline content))).
  split; [|split].
  - unfold generateQuickVersion, reduction_line. cbv zeta.
    now rewrite <- app_assoc.
  - apply scan_kept.
  - apply kept_length, scan_kept.
Qed.

(** X6. What the quick version keeps starts with the header of an
    included section: if no line of the content is such a header, the
    quick version is its five closing lines. *)
Theorem quick_version_without_sections (content : text) :
  (forall l, In l (split newline content) -> opens_section l = false) ->
  generateQuickVersion percent now content =
  join_lines (footer now ++ [reduction_line percent now [] (split newline content)]).
Proof.
  intros H. unfold generateQuickVersion, reduction_line. cbv zeta.
  destruct (quickLines (scan_lines (split newline content))) as [|l rest] eqn:E;
    [reflexivity|].
  exfalso. pose proof (scan_opened (split newline content)) as [_ Ho].
  specialize (Ho l rest E).
  rewrite (H l) in Ho; [discriminate|].
  apply (kept_In _ _ l (scan_kept (split newline content))).
  rewrite E. now left.
Qed.

(** X7. The header of an included section and the text below it, up to
    the next header, are kept as they are when the text has no two
    blank lines in a row. *)
Theorem quick_version_keeps_section (content h : text)
    (pre block post : list text) :
  split newline content = pre ++ h :: block ++ post ->
  opens_section h = true ->
  forallb (fun l => negb (is_header l)) block = true ->
  single_blanks false block = true ->
  exists before after,
    generateQuickVersion percent now content =
    join_lines (before ++ h :: block ++ after) /\
    kept before pre.
Proof.
  intros Hs Hh Hb Hsb.
  unfold generateQuickVersion. cbv zeta. rewrite Hs.
  unfold scan_lines. rewrite fold_left_app. cbn [fold_left].
  rewrite fold_left_app.
  set (st0 := fold_left step pre start).
  destruct (step_opens st0 h Hh) as [I1 Q1].
  destruct (fold_block block (step st0 h) I1 Hb) as [I2 Q2].
  { rewrite Q1, last_not_blank_app, negb_involutive.
    now rewrite (header_not_blank h (opens_is_header h Hh)). }
  destruct (fold_extends post (fold_left step block (step st0 h))) as [pushed Q3].
  exists (quickLines st0). eexists. split.
  - rewrite Q3, Q2, Q1. rewrite <- !app_assoc. cbn [app]. reflexivity.
  - apply scan_kept.
Qed.

End Quick.

Lemma quick_version_without_sections_witness :
  generateQuickVersion (fun _ _ => str "0") (str "2026-01-10T16:00:00.000Z")
    (str "intro" ++ [newline] ++ str "## Other" ++ [newline] ++ str "zzz") =
  join_lines [ []; str "---"; [];
               str "**Quick version generated**: 2026-01-10T16:00:00.000Z";
               str "**Token reduction**: ~0%" ].
Proof.
  apply (quick_version_without_sections (fun _ _ => str "0")
           (str "2026-01-10T16:00:00.000Z")
           (str "intro" ++ [newline] ++ str "## Other" ++ [newline] ++ str "zzz")).
  intros l H. vm_compute in H.
  destruct H as [<-|[<-|[<-|[]]]]; reflexivity.
Defined.

Lemma quick_version_keeps_section_witness :
  exists before after,
    generateQuickVersion (fun _ _ => str "0") (str "2026-01-10T16:00:00.000Z")
      (str "intro" ++ [newline] ++ str "## User Profile" ++ [newline] ++
       str "name: x" ++ [newline] ++ [newline] ++ str "more" ++ [newline] ++
       str "## Other") =
    join_lines (before ++ str "## User Profile" ::
                [str "name: x"; []; str "more"] ++ after) /\
    kept before [str "intro"].
Proof.
  apply (quick_version_keeps_section (fun _ _ => str "0")
           (str "2026-01-10T16:00:00.000Z") _ (str "## User Profile")
           [str "intro"] [str "name: x"; []; str "more"] [str "## Other"]);
    reflexivity.
Defined.

End QuickFacts.

(* ================================================================== *)
(** * Suffixes of paths *)

Module SuffixFacts.

Lemma ends_with_app (p a : text) : ends_with p (a ++ p) = true.
Proof. unfold ends_with. rewrite rev_app_distr. apply starts_with_app. Qed.

Lemma ends_with_iff (p s : text) :
  ends_with p s = true <-> exists a, s = a ++ p.
Proof.
  split.
  - unfold ends_with. intros H. apply starts_with_iff in H as [r H].
    exists (rev r). apply (f_equal (@rev ascii)) in H.
    now rewrite rev_involutive, rev_app_distr, rev_involutive in H.
  - intros [a ->]. apply ends_with_app.
Qed.

Lemma starts_with_app_long (P Q A : text) :
  starts_with P (Q ++ A) = true -> length Q <= length P ->
  starts_with Q P = true.
Proof.
  revert P. induction Q as [|c Q IH]; intros P H Hl; [reflexivity|].
  destruct P as [|d P]; [simpl in Hl; lia|].
  simpl app in H. apply starts_with_head_cons in H as [-> H].
  cbn [starts_with]. rewrite Ascii.eqb_refl. simpl in Hl.
  apply IH; [exact H|lia].
Qed.

Lemma starts_with_app_short (P Q A : text) :
  starts_with P (Q ++ A) = true -> length P <= length Q ->
  starts_with P Q = true.
Proof.
  revert Q. induction P as [|c P IH]; intros Q H Hl; [reflexivity|].
  destruct Q as [|d Q]; [simpl in Hl; lia|].
  simpl app in H. apply starts_with_head_cons in H as [-> H].
  cbn [starts_with]. rewrite Ascii.eqb_refl. simpl in Hl.
  apply IH; [exact H|lia].
Qed.

(** Of two suffixes of a text, the shorter is a suffix of the longer. *)
Lemma ends_with_both (p q a : text) :
  ends_with p (a ++ q) = true -> length q <= length p -> ends_with q p = true.
Proof.
  unfold ends_with. rewrite rev_app_distr. intros H Hl.
  apply starts_with_app_long in H; [exact H|]. now rewrite !length_rev.
Qed.

Lemma ends_with_inner (p q a : text) :
  ends_with p (a ++ q) = true -> length p <= length q -> ends_with p q = true.
Proof.
  unfold ends_with. rewrite rev_app_distr. intros H Hl.
  apply starts_with_app_short in H; [exact H|]. now rewrite !length_rev.
Qed.

Lemma ends_with_trans (p q s : text) :
  ends_with p q = true -> ends_with q s = true -> ends_with p s = true.
Proof.
  intros H1 H2. apply ends_with_iff in H1 as [a ->].
  apply ends_with_iff in H2 as [b ->]. apply ends_with_iff.
  exists (b ++ a). now rewrite app_assoc.
Qed.

End SuffixFacts.

Import SuffixFacts.


(* ================================================================== *)
(** * Walks of the memory directory *)

Module TreeFacts.

Import PrePush.

Lemma node_induction (P : node -> Prop) :
  (forall e c, P (File e c)) ->
  (forall e sub, Forall P sub -> P (Dir e sub)) ->
  (forall e, P (Locked e)) ->
  (forall e, P (Special e)) ->
  (forall e, P (Broken e)) ->
  forall n, P n.
Proof.
  intros HF HD HL HS HB. fix IH 1.
  intros [e c|e sub|e|e|e]; [apply HF| |apply HL|apply HS|apply HB].
  apply HD. revert sub. fix IHs 1.
  intros [|n sub]; constructor; [apply IH|apply IHs].
Qed.

(** What every turn of the loop keeps, the loop keeps. *)
Lemma loop_entries_keeps (Q : list text -> Prop)
    (body : node -> list text -> list text * bool) (entries : list node) :
  Forall (fun n => forall files, Q files -> Q (fst (body n files))) entries ->
  forall files, Q files -> Q (loop_entries body entries files).
Proof.
  induction 1 as [|n entries Hn _ IH]; intros files HQ; simpl; [exact HQ|].
  specialize (Hn files HQ). destruct (body n files) as [files' go_on].
  destruct go_on; auto.
Qed.

Lemma Forall_snoc (p : text -> Prop) (l : list text) (x : text) :
  Forall p l -> p x -> Forall p (l ++ [x]).
Proof. intros Hl Hx. apply Forall_app. auto. Qed.

(** The walk of the gate pushes derived artifacts only. *)
Lemma gate_visit_derived (n : node) : forall (dir : text) (files : list text),
  Forall (fun f => is_derived_artifact f = true) files ->
  Forall (fun f => is_derived_artifact f = true) (fst (visit dir n files)).
Proof.
  induction n as [e c|e sub IH| | | ] using node_induction;
    intros dir files H; cbn [visit fst]; auto.
  - destruct (is_derived_artifact (join dir e)) eqn:E; [|exact H].
    now apply Forall_snoc.
  - destruct (text_eqb e (str ".git")); [exact H|]. cbn [fst].
    apply loop_entries_keeps; [|exact H].
    eapply Forall_impl; [|exact IH]. intros n Hn fs. apply Hn.
Qed.

(** The walk of the redaction script pushes sources only. *)
Lemma script_visit_sources (n : node) : forall (dir : text) (found : list text),
  Forall (fun f => RedactScript.is_source f = true) found ->
  Forall (fun f => RedactScript.is_source f = true)
         (fst (RedactScript.visit dir n found)).
Proof.
  induction n as [e c|e sub IH| | | ] using node_induction;
    intros dir found H; cbn [RedactScript.visit fst]; auto.
  - destruct (RedactScript.is_source (join dir e)) eqn:E; [|exact H].
    now apply Forall_snoc.
  - destruct (text_eqb e (str ".git")); [exact H|]. cbn [fst].
    apply loop_entries_keeps; [|exact H].
    eapply Forall_impl; [|exact IH]. intros n Hn fs. apply Hn.
Qed.

Lemma getFilesToCheck_derived (M : text) (root : list node) :
  Forall (fun f => is_derived_artifact f = true) (getFilesToCheck M root).
Proof.
  unfold getFilesToCheck, walk. apply loop_entries_keeps; [|constructor].
  apply Forall_forall. intros n _ files. apply gate_visit_derived.
Qed.

Lemma findMarkdownFiles_sources (M : text) (root : list node) :
  Forall (fun f => RedactScript.is_source f = true)
         (RedactScript.findMarkdownFiles M root).
Proof.
  unfold RedactScript.findMarkdownFiles. apply loop_entries_keeps; [|constructor].
  apply Forall_forall. intros n _ files. apply script_visit_sources.
Qed.

End TreeFacts.

Import TreeFacts.

(* ================================================================== *)
(** * The redaction script *)

Module RedactScriptFacts.

Import RedactScript.

Lemma source_not_derived (f : text) :
  is_source f = true -> PrePush.is_derived_artifact f = false.
Proof.
  unfold is_source, PrePush.is_derived_artifact. intros H.
  apply andb_true_iff in H as [H Hq]. apply andb_true_iff in H as [_ Hs].
  apply negb_true_iff in Hs, Hq. now rewrite Hs, Hq.
Qed.

(** The path of an artifact of a file that ends in [.md]. *)
Lemma with_suffix_md (suffix f : text) :
  ends_with (str ".md") f = true ->
  exists stem, f = stem ++ str ".md" /\ with_suffix suffix f = stem ++ suffix.
Proof.
  intros H. unfold with_suffix. rewrite H.
  apply ends_with_iff in H as [stem ->]. exists stem. split; [reflexivity|].
  rewrite length_app. change (length (str ".md")) with 3.
  replace (length stem + 3 - 3) with (length stem) by lia.
  now rewrite firstn_length_app.
Qed.

Lemma safe_is_derived (f : text) :
  ends_with (str ".md") f = true ->
  PrePush.is_derived_artifact (with_suffix (str ".safe.md") f) = true.
Proof.
  intros H. destruct (with_suffix_md (str ".safe.md") f H) as (stem & _ & ->).
  unfold PrePush.is_derived_artifact. now rewrite ends_with_app.
Qed.

Lemma quick_is_derived (f : text) :
  ends_with (str ".md") f = true ->
  PrePush.is_derived_artifact (with_suffix (str ".quick.md") f) = true.
Proof.
  intros H. destruct (with_suffix_md (str ".quick.md") f H) as (stem & _ & ->).
  unfold PrePush.is_derived_artifact. rewrite (ends_with_app (str ".quick.md")).
  apply orb_true_r.
Qed.

Lemma safe_not_quick (f g : text) :
  ends_with (str ".md") f = true -> ends_with (str ".md") g = true ->
  with_suffix (str ".safe.md") f <> with_suffix (str ".quick.md") g.
Proof.
  intros Hf Hg E.
  destruct (with_suffix_md (str ".safe.md") f Hf) as (a & _ & Ea).
  destruct (with_suffix_md (str ".quick.md") g Hg) as (b & _ & Eb).
  rewrite Ea, Eb in E.
  assert (H : ends_with (str ".quick.md") (a ++ str ".safe.md") = true)
    by (rewrite E; apply ends_with_app).
  apply ends_with_both in H; [discriminate H|simpl; lia].
Qed.

Lemma safe_injective (f g : text) :
  ends_with (str ".md") f = true -> ends_with (str ".md") g = true ->
  with_suffix (str ".safe.md") f = with_suffix (str ".safe.md") g -> f = g.
Proof.
  intros Hf Hg E.
  destruct (with_suffix_md (str ".safe.md") f Hf) as (a & -> & Ea).
  destruct (with_suffix_md (str ".safe.md") g Hg) as (b & -> & Eb).
  rewrite Ea, Eb in E. apply app_inv_tail in E. now subst.
Qed.

Lemma source_md (f : text) : is_source f = true -> ends_with (str ".md") f = true.
Proof.
  unfold is_source. intros H. apply andb_true_iff in H as [H _].
  now apply andb_true_iff in H as [H _].
Qed.

Section Script.

Variable MEMORY_DIR : text.
Variable memory_dir_exists : bool.
Variable root : list PrePush.node.
Variable now_at : nat -> text.
Variable percent : nat -> nat -> text.
Variable writable : text -> bool.

Local Abbreviation processFile := (processFile now_at percent writable).
Local Abbreviation process_each := (process_each now_at percent writable).
Local Abbreviation main :=
  (main MEMORY_DIR memory_dir_exists root now_at percent writable).
Local Abbreviation safe := (with_suffix (str ".safe.md")).
Local Abbreviation quick := (with_suffix (str ".quick.md")).

Ltac run_file :=
  cbv [RedactScript.processFile try_catch bind log modify readFileSync
       writeFileSync gets when ret throw];
  cbv beta iota zeta.

(** What [processFile] leaves in each file. *)
Lemma processFile_files (g : text) (s : Store) :
  exists s1,
    processFile g s = (Returned tt, s1) /\
    (forall q, q <> safe g -> q <> quick g -> files s1 q = files s q) /\
    (files s g = None \/ writable (safe g) = false -> files s1 = files s) /\
    (forall q,
       files s1 q = files s q \/
       exists c,
         files s g = Some c /\
         ((q = safe g /\ files s1 q = Some (Redact.redactPII c)) \/
          (q = quick g /\
           exists now, files s1 q =
                       Some (generateQuickVersion percent now (Redact.redactPII c))))) /\
    (forall c, files s g = Some c -> writable (safe g) = true ->
               safe g <> quick g ->
               files s1 (safe g) = Some (Redact.redactPII c)) /\
    (forall c, files s g = Some c -> writable (safe g) = true ->
               writable (quick g) = true ->
               exists now, files s1 (quick g) =
                           Some (generateQuickVersion percent now (Redact.redactPII c))).
Proof.
  run_file. cbn [files console].
  destruct (files s g) as [c|] eqn:Eg.
  2:{ eexists. split; [reflexivity|]. cbn [files].
      repeat split; auto; try discriminate. }
  destruct (writable (safe g)) eqn:Ws.
  2:{ eexists. split; [reflexivity|]. cbn [files].
      repeat split; auto; try discriminate. }
  cbn [files console].
  destruct (writable (quick g)) eqn:Wq.
  2:{ eexists. split; [reflexivity|]. cbn [files].
      split; [|split; [|split; [|split]]].
      - intros q H1 _. now rewrite text_eqb_neq.
      - intros [H|H]; discriminate H.
      - intros q. destruct (text_eqb q (safe g)) eqn:E; [|now left].
        apply text_eqb_eq in E. right. exists c. split; [reflexivity|]. left. auto.
      - intros c' [= <-] _ _. now rewrite text_eqb_refl.
      - discriminate. }
  cbn [files console].
  match goal with
  | |- context [if ?b then _ else _] => destruct b
  end.
  all: eexists; (split; [reflexivity|]); cbn [files].
  all: split; [|split; [|split; [|split]]].
  all: try (intros q H1 H2; now rewrite !text_eqb_neq).
  all: try (intros [H|H]; discriminate H).
  all: try (intros q; destruct (text_eqb q (quick g)) eqn:E2;
            [apply text_eqb_eq in E2; right; exists c; split; [reflexivity|];
             right; split; [exact E2|]; eexists; reflexivity|];
            destruct (text_eqb q (safe g)) eqn:E1; [|now left];
            apply text_eqb_eq in E1; right; exists c; split; [reflexivity|];
            left; auto).
  all: try (intros c' [= <-] _ Hne; rewrite text_eqb_neq by exact Hne;
            now rewrite text_eqb_refl).
  all: intros c' [= <-] _ _; rewrite text_eqb_refl; eexists; reflexivity.
Qed.


(** X8. A source is processed into its two artifacts: for a file that
    ends in [.md] and is no artifact, [processFile] returns, the
    [.safe.md] beside it holds the redacted content, the [.quick.md] the
    quick version of the redacted content, and no other file changes,
    the source included. *)
Theorem processFile_writes_artifacts (f c : text) (s : Store) :
  is_source f = true ->
  files s f = Some c ->
  writable (safe f) = true -> writable (quick f) = true ->
  let r := processFile f s in
  fst r = Returned tt /\
  files (snd r) (safe f) = Some (Redact.redactPII c) /\
  (exists now,
     files (snd r) (quick f) =
     Some (generateQuickVersion percent now (Redact.redactPII c))) /\
  files (snd r) f = Some c /\
  (forall q, q <> safe f -> q <> quick f -> files (snd r) q = files s q).
Proof.
  intros Hsrc Hc Ws Wq r. subst r.
  destruct (processFile_files f s) as (s1 & -> & Hframe & _ & _ & Hsafe & Hquick).
  cbn [fst snd]. pose proof (source_md f Hsrc) as Hmd.
  pose proof (source_not_derived f Hsrc) as Hnd.
  split; [reflexivity|]. split; [|split; [|split]].
  - apply Hsafe; auto. now apply safe_not_quick.
  - now apply Hquick.
  - rewrite Hframe; [exact Hc| |]; intros E.
    + pose proof (safe_is_derived f Hmd) as D. rewrite <- E in D. congruence.
    + pose proof (quick_is_derived f Hmd) as D. rewrite <- E in D. congruence.
  - exact Hframe.
Qed.

(** X9. [processFile] never throws: when the file cannot be read, or
    its [.safe.md] cannot be written, the error is logged and no file
    changes. *)
Theorem processFile_failure (f : text) (s : Store) :
  files s f = None \/ writable (safe f) = false ->
  let r := processFile f s in
  fst r = Returned tt /\ files (snd r) = files s /\
  exists lines, console (snd r) = console s ++ lines.
Proof.
  intros H r. subst r.
  destruct (processFile_files f s) as (s1 & E & _ & Hsame & _).
  rewrite E. cbn [fst snd]. split; [reflexivity|]. split; [now apply Hsame|].
  revert E. run_file. cbn [files console].
  destruct (files s f) as [c|].
  - destruct H as [H|H]; [discriminate H|]. rewrite H.
    intros [= <-]. cbn [console]. rewrite <- app_assoc. eauto.
  - intros [= <-]. cbn [console]. rewrite <- app_assoc. eauto.
Qed.

(** X10. Given a path that does not end in [.md], [processFile] writes
    over the file itself: the path of both artifacts is the path given,
    and the file ends up holding the quick version. *)
Theorem processFile_overwrites_other_files (f c : text) (s : Store) :
  ends_with (str ".md") f = false ->
  files s f = Some c ->
  writable f = true ->
  let r := processFile f s in
  safe f = f /\ quick f = f /\
  exists now,
    files (snd r) f = Some (generateQuickVersion percent now (Redact.redactPII c)).
Proof.
  intros Hmd Hc W r. subst r.
  assert (Es : safe f = f) by (unfold with_suffix; now rewrite Hmd).
  assert (Eq : quick f = f) by (unfold with_suffix; now rewrite Hmd).
  split; [exact Es|]. split; [exact Eq|].
  destruct (processFile_files f s) as (s1 & -> & _ & _ & _ & _ & Hquick).
  cbn [snd]. destruct (Hquick c Hc) as [now Hn]; [congruence|congruence|].
  rewrite Eq in Hn. eauto.
Qed.

(** The loop of [main] over sources. *)
Lemma process_each_spec (found : list text) : forall s : Store,
  Forall (fun f => is_source f = true) found ->
  exists s',
    process_each found s = (Returned tt, s') /\
    (forall q, PrePush.is_derived_artifact q = false -> files s' q = files s q) /\
    (forall f c,
       is_source f = true -> files s f = Some c -> writable (safe f) = true ->
       In f found \/ files s (safe f) = Some (Redact.redactPII c) ->
       files s' (safe f) = Some (Redact.redactPII c)).
Proof.
  induction found as [|g rest IH]; intros s Hall.
  - exists s. split; [reflexivity|]. split; [reflexivity|].
    intros f c _ _ _ [[]|H]. exact H.
  - apply Forall_cons_iff in Hall as [Hg Hrest].
    pose proof (source_md g Hg) as Hgmd.
    destruct (processFile_files g s) as (s1 & E1 & Hframe & _ & Hcases & Hsafe & _).
    destruct (IH s1 Hrest) as (s' & E2 & Hframe' & Hkeep).
    exists s'. split; [|split].
    + cbn [RedactScript.process_each]. unfold bind. now rewrite E1.
    + intros q Hq. rewrite Hframe' by exact Hq. apply Hframe; intros ->.
      * now rewrite (safe_is_derived g Hgmd) in Hq.
      * now rewrite (quick_is_derived g Hgmd) in Hq.
    + intros f c Hf Hc W Hin.
      pose proof (source_md f Hf) as Hfmd.
      assert (Hc1 : files s1 f = Some c).
      { rewrite Hframe; [exact Hc| |]; intros E.
        - pose proof (safe_is_derived g Hgmd) as D. rewrite <- E in D.
          now rewrite (source_not_derived f Hf) in D.
        - pose proof (quick_is_derived g Hgmd) as D. rewrite <- E in D.
          now rewrite (source_not_derived f Hf) in D. }
      apply (Hkeep f c Hf Hc1 W).
      destruct Hin as [[->|Hin]|Hold].
      * right. apply Hsafe; auto. now apply safe_not_quick.
      * now left.
      * right. destruct (Hcases (safe f)) as [Hsame|(c' & Hc' & [[E Hv]|[E _]])].
        -- now rewrite Hsame.
        -- apply safe_injective in E; auto. subst g.
           rewrite Hv. congruence.
        -- now apply safe_not_quick in E.
Qed.

Ltac run_main :=
  cbv [RedactScript.main try_catch bind log modify exit ret];
  cbv beta iota zeta.

Lemma processFile_console (f : text) (s : Store) :
  exists lines, console (snd (processFile f s)) = console s ++ lines.
Proof.
  run_file. cbn [files console].
  destruct (files s f) as [c|];
    [|cbn [snd console]; rewrite <- app_assoc; eauto].
  destruct (writable (safe f));
    [|cbn [snd console]; rewrite <- app_assoc; eauto].
  cbn [files console].
  destruct (writable (quick f));
    [|cbn [snd console]; rewrite <- !app_assoc; eauto].
  cbn [files console].
  match goal with
  | |- context [if ?b then _ else _] => destruct b
  end; cbn [snd console]; rewrite <- !app_assoc; eauto.
Qed.

Lemma process_each_console (found : list text) : forall s : Store,
  exists lines, console (snd (process_each found s)) = console s ++ lines.
Proof.
  induction found as [|g rest IH]; intros s.
  - exists []. cbn. now rewrite app_nil_r.
  - cbn [RedactScript.process_each]. unfold bind.
    destruct (processFile_files g s) as (s1 & E1 & _).
    destruct (processFile_console g s) as [l1 H1]. rewrite E1 in *.
    cbn [snd] in H1. destruct (IH s1) as [l2 H2].
    exists (l1 ++ l2). now rewrite H2, H1, app_assoc.
Qed.

(** The three ways through [main]. *)
Lemma main_spec (s : Store) :
  exists s0 s1 lines,
    files s0 = files s /\
    fst (main s) = Exited (if memory_dir_exists then 0 else 1)%Z /\
    files (snd (main s)) = files s1 /\
    console (snd (main s)) = console s ++ lines /\
    ((s1 = s0 /\
      (memory_dir_exists = false \/ findMarkdownFiles MEMORY_DIR root = [])) \/
     (memory_dir_exists = true /\
      process_each (findMarkdownFiles MEMORY_DIR root) s0 = (Returned tt, s1))).
Proof.
  run_main. cbn [files console].
  destruct memory_dir_exists; cbn [negb].
  - destruct (length (findMarkdownFiles MEMORY_DIR root) =? 0) eqn:En.
    + eexists; eexists; eexists. cbn [fst snd files console].
      split; [reflexivity|]. split; [reflexivity|]. split; [reflexivity|].
      split; [rewrite <- app_assoc; reflexivity|]. left.
      split; [reflexivity|]. right. apply Nat.eqb_eq in En.
      now destruct (findMarkdownFiles MEMORY_DIR root).
    + match goal with
      | |- context [RedactScript.process_each _ _ _ ?l ?s0] =>
          destruct (process_each_spec l s0 (findMarkdownFiles_sources MEMORY_DIR root))
            as (s1 & E & _);
          destruct (process_each_console l s0) as [lines Hl];
          rewrite E in *; exists s0, s1
      end.
      cbn [fst snd files console] in *. eexists.
      split; [reflexivity|]. split; [reflexivity|]. split; [reflexivity|].
      split; [|right; auto].
      rewrite Hl, <- !app_assoc. reflexivity.
  - eexists; eexists; eexists. cbn [fst snd files console].
    split; [reflexivity|]. split; [reflexivity|]. split; [reflexivity|].
    split; [rewrite <- !app_assoc; reflexivity|]. left. auto.
Qed.

(** X11. The script exits with status 1 when the memory directory is
    missing and with status 0 otherwise, whatever happens to the files:
    a file that cannot be read or written is logged and passed over. *)
Theorem redaction_exit_status (s : Store) :
  fst (main s) = Exited (if memory_dir_exists then 0 else 1)%Z /\
  exists lines, console (snd (main s)) = console s ++ lines.
Proof.
  destruct (main_spec s) as (s0 & s1 & lines & _ & E & _ & Hc & _). eauto.
Qed.

(** X12. The script writes derived artifacts only: a file whose path
    ends neither in [.safe.md] nor in [.quick.md], the sources among
    them, holds after the run what it held before. *)
Theorem redaction_writes_artifacts_only (s : Store) (q : text) :
  PrePush.is_derived_artifact q = false ->
  files (snd (main s)) q = files s q.
Proof.
  intros Hq.
  destruct (main_spec s) as (s0 & s1 & lines & E0 & _ & -> & _ & [[-> _]|[_ E]]).
  - now rewrite E0.
  - destruct (process_each_spec _ s0 (findMarkdownFiles_sources MEMORY_DIR root))
      as (s' & E' & Hframe & _).
    rewrite E in E'. injection E' as <-. rewrite Hframe by exact Hq.
    now rewrite E0.
Qed.

(** X13. After a run, the [.safe.md] beside every source found that
    could be read holds the redacted source, provided it could be
    written; the marker pattern matches nowhere in it. *)
Theorem redaction_covers_sources (s : Store) (f c : text) :
  memory_dir_exists = true ->
  In f (findMarkdownFiles MEMORY_DIR root) ->
  files s f = Some c ->
  writable (safe f) = true ->
  files (snd (main s)) (safe f) = Some (Redact.redactPII c) /\
  search Redact.PII_MARKER_PATTERN None (Redact.redactPII c) = None.
Proof.
  intros Hdir Hin Hc W. split.
  2:{ apply RedactFacts.unmatched_search, RedactFacts.redact_unmatched. }
  pose proof (findMarkdownFiles_sources MEMORY_DIR root) as Hall.
  assert (Hf : is_source f = true)
    by (rewrite Forall_forall in Hall; now apply Hall).
  destruct (main_spec s)
    as (s0 & s1 & lines & E0 & _ & -> & _ & [[_ [H|H]]|[_ E]]).
  - congruence.
  - rewrite H in Hin. destruct Hin.
  - destruct (process_each_spec _ s0 Hall) as (s' & E' & _ & Hkeep).
    rewrite E in E'. injection E' as <-.
    apply (Hkeep f c Hf); auto. now rewrite E0.
Qed.

End Script.

End RedactScriptFacts.

(* ================================================================== *)
(** * The gate as a whole *)

Module GateFacts.

Import PrePush PrePushFacts.

(** A global match finds what a match at some place finds. *)
Lemma match_all_finds (re : regex) : no_boundary re = true ->
  forall (a b : text) (prev : option ascii),
  exec re [] None b <> None -> match_all re 0 prev (a ++ b) <> [].
Proof.
  intros Hre. induction a as [|c a IH]; intros b prev H.
  - rewrite (exec_prev re Hre [] None prev) in H. simpl app.
    destruct b as [|c b]; cbn [match_all];
      destruct (exec re [] prev _) as [[ps rest]|]; congruence.
  - simpl app. cbn [match_all].
    destruct (exec re [] prev (c :: a ++ b)) as [[ps rest]|]; [discriminate|].
    now apply IH.
Qed.

Lemma in_candidates_opt (p : ascii -> bool) pieces prev (s : text) :
  In [] (candidates (opt p) pieces prev s).
Proof.
  apply in_candidates_cls. exists 0. split; [reflexivity|]. lia.
Qed.

Lemma in_candidates_digit (hi : nat) pieces prev (d : ascii) (s : text) :
  is_digit d = true -> 1 <= hi ->
  In [d] (candidates (digits 1 hi) pieces prev (d :: s)).
Proof.
  intros Hd Hhi. apply in_candidates_cls. exists 1. split; [reflexivity|].
  cbn [run_length cap]. rewrite Hd. lia.
Qed.

(** Four digits in a row are matched by the phone pattern. *)
Lemma exec_phone_digits prev (d1 d2 d3 d4 : ascii) (b : text) :
  is_digit d1 = true -> is_digit d2 = true ->
  is_digit d3 = true -> is_digit d4 = true ->
  exec phone_regex [] prev (d1 :: d2 :: d3 :: d4 :: b) <> None.
Proof.
  intros H1 H2 H3 H4. unfold phone_regex.
  apply exec_cons_complete with (piece := []); [apply in_candidates_opt|].
  apply exec_cons_complete with (piece := [d1]);
    [apply in_candidates_digit; [exact H1|lia]|].
  apply exec_cons_complete with (piece := []); [apply in_candidates_opt|].
  apply exec_cons_complete with (piece := []); [apply in_candidates_opt|].
  apply exec_cons_complete with (piece := [d2]);
    [apply in_candidates_digit; [exact H2|lia]|].
  apply exec_cons_complete with (piece := []); [apply in_candidates_opt|].
  apply exec_cons_complete with (piece := []); [apply in_candidates_opt|].
  apply exec_cons_complete with (piece := [d3]);
    [apply in_candidates_digit; [exact H3|lia]|].
  apply exec_cons_complete with (piece := []); [apply in_candidates_opt|].
  apply exec_cons_complete with (piece := [d4]);
    [apply in_candidates_digit; [exact H4|lia]|].
  simpl. discriminate.
Qed.

(** X14. The phone pattern matches in every text that holds four digits
    in a row, a year or a time stamp for instance. *)
Theorem phone_matches_four_digits (a b : text) (d1 d2 d3 d4 : ascii) :
  is_digit d1 = true -> is_digit d2 = true ->
  is_digit d3 = true -> is_digit d4 = true ->
  matches_of phone (a ++ d1 :: d2 :: d3 :: d4 :: b) <> [].
Proof.
  intros H1 H2 H3 H4. unfold matches_of.
  apply match_all_finds; [reflexivity|].
  now apply exec_phone_digits.
Qed.

Lemma phone_matches_four_digits_witness :
  matches_of phone (str "Created: 2026-01-10") <> [].
Proof.
  apply (phone_matches_four_digits (str "Created: ") (str "-01-10")
           "2"%char "0"%char "2"%char "6"%char); reflexivity.
Defined.

Section Gate.

Variable MEMORY_DIR : text.
Variable root : list node.

Lemma hasPII_iff (f : text) :
  hasPII (checkFileForPII MEMORY_DIR root f) = true <->
  has_binary_extension f = false /\
  includes (str ".git/") f = false /\
  exists p content,
    In p PII_PATTERNS /\
    readFileSync MEMORY_DIR root f = Some content /\
    matches_of p content <> [] /\
    isMarked p content = false.
Proof.
  unfold checkFileForPII. split.
  - destruct (has_binary_extension f); [discriminate|].
    destruct (includes (str ".git/") f); [discriminate|].
    destruct (readFileSync MEMORY_DIR root f) as [content|]; [|discriminate].
    cbn [hasPII]. intros H. split; [reflexivity|]. split; [reflexivity|].
    destruct (flat_map (check_pattern content) PII_PATTERNS) as [|x l] eqn:E;
      [discriminate H|].
    assert (Hx : In x (flat_map (check_pattern content) PII_PATTERNS))
      by (rewrite E; now left).
    apply in_flat_map in Hx as (p & Hp & Hx).
    exists p, content. split; [exact Hp|]. split; [reflexivity|].
    unfold check_pattern in Hx.
    destruct (matches_of p content) as [|m ms]; [destruct Hx|].
    split; [discriminate|].
    cbn [length Nat.ltb Nat.leb] in Hx.
    now destruct (isMarked p (content)).
  - intros (Hb & Hg & p & content & Hp & Hr & Hm & Hk).
    rewrite Hb, Hg, Hr. cbn [hasPII].
    assert (Hin : In (finding p (length (matches_of p content)))
                     (flat_map (check_pattern content) PII_PATTERNS)).
    { apply in_flat_map. exists p. split; [exact Hp|].
      rewrite check_pattern_finding by assumption. now left. }
    destruct (flat_map _ _); [destruct Hin|reflexivity].
Qed.

(** X15. The gate exits with status 0 or 2, and with 2 exactly when it
    is enabled and, in a scanned artifact that can be read and whose
    path does not hold [.git/], one of the eight patterns matches while
    the file holds neither tag of that pattern. *)
Theorem gate_blocks_iff (stdin_json : bool) (config_file : json_file Config) :
  let r := main MEMORY_DIR root stdin_json config_file in
  (exit_code r = 0%Z \/ exit_code r = 2%Z) /\
  (exit_code r = 2%Z <->
   stdin_json = true /\
   config_file = Holds {| redact_pii := true |} /\
   exists f p content,
     In f (getFilesToCheck MEMORY_DIR root) /\
     includes (str ".git/") f = false /\
     In p PII_PATTERNS /\
     readFileSync MEMORY_DIR root f = Some content /\
     matches_of p content <> [] /\
     isMarked p content = false).
Proof.
  intros r. subst r. split.
  - unfold main. destruct stdin_json; cbn [negb]; [|now left].
    destruct config_file as [| |[[|]]]; try now left.
    destruct (length (getFilesToCheck MEMORY_DIR root) =? 0); [now left|].
    destruct (0 <? length _); [now right|now left].
  - split.
    + unfold main. destruct stdin_json; cbn [negb]; [|discriminate].
      destruct config_file as [| |[[|]]]; try discriminate.
      destruct (length (getFilesToCheck MEMORY_DIR root) =? 0); [discriminate|].
      destruct (scan_files MEMORY_DIR root (getFilesToCheck MEMORY_DIR root))
        as [|d ds] eqn:E; [discriminate|].
      intros _. split; [reflexivity|]. split; [reflexivity|].
      assert (Hd : In d (scan_files MEMORY_DIR root (getFilesToCheck MEMORY_DIR root)))
        by (rewrite E; now left).
      unfold scan_files in Hd. apply in_flat_map in Hd as (f & Hf & Hd).
      destruct (hasPII (checkFileForPII MEMORY_DIR root f)) eqn:Hh; [|destruct Hd].
      apply hasPII_iff in Hh as (_ & Hg & p & content & Hp & Hr & Hm & Hk).
      exists f, p, content. auto 10.
    + intros (-> & -> & f & p & content & Hf & Hg & Hp & Hr & Hm & Hk).
      pose proof (getFilesToCheck_derived MEMORY_DIR root) as Hall.
      rewrite Forall_forall in Hall.
      now destruct (unmarked_match_blocks MEMORY_DIR root p f content) as [He _];
        auto.
Qed.

(** X16. The gate blocks the quick versions that the redaction script
    writes: the time stamp of their closing lines starts with the four
    digits of a year, which the phone pattern matches, so that a scanned
    quick version without a [PHONE] tag is reported as holding a phone
    number and the push is refused. *)
Theorem gate_blocks_quick_versions (percent : nat -> nat -> text)
    (d1 d2 d3 d4 : ascii) (time content f : text) :
  let now := d1 :: d2 :: d3 :: d4 :: time in
  let quick := RedactScript.generateQuickVersion percent now content in
  is_digit d1 = true -> is_digit d2 = true ->
  is_digit d3 = true -> is_digit d4 = true ->
  In f (getFilesToCheck MEMORY_DIR root) ->
  includes (str ".git/") f = false ->
  readFileSync MEMORY_DIR root f = Some quick ->
  includes (str "[PII:PHONE]") quick = false ->
  includes (str "[REDACTED:PHONE]") quick = false ->
  let r := main MEMORY_DIR root true (Holds {| redact_pii := true |}) in
  matches_of phone quick <> [] /\
  exit_code r = 2%Z /\
  In (ReportFile (relative MEMORY_DIR f)) (stderr r) /\
  In (ReportFinding (finding phone (length (matches_of phone quick)))) (stderr r).
Proof.
  intros now quick H1 H2 H3 H4 Hf Hg Hr Hp Hq r.
  assert (Hm : matches_of phone quick <> []).
  { subst quick.
    destruct (QuickFacts.quick_version_holds_time percent now content)
      as (P & Q & ->).
    unfold matches_of. apply match_all_finds; [reflexivity|].
    subst now. now apply exec_phone_digits. }
  split; [exact Hm|].
  pose proof (getFilesToCheck_derived MEMORY_DIR root) as Hall.
  rewrite Forall_forall in Hall.
  destruct (unmarked_match_blocks MEMORY_DIR root phone f quick)
    as (He & Hn & Hrf & _); auto.
  - simpl. auto.
  - unfold isMarked. change (pii_tag (name phone)) with (str "[PII:PHONE]").
    change (redacted_tag (name phone)) with (str "[REDACTED:PHONE]").
    now rewrite Hp, Hq.
Qed.

End Gate.

(** X17. The sources that the redaction script processes and the
    artifacts that the gate scans are apart: the script finds files in
    [.md] that are no artifacts, the gate files in [.safe.md] or
    [.quick.md], so that no path is in both lists, whatever the two
    trees. *)
Theorem walks_are_apart (M : text) (before after : list node) :
  Forall (fun f => RedactScript.is_source f = true)
         (RedactScript.findMarkdownFiles M before) /\
  Forall (fun f => is_derived_artifact f = true) (getFilesToCheck M after) /\
  forall f, In f (RedactScript.findMarkdownFiles M before) ->
            ~ In f (getFilesToCheck M after).
Proof.
  pose proof (findMarkdownFiles_sources M before) as Hs.
  pose proof (getFilesToCheck_derived M after) as Hd.
  split; [exact Hs|]. split; [exact Hd|].
  intros f Hf Hg. rewrite Forall_forall in Hs, Hd.
  pose proof (RedactScriptFacts.source_not_derived f (Hs f Hf)).
  specialize (Hd f Hg). congruence.
Qed.

End GateFacts.

(* ================================================================== *)
(** * Rules for what a computation leaves as it was *)

Module FrameFacts.

Section Keeps.

Context {S : Type} (R : S -> S -> Prop).
Hypothesis R_refl : forall s, R s s.
Hypothesis R_trans : forall a b c, R a b -> R b c -> R a c.

Lemma keeps_ret {A : Type} (a : A) : keeps R (ret a).
Proof. intros s. apply R_refl. Qed.

Lemma keeps_throw {A : Type} (e : js_error) : keeps R (@throw S A e).
Proof. intros s. apply R_refl. Qed.

Lemma keeps_exit {A : Type} (c : Z) : keeps R (@exit S A c).
Proof. intros s. apply R_refl. Qed.

Lemma keeps_gets {A : Type} (f : S -> A) : keeps R (gets f).
Proof. intros s. apply R_refl. Qed.

Lemma keeps_modify (f : S -> S) : (forall s, R s (f s)) -> keeps R (modify f).
Proof. intros H s. apply H. Qed.

Lemma keeps_bind {A B : Type} (m : M S A) (k : A -> M S B) :
  keeps R m -> (forall a, keeps R (k a)) -> keeps R (bind m k).
Proof.
  intros Hm Hk s. unfold bind. specialize (Hm s).
  destruct (m s) as [[a|e|c] s1]; cbn [snd] in *; auto.
  eapply R_trans; [exact Hm|apply Hk].
Qed.

Lemma keeps_try {A : Type} (body : M S A) (h : js_error -> M S A) :
  keeps R body -> (forall e, keeps R (h e)) -> keeps R (try_catch body h).
Proof.
  intros Hb Hh s. unfold try_catch. specialize (Hb s).
  destruct (body s) as [[a|e|c] s1]; cbn [snd] in *; auto.
  eapply R_trans; [exact Hb|apply Hh].
Qed.

Lemma keeps_when (b : bool) (m : M S unit) : keeps R m -> keeps R (when b m).
Proof. intros H. destruct b; [exact H|apply keeps_ret]. Qed.

End Keeps.

Section Stays.

Context {S : Type}.

Lemma stays_ret {A : Type} (a : A) : stays (@ret S A a).
Proof. intros s c. discriminate. Qed.

Lemma stays_throw {A : Type} (e : js_error) : stays (@throw S A e).
Proof. intros s c. discriminate. Qed.

Lemma stays_gets {A : Type} (f : S -> A) : stays (gets f).
Proof. intros s c. discriminate. Qed.

Lemma stays_modify (f : S -> S) : stays (modify f).
Proof. intros s c. discriminate. Qed.

Lemma stays_bind {A B : Type} (m : M S A) (k : A -> M S B) :
  stays m -> (forall a, stays (k a)) -> stays (bind m k).
Proof.
  intros Hm Hk s c. unfold bind. specialize (Hm s).
  destruct (m s) as [[a|e|c'] s1]; cbn [fst] in *.
  - apply Hk.
  - discriminate.
  - now destruct (Hm c').
Qed.

Lemma stays_try {A : Type} (body : M S A) (h : js_error -> M S A) :
  stays body -> (forall e, stays (h e)) -> stays (try_catch body h).
Proof.
  intros Hb Hh s c. unfold try_catch. specialize (Hb s).
  destruct (body s) as [[a|e|c'] s1]; cbn [fst] in *.
  - discriminate.
  - apply Hh.
  - now destruct (Hb c').
Qed.

Lemma stays_when (b : bool) (m : M S unit) : stays m -> stays (when b m).
Proof. intros H. destruct b; [exact H|apply stays_ret]. Qed.

Lemma settles_stays {A : Type} (m : M S A) : settles m -> stays m.
Proof. intros H s c. destruct (H s) as [a ->]. discriminate. Qed.

Lemma settles_ret {A : Type} (a : A) : settles (@ret S A a).
Proof. intros s. exists a. reflexivity. Qed.

Lemma settles_modify (f : S -> S) : settles (modify f).
Proof. intros s. exists tt. reflexivity. Qed.

Lemma settles_bind {A B : Type} (m : M S A) (k : A -> M S B) :
  settles m -> (forall a, settles (k a)) -> settles (bind m k).
Proof.
  intros Hm Hk s. unfold bind. destruct (Hm s) as [a Ha].
  destruct (m s) as [o s1]. cbn [fst] in Ha. subst o. apply Hk.
Qed.

(** A [try] whose handler returns, around a body that does not end the
    process, returns. *)
Lemma settles_try {A : Type} (body : M S A) (h : js_error -> M S A) :
  stays body -> (forall e, settles (h e)) -> settles (try_catch body h).
Proof.
  intros Hb Hh s. unfold try_catch. specialize (Hb s).
  destruct (body s) as [[a|e|c] s1]; cbn [fst] in *.
  - exists a. reflexivity.
  - apply Hh.
  - now destruct (Hb c).
Qed.

End Stays.

End FrameFacts.

Import FrameFacts.

(* ================================================================== *)
(** * Normalised paths *)

Module PathFacts.

Import Resolver ResolverRun.

Lemma split_plain (sep : ascii) (b : text) :
  existsb (fun c => Ascii.eqb c sep) b = false -> split sep b = [b].
Proof.
  induction b as [|c b IH]; [reflexivity|]. cbn [existsb split].
  intros H. apply orb_false_iff in H as [Hc Hb]. now rewrite Hc, IH.
Qed.

(** The last segment of a path holds what comes after its last slash. *)
Lemma split_last (sep : ascii) (b : text) :
  existsb (fun c => Ascii.eqb c sep) b = false ->
  forall a, exists init t, split sep (a ++ b) = init ++ [t ++ b].
Proof.
  intros Hb. induction a as [|c a (init & t & IH)].
  - exists [], []. now apply split_plain.
  - cbn [app split]. rewrite IH. destruct (Ascii.eqb c sep).
    + now exists ([] :: init), t.
    + destruct init as [|h i]; cbn [app].
      * now exists [], (c :: t).
      * now exists ((c :: h) :: i), t.
Qed.

Lemma join_segments_last (l : list text) (last : text) :
  exists pre, join_segments (l ++ [last]) = pre ++ last.
Proof.
  induction l as [|x l (pre & IH)]; [now exists []|].
  cbn [app join_segments]. rewrite IH.
  destruct (l ++ [last]) eqn:E; [now destruct l|].
  exists (x ++ str "/" ++ pre). now rewrite <- !app_assoc.
Qed.

(** A segment of more than two code units is kept as it is. *)
Lemma keep_segment_long (allow : bool) (kept : list text) (segment : text) :
  2 < length segment -> keep_segment allow kept segment = segment :: kept.
Proof.
  intros H. unfold keep_segment.
  destruct (text_eqb segment []) eqn:E1;
    [apply text_eqb_eq in E1; subst; simpl in H; lia|].
  destruct (text_eqb segment (str ".")) eqn:E2;
    [apply text_eqb_eq in E2; subst; simpl in H; lia|].
  destruct (text_eqb segment (str "..")) eqn:E3;
    [apply text_eqb_eq in E3; subst; simpl in H; lia|].
  reflexivity.
Qed.

(** Normalising keeps the end of the name of an archive. *)
Lemma normalize_archived (a : text) :
  archive_named (normalize (a ++ str ".archived")) = true.
Proof.
  unfold archive_named, normalize.
  destruct (a ++ str ".archived") as [|c p] eqn:E;
    [now apply app_eq_nil in E as [_ E]|].
  rewrite <- E.
  destruct (split_last "/" (str ".archived") eq_refl a) as (init & t & ->).
  rewrite fold_left_app. cbn [fold_left].
  rewrite keep_segment_long by (rewrite length_app; simpl; lia).
  cbn [rev].
  destruct (join_segments_last
              (rev (fold_left (keep_segment (negb (Ascii.eqb c "/"))) init []))
              (t ++ str ".archived")) as (pre & Ej).
  match goal with
  | |- context [match ?j with [] => _ | _ :: _ => _ end] =>
      assert (Ej' : j = pre ++ t ++ str ".archived") by exact Ej;
      rewrite Ej'; clear Ej Ej'
  end.
  assert (Ht : ends_with (str "/") (a ++ str ".archived") = false)
    by (unfold ends_with; now rewrite rev_app_distr).
  rewrite Ht.
  destruct (pre ++ t ++ str ".archived") as [|h r] eqn:Er.
  { apply app_eq_nil in Er as [_ Er]. now apply app_eq_nil in Er as [_ Er]. }
  rewrite <- Er, app_nil_r, !app_assoc. apply ends_with_app.
Qed.

Lemma path_join_archived (dir name : text) :
  archive_named name = true -> archive_named (path_join dir name) = true.
Proof.
  intros H. apply ends_with_iff in H as [stem ->]. unfold path_join.
  destruct (stem ++ str ".archived") as [|x n] eqn:E;
    [now apply app_eq_nil in E as [_ E]|].
  rewrite <- E. destruct dir as [|c dir].
  - apply normalize_archived.
  - rewrite !app_assoc. apply normalize_archived.
Qed.

End PathFacts.

Import PathFacts.

(* ================================================================== *)
(** * Runs of the conflict resolver *)

Module ResolverRunFacts.

Import Resolver ResolverFacts ResolverRun.

(** The archive of a version is named as one, wherever [path.join]
    puts it. *)
Lemma archive_path_named (dir filename device stamp : text) :
  archive_named
    (path_join dir
       (filename ++ str "." ++ device ++ str "." ++ stamp ++ str ".archived"))
  = true.
Proof.
  apply path_join_archived. unfold archive_named.
  rewrite !app_assoc. apply ends_with_app.
Qed.

(** The three critical files are not named as archives. *)
Lemma critical_not_archive (M n : text) :
  In n MANUAL_RESOLUTION_FILES -> archive_named (join M n) = false.
Proof.
  intros H. unfold archive_named, ends_with, join.
  rewrite !rev_app_distr.
  simpl in H. destruct H as [<-|[<-|[<-|[]]]]; reflexivity.
Qed.

(** The resolution log is no critical file, and is not named as an
    archive. *)
Lemma log_not_critical (M : text) :
  requiresManualResolution M (logFile M) = false.
Proof.
  unfold requiresManualResolution, logFile, CONFLICTS_DIR, join.
  rewrite <- !app_assoc.
  change (M ++ str "/" ++ str "sync" ++ str "/" ++ str "conflicts" ++
          str "/" ++ str "resolution-log.md")
    with (M ++ str "/" ++ str "sync/conflicts/resolution-log.md").
  rewrite (app_assoc M), replace_first_prefix. reflexivity.
Qed.

(** A path named as an archive is none of the others. *)
Lemma named_apart (p q : text) :
  archive_named p = true -> archive_named q = false ->
  text_eqb p q = false /\ text_eqb q p = false.
Proof.
  intros Hp Hq. split; apply text_eqb_neq; intros E; subst; congruence.
Qed.

Lemma log_not_archive (M : text) : archive_named (logFile M) = false.
Proof.
  unfold archive_named, ends_with, logFile, join.
  rewrite !rev_app_distr. reflexivity.
Qed.

Lemma spares_refl (M : text) (d : Disk) : spares M d d.
Proof.
  split; [reflexivity|]. exists []. rewrite app_nil_r.
  split; [reflexivity|intros x []].
Qed.

Lemma spares_trans (M : text) (a b c : Disk) :
  spares M a b -> spares M b c -> spares M a c.
Proof.
  intros [F1 (x1 & S1 & H1)] [F2 (x2 & S2 & H2)]. split.
  - intros q Hq Ha. now rewrite F2, F1.
  - exists (x1 ++ x2). rewrite S2, S1, app_assoc. split; [reflexivity|].
    intros x Hx. apply in_app_or in Hx as [Hx|Hx]; auto.
Qed.

Section Script.

Variable MEMORY_DIR : text.
Variable parseDate : text -> Date.
Variable isoString : Z -> text.
Variable now : text.
Variable git_add_ok : text -> bool.
Variable git_diff_unmerged : answer.
Variable invalid_time : js_error.
Variable error_string : js_error -> text.

Local Abbreviation R := (spares MEMORY_DIR).

Lemma keeps_same {A : Type} (m : M Disk A) :
  (forall d, files (snd (m d)) = files d /\ staged (snd (m d)) = staged d) ->
  keeps R m.
Proof.
  intros H d. destruct (H d) as [F S]. split.
  - intros q _ _. now rewrite F.
  - exists []. rewrite app_nil_r. split; [exact S|intros x []].
Qed.

Lemma keeps_log (msg : text) (lvl : level) : keeps R (log msg lvl).
Proof. apply keeps_same. intros d. split; reflexivity. Qed.

Lemma keeps_existsSync (p : text) : keeps R (existsSync p).
Proof. apply keeps_same. intros d. split; reflexivity. Qed.

Lemma keeps_mkdirSync (p : text) : keeps R (mkdirSync p).
Proof. apply keeps_same. intros d. split; reflexivity. Qed.

Lemma keeps_readFileSync (p : text) : keeps R (readFileSync p).
Proof.
  apply keeps_same. intros d. unfold readFileSync.
  destruct (files d p); split; reflexivity.
Qed.

Lemma keeps_ran_command (c : command) : keeps R (ran_command c).
Proof. apply keeps_same. intros d. split; reflexivity. Qed.

Lemma keeps_toISOString (t : Date) :
  keeps R (toISOString isoString invalid_time t).
Proof. apply keeps_same. intros d. destruct t; split; reflexivity. Qed.

Lemma keeps_timestamp_line (t : option Date) :
  keeps R (timestamp_line isoString invalid_time t).
Proof.
  destruct t as [t|]; [apply keeps_toISOString|].
  apply keeps_same. intros d. split; reflexivity.
Qed.

(** A write outside the critical files. *)
Lemma keeps_writeFileSync (p c : text) :
  requiresManualResolution MEMORY_DIR p = false \/
  archive_named p = true ->
  keeps R (writeFileSync p c).
Proof.
  intros Hp d. split.
  - intros q Hq Ha. cbn.
    destruct (text_eqb q p) eqn:E; [|reflexivity].
    apply text_eqb_eq in E. subst q. destruct Hp; congruence.
  - exists []. rewrite app_nil_r. split; [reflexivity|intros x []].
Qed.

Lemma keeps_git_add (f : text) :
  requiresManualResolution MEMORY_DIR f = false ->
  keeps R (git_add git_add_ok f).
Proof.
  intros Hf d. unfold git_add, ran_command, bind, modify, throw.
  destruct (git_add_ok f); cbn; split; try reflexivity.
  - exists [f]. split; [reflexivity|]. intros x [<-|[]]. exact Hf.
  - exists []. rewrite app_nil_r. split; [reflexivity|intros x []].
Qed.

Ltac keep :=
  repeat (cbv beta zeta;
    lazymatch goal with
    | |- keeps _ (bind _ _) =>
        apply (keeps_bind _ (spares_trans MEMORY_DIR)); [|intros ?]
    | |- keeps _ (try_catch _ _) =>
        apply (keeps_try _ (spares_trans MEMORY_DIR)); [|intros ?]
    | |- keeps _ (ret _) => apply (keeps_ret _ (spares_refl MEMORY_DIR))
    | |- keeps _ (throw _) => apply (keeps_throw _ (spares_refl MEMORY_DIR))
    | |- keeps _ (exit _) => apply (keeps_exit _ (spares_refl MEMORY_DIR))
    | |- keeps _ (when _ _) => apply (keeps_when _ (spares_refl MEMORY_DIR))
    | |- keeps _ (log _ _) => apply keeps_log
    | |- keeps _ (existsSync _) => apply keeps_existsSync
    | |- keeps _ (mkdirSync _) => apply keeps_mkdirSync
    | |- keeps _ (readFileSync _) => apply keeps_readFileSync
    | |- keeps _ (ran_command _) => apply keeps_ran_command
    | |- keeps _ (toISOString _ _ _) => apply keeps_toISOString
    | |- keeps _ (timestamp_line _ _ _) => apply keeps_timestamp_line
    | |- keeps _ (writeFileSync _ _) =>
        apply keeps_writeFileSync;
        first [ right; apply archive_path_named
              | left; apply log_not_critical
              | left; assumption ]
    | |- keeps _ (git_add _ _) => apply keeps_git_add; assumption
    | |- keeps _ (if ?b then _ else _) => destruct b eqn:?
    | |- keeps _ (match ?x with _ => _ end) => destruct x eqn:?
    end).

Lemma keeps_archiveLoserVersion (f content device : text) (ts : option Date) :
  keeps R (archiveLoserVersion MEMORY_DIR isoString now invalid_time
                               f content device ts).
Proof. unfold archiveLoserVersion. keep. Qed.

Lemma keeps_logConflictResolution f w why ld rd lt rt :
  keeps R (logConflictResolution MEMORY_DIR isoString now invalid_time
                                 f w why ld rd lt rt).
Proof. unfold logConflictResolution. keep. Qed.

Lemma keeps_resolveFile (f : text) :
  keeps R (resolveFile MEMORY_DIR parseDate isoString now git_add_ok
                       invalid_time error_string f).
Proof.
  unfold resolveFile. keep;
    first [apply keeps_archiveLoserVersion | apply keeps_logConflictResolution].
Qed.

Lemma keeps_getConflictedFiles :
  keeps R (getConflictedFiles MEMORY_DIR git_diff_unmerged).
Proof. unfold getConflictedFiles. keep. Qed.

Lemma keeps_resolve_each (l : list text) : forall t,
  keeps R (resolve_each MEMORY_DIR parseDate isoString now git_add_ok
                        invalid_time error_string l t).
Proof.
  induction l as [|f l IH]; intros t; cbn [resolve_each]; keep.
  - apply keeps_resolveFile.
  - apply IH.
Qed.

Lemma keeps_main :
  keeps R (main MEMORY_DIR parseDate isoString now git_add_ok
                git_diff_unmerged invalid_time error_string).
Proof.
  unfold main. keep; first [apply keeps_getConflictedFiles | apply keeps_resolve_each].
Qed.

Lemma stays_readFileSync (p : text) : stays (readFileSync p).
Proof. intros d c. unfold readFileSync. destruct (files d p); discriminate. Qed.

Lemma stays_toISOString (t : Date) :
  stays (toISOString isoString invalid_time t).
Proof. intros d c. destruct t; discriminate. Qed.

Ltac stay :=
  repeat (cbv beta zeta;
    lazymatch goal with
    | |- stays (bind _ _) => apply stays_bind; [|intros ?]
    | |- stays (try_catch _ _) => apply stays_try; [|intros ?]
    | |- stays (ret _) => apply stays_ret
    | |- stays (throw _) => apply stays_throw
    | |- stays (when _ _) => apply stays_when
    | |- stays (modify _) => apply stays_modify
    | |- stays (gets _) => apply stays_gets
    | |- stays (log _ _) => apply stays_modify
    | |- stays (existsSync _) => apply stays_gets
    | |- stays (mkdirSync _) => apply stays_modify
    | |- stays (writeFileSync _ _) => apply stays_modify
    | |- stays (ran_command _) => apply stays_modify
    | |- stays (readFileSync _) => apply stays_readFileSync
    | |- stays (toISOString _ _ _) => apply stays_toISOString
    | |- stays (if ?b then _ else _) => destruct b
    | |- stays (match ?x with _ => _ end) => destruct x
    end).

(** Whatever happens to a file, [resolveFile] returns. *)
Lemma settles_resolveFile (f : text) :
  settles (resolveFile MEMORY_DIR parseDate isoString now git_add_ok
                       invalid_time error_string f).
Proof.
  unfold resolveFile. apply settles_try.
  - unfold archiveLoserVersion, logConflictResolution, timestamp_line, git_add.
    stay.
  - intros e. apply settles_bind; [apply settles_modify|].
    intros _. apply settles_ret.
Qed.

Lemma settles_getConflictedFiles :
  settles (getConflictedFiles MEMORY_DIR git_diff_unmerged).
Proof.
  unfold getConflictedFiles. apply settles_try.
  - stay.
  - intros e. apply settles_bind; [apply settles_modify|].
    intros _. apply settles_ret.
Qed.

Lemma settles_resolve_each (l : list text) : forall t,
  settles (resolve_each MEMORY_DIR parseDate isoString now git_add_ok
                        invalid_time error_string l t).
Proof.
  induction l as [|f l IH]; intros t; cbn [resolve_each].
  - apply settles_ret.
  - apply settles_bind; [apply settles_resolveFile|]. intros b. apply IH.
Qed.

Lemma exits_bind {A B : Type} (P : Z -> Prop) (m : M Disk A) (k : A -> M Disk B) :
  settles m ->
  (forall a s, exists c, fst (k a s) = Exited c /\ P c) ->
  forall s, exists c, fst (bind m k s) = Exited c /\ P c.
Proof.
  intros Hm Hk s. unfold bind. destruct (Hm s) as [a Ha].
  destruct (m s) as [o s1]. cbn [fst] in Ha. subst o. apply Hk.
Qed.

Lemma main_exits (d : Disk) :
  exists c,
    fst (main MEMORY_DIR parseDate isoString now git_add_ok git_diff_unmerged
              invalid_time error_string d)
      = Exited c /\ (c = 0 \/ c = 1)%Z.
Proof.
  unfold main. revert d. apply exits_bind.
  { intros d. eexists. reflexivity. }
  intros present. destruct (negb present).
  { apply exits_bind; [apply settles_modify|]. intros _ s. exists 1%Z. auto. }
  apply exits_bind; [apply settles_getConflictedFiles|].
  intros l. destruct (length l =? 0).
  { apply exits_bind; [apply settles_modify|]. intros _ s. exists 0%Z. auto. }
  apply exits_bind; [apply settles_modify|]. intros _.
  apply exits_bind; [apply settles_resolve_each|].
  intros t s. eexists. split; [reflexivity|]. destruct (_ || _); auto.
Qed.


Ltac dwalk := wp_walk; cbn [files dirs staged ran console] in *.

Lemma invalid_remote_loses (m : ConflictMarkers) (lt : Date) :
  extractTimestamp parseDate (local_body m) = Some lt ->
  extractTimestamp parseDate (remote_body m) = Some InvalidDate ->
  winner (resolveByTimestamp parseDate m) = local.
Proof. intros Hl Hr. unfold resolveByTimestamp. rewrite Hl, Hr. reflexivity. Qed.

Lemma invalid_local_wins (m : ConflictMarkers) (rt : Date) :
  extractTimestamp parseDate (local_body m) = Some InvalidDate ->
  extractTimestamp parseDate (remote_body m) = Some rt ->
  winner (resolveByTimestamp parseDate m) = local.
Proof.
  intros Hl Hr. unfold resolveByTimestamp. rewrite Hl, Hr.
  now destruct rt.
Qed.

(** X19. When both bodies hold a time stamp and the remote one is no
    valid date, the resolution fails before any file is written: the
    local body wins the comparison, archiving the remote body throws on
    its time stamp, and [resolveFile] returns false with every file, the
    staged files and the commands run as they were; the line it logs
    ends with the string form of the error thrown. *)
Theorem invalid_remote_date_fails (f content : text) (m : ConflictMarkers)
    (lt : Date) (d : Disk) :
  requiresManualResolution MEMORY_DIR f = false ->
  files d f = Some content ->
  extractConflict content = Some m ->
  extractTimestamp parseDate (local_body m) = Some lt ->
  extractTimestamp parseDate (remote_body m) = Some InvalidDate ->
  let r := resolveFile MEMORY_DIR parseDate isoString now git_add_ok
                       invalid_time error_string f d in
  fst r = Returned false /\
  files (snd r) = files d /\ staged (snd r) = staged d /\ ran (snd r) = ran d /\
  In (error,
      str "Failed to resolve " ++ f ++ str ": " ++ error_string invalid_time)
     (console (snd r)).
Proof.
  intros Hman Hread Hext Hl Hr r. subst r.
  pose proof (invalid_remote_loses m lt Hl Hr) as Hw.
  change (wp (resolveFile MEMORY_DIR parseDate isoString now git_add_ok
                       invalid_time error_string f)
            (fun o d' =>
               o = Returned false /\
               files d' = files d /\ staged d' = staged d /\ ran d' = ran d /\
               In (error,
                   str "Failed to resolve " ++ f ++ str ": " ++
                   error_string invalid_time)
                  (console d')) d).
  unfold resolveFile. rewrite Hman. unfold log. dwalk.
  eapply wp_run; [unfold readFileSync; cbn [files]; rewrite Hread; reflexivity|].
  cbn [after]. rewrite Hext. dwalk. rewrite Hw, Hr.
  unfold archiveLoserVersion, existsSync, mkdirSync, when. dwalk.
  match goal with |- wp (if ?b then _ else _) _ _ => destruct b end; dwalk;
    cbn [toISOString]; dwalk;
    (repeat split; auto; apply in_or_app; right; now left).
Qed.


(** Archiving writes the archive and nothing else. *)
Lemma archiveLoserVersion_state (f content device : text) (ts : option Date)
    (d d1 : Disk) (a : unit) :
  archiveLoserVersion MEMORY_DIR isoString now invalid_time f content device ts d
    = (Returned a, d1) ->
  let p := path_join (CONFLICTS_DIR MEMORY_DIR)
             (basename f ++ str "." ++ device ++ str "." ++
              archive_stamp isoString now ts ++ str ".archived") in
  files d1 p = Some content /\
  (forall q, text_eqb q p = false -> files d1 q = files d q).
Proof.
  intros H p. subst p. unfold archiveLoserVersion in H.
  step H as present s1 E. apply existsSync_state in E as ->.
  step H as u1 s2 E. apply ensure_dir_state in E as [F1 _].
  step H as tsStr s3 E.
  assert (Hts : tsStr = archive_stamp isoString now ts /\ s3 = s2).
  { destruct ts as [[ms|]|]; cbn [toISOString archive_stamp] in *.
    - step E as iso s4 E'. unfold ret in *. injection E' as <- <-.
      now injection E as <- <-.
    - step E as iso s4 E'. discriminate E'.
    - unfold ret in E. now injection E as <- <-. }
  destruct Hts as [-> ->].
  step H as u2 s4 E'. apply writeFileSync_state in E' as (W & _ & F2).
  apply log_state in H as [F3 _].
  split.
  - now rewrite F3.
  - intros q Hq. rewrite F3, F2, F1 by exact Hq. reflexivity.
Qed.

(** X21. A file that was resolved has its losing body in an archive:
    when [resolveFile] returns true for a file that is neither the
    resolution log nor named as an archive, the path that [path.join]
    makes of the directory of conflicts and the name of the file, the
    losing device and the losing time stamp ends in [.archived] and
    holds the body that lost, and the file itself holds the body that
    won. *)
Theorem resolved_file_archives_loser (f : text) (d d' : Disk) :
  archive_named f = false ->
  f <> logFile MEMORY_DIR ->
  resolveFile MEMORY_DIR parseDate isoString now git_add_ok
              invalid_time error_string f d
    = (Returned true, d') ->
  exists content m,
    files d f = Some content /\
    extractConflict content = Some m /\
    archive_named (archivePath MEMORY_DIR parseDate isoString now f m) = true /\
    files d' (archivePath MEMORY_DIR parseDate isoString now f m)
      = Some (losing_body parseDate m) /\
    files d' f = Some (winning_body parseDate m).
Proof.
  intros Harch Hlog H.
  assert (Hlog' : text_eqb f (logFile MEMORY_DIR) = false)
    by (apply text_eqb_neq; exact Hlog).
  unfold resolveFile in H.
  apply try_catch_returned in H as [H|(e & s1 & _ & H)].
  2:{ step H. discriminate H. }
  step H as u0 s0 E. apply log_state in E as [F0 _].
  destruct (requiresManualResolution MEMORY_DIR f).
  { do 4 step H. discriminate H. }
  step H as content s1 E. apply readFileSync_state in E as [-> Hread].
  rewrite F0 in Hread.
  destruct (extractConflict content) as [m|] eqn:Hm.
  2:{ step H. discriminate H. }
  exists content, m. split; [exact Hread|]. split; [exact Hm|].
  split; [apply archive_path_named|].
  step H as u1 s2 E. clear E.
  step H as u2 s3 E. apply archiveLoserVersion_state in E as [A1 _].
  step H as u3 s4 E. apply writeFileSync_state in E as (W & _ & F1).
  step H as u4 s5 E. apply git_add_state in E as [F2 _].
  step H as u5 s6 E. apply logConflictResolution_state in E as [_ F3].
  step H as u6 s7 E. apply log_state in E as [F4 _].
  unfold ret in H. injection H as <-.
  assert (Hp : forall P, archive_named P = true ->
                 files s6 P = files s3 P).
  { intros P HP.
    destruct (named_apart P f HP Harch) as [N1 _].
    destruct (named_apart P (logFile MEMORY_DIR) HP (log_not_archive MEMORY_DIR))
      as [N2 _].
    rewrite F3, F2, F1 by assumption. reflexivity. }
  unfold archivePath, losing_body, losing_device, losing_timestamp, winning_body.
  split.
  - rewrite F4, Hp by apply archive_path_named.
    destruct (winner (resolveByTimestamp parseDate m)); exact A1.
  - rewrite F4, F3, F2 by exact Hlog'.
    destruct (winner (resolveByTimestamp parseDate m)); exact W.
Qed.

End Script.

(** X22. When git cannot list the conflicted files, the resolver takes
    it that there are none: it logs the failure, reports that no
    conflicts were found and ends the process with status 0, every file
    and the staged files as they were. *)
Theorem resolver_git_failure (M : text) (parseDate : text -> Date)
    (isoString : Z -> text) (now : text) (git_add_ok : text -> bool)
    (invalid_time : js_error) (error_string : js_error -> text)
    (e : js_error) (d : Disk) :
  dirs d M = true ->
  let r := main M parseDate isoString now git_add_ok (Fails e)
                invalid_time error_string d in
  fst r = Exited 0 /\
  files (snd r) = files d /\ staged (snd r) = staged d /\
  ran (snd r) = ran d ++ [GitDiffUnmerged] /\
  console (snd r) =
    console d ++ [ (error, str "Failed to get conflicted files");
                   (success, str "No conflicts found") ].
Proof.
  intros Hdir r. subst r.
  unfold main, getConflictedFiles, ran_command, log, existsSync, bind,
    try_catch, gets, modify, throw, ret, exit.
  cbn [files dirs staged ran console fst snd]. rewrite Hdir.
  destruct (files d M); cbn; rewrite <- ?app_assoc; repeat split.
Qed.

End ResolverRunFacts.

(* ================================================================== *)
(** * Recognising a conflict region *)

Module ExtractFacts.

Import Resolver ResolverFacts ResolverRun.

Lemma conflict_no_boundary : no_boundary conflictPattern = true.
Proof. reflexivity. Qed.

Lemma search_here (re : regex) prev (s : text) (ps : list text) (rest : text) :
  exec re [] prev s = Some (ps, rest) -> search re prev s = Some ps.
Proof. intros H. destruct s; cbn [search]; now rewrite H. Qed.

(** The search passes over the places where the pattern does not
    match. *)
Lemma search_skips (re : regex) : no_boundary re = true ->
  forall (a b : text) prev,
  (forall a1 a2, a = a1 ++ a2 -> a2 <> [] -> exec re [] None (a2 ++ b) = None) ->
  search re prev (a ++ b) = search re None b.
Proof.
  intros Hre. induction a as [|c a IH]; intros b prev H.
  - apply search_prev, Hre.
  - simpl app. cbn [search].
    rewrite (exec_prev re Hre [] prev None).
    pose proof (H [] (c :: a) eq_refl) as H0. simpl app in H0.
    rewrite H0 by discriminate.
    apply IH. intros a1 a2 -> Ha2. apply (H (c :: a1)); auto.
Qed.

Lemma search_none (re : regex) : no_boundary re = true ->
  forall (s : text) prev,
  (forall a b, s = a ++ b -> exec re [] None b = None) ->
  search re prev s = None.
Proof.
  intros Hre. induction s as [|c s IH]; intros prev H; cbn [search];
    rewrite (exec_prev re Hre [] prev None), (H [] _ eq_refl).
  - reflexivity.
  - apply IH. intros a b ->. apply (H (c :: a)). reflexivity.
Qed.

(** The last, greedy, element of a pattern takes all it can. *)
Lemma exec_greedy_last (p : ascii -> bool) pieces prev (s : text) :
  exec [Cls p 0 None true] pieces prev s =
  Some (pieces ++ [firstn (run_length p s) s], skipn (run_length p s) s).
Proof.
  cbn [exec candidates]. unfold counts. cbn [cap].
  rewrite Nat.sub_0_r, rev_seq_S. cbn [map first_some Nat.add].
  rewrite length_firstn_le by apply run_length_le. reflexivity.
Qed.

Lemma starts_with_app_l (p q s : text) :
  starts_with (p ++ q) s = true -> starts_with p s = true.
Proof.
  intros H. apply starts_with_iff in H as [r ->].
  rewrite <- app_assoc. apply starts_with_app.
Qed.

Lemma includes_shorter (m s : text) :
  length s < length m -> includes m s = false.
Proof.
  intros H. destruct (includes m s) eqn:E; [exfalso|reflexivity].
  apply includes_iff in E as (a & b & ->). rewrite !length_app in H. lia.
Qed.

(** The match at a conflict region. *)
Lemma exec_region prev (l r rest : text) :
  includes (nl ++ str "=======") l = false ->
  includes tail_marker r = false ->
  exists tail rest',
    exec conflictPattern [] prev
         (head_marker ++ l ++ separator ++ r ++ tail_marker ++ rest) =
    Some ([head_marker; l; separator; r; tail_marker; tail], rest').
Proof.
  intros Hl Hr. unfold conflictPattern. fold head_marker separator tail_marker.
  do 2 eexists.
  rewrite exec_lit. apply exec_lazy.
  - intros n Hn.
    destruct (skipn_inside n l (separator ++ r ++ tail_marker ++ rest) Hn)
      as (a & b & El & Hb & -> & ->).
    apply exec_lit_none.
    destruct (starts_with separator _) eqn:S; [exfalso|reflexivity].
    pose proof (no_early_first newline (str "=======") l
                  (nl ++ r ++ tail_marker ++ rest) a b eq_refl Hl El Hb) as F.
    apply starts_with_iff in S as [z Ez].
    assert (T : starts_with (newline :: str "=======")
                  (b ++ (newline :: str "=======") ++
                   nl ++ r ++ tail_marker ++ rest) = true).
    { apply starts_with_iff. exists (nl ++ z).
      transitivity (b ++ separator ++ r ++ tail_marker ++ rest).
      - unfold separator. now rewrite <- !app_assoc.
      - rewrite Ez. unfold separator. now rewrite <- !app_assoc. }
    congruence.
  - rewrite exec_lit. apply exec_lazy.
    + intros n Hn.
      destruct (skipn_inside n r (tail_marker ++ rest) Hn)
        as (a & b & Er & Hb & -> & ->).
      apply exec_lit_none.
      change tail_marker with (newline :: str ">>>>>>> ") in *.
      now apply (no_early_first newline (str ">>>>>>> ") r rest a b).
    + rewrite exec_lit, exec_greedy_last. cbn [app]. reflexivity.
Qed.

(** X23. A conflict region is read back: in a text that holds a region
    made of a local body without a line of seven equals signs and a
    remote body without a closing marker, after a text without an
    opening marker, [extractConflict] finds these two bodies. *)
Theorem extractConflict_region (pre l r label post : text) :
  includes (str "<<<<<<< HEAD" ++ nl) pre = false ->
  includes (nl ++ str "=======") l = false ->
  includes (nl ++ str ">>>>>>> ") r = false ->
  exists m,
    extractConflict (pre ++ region l r label ++ post) = Some m /\
    local_body m = l /\ remote_body m = r.
Proof.
  intros Hpre Hl Hr. unfold extractConflict.
  assert (E : region l r label ++ post =
              head_marker ++ l ++ separator ++ r ++ tail_marker ++ label ++ post).
  { unfold region, head_marker, separator, tail_marker.
    now rewrite <- !app_assoc. }
  rewrite E.
  destruct (exec_region None l r (label ++ post) Hl Hr) as (tail & rest' & Hx).
  rewrite (search_skips _ conflict_no_boundary).
  - rewrite (search_here _ _ _ _ _ Hx). eexists. split; [reflexivity|]. auto.
  - intros a1 a2 Ea Ha2. apply exec_lit_none.
    change (str "<<<<<<< HEAD" ++ nl) with (str "<<<<<<< HEAD" ++ [newline]) in *.
    unfold head_marker. change nl with [newline].
    now apply (no_early_last newline (str "<<<<<<< HEAD") pre _ a1 a2).
Qed.

Lemma extractConflict_region_witness :
  exists m,
    extractConflict (Samples.intro ++
                     region (str "mine") (str "theirs") (str "origin/main") ++
                     Samples.outro) = Some m /\
    local_body m = str "mine" /\ remote_body m = str "theirs".
Proof.
  apply (extractConflict_region Samples.intro (str "mine") (str "theirs")
           (str "origin/main") Samples.outro); reflexivity.
Defined.

(** What a match of the conflict pattern needs. *)
Lemma exec_conflict_sound prev (s : text) :
  exec conflictPattern [] prev s <> None ->
  exists x, s = head_marker ++ x /\ includes separator x = true.
Proof.
  destruct (exec conflictPattern [] prev s) as [r|] eqn:E; [intros _|congruence].
  unfold conflictPattern in E.
  apply exec_cons in E as (q0 & H0 & E).
  apply in_candidates_lit in H0 as [-> S0].
  apply starts_with_iff in S0 as [x ->]. rewrite skipn_length_app in E.
  exists x. split; [reflexivity|].
  apply exec_cons in E as (q1 & H1 & E).
  apply in_candidates_cls in H1 as (n & -> & _).
  apply exec_cons in E as (q2 & H2 & _).
  apply in_candidates_lit in H2 as [-> S2].
  apply starts_with_iff in S2 as [y S2].
  apply includes_iff. exists (firstn n x), y.
  assert (Ek : firstn (length (firstn n x)) x = firstn n x).
  { rewrite length_firstn.
    destruct (Nat.le_gt_cases n (length x)) as [Hn|Hn].
    - now rewrite Nat.min_l.
    - rewrite Nat.min_r by lia. now rewrite !firstn_all2 by lia. }
  etransitivity; [symmetry; apply (firstn_skipn (length (firstn n x)))|].
  rewrite Ek. f_equal. exact S2.
Qed.

(** X24. A conflict whose local side is empty is not recognised: git
    writes the line of equals signs right after the opening marker, and
    the pattern wants a line break between the two that the opening
    marker has not taken.  With no other opening marker and no other
    such separator in the text, [extractConflict] finds nothing. *)
Theorem empty_local_side_not_recognised (r label : text) :
  let after := str "=======" ++ nl ++ r ++ nl ++ str ">>>>>>> " ++ label in
  includes (nl ++ str "=======" ++ nl) after = false ->
  includes (str "<<<<<<< HEAD" ++ nl) after = false ->
  extractConflict (str "<<<<<<< HEAD" ++ nl ++ after) = None.
Proof.
  intros after Hsep Hhead. unfold extractConflict.
  rewrite (search_none _ conflict_no_boundary); [reflexivity|].
  intros a b E.
  destruct (exec conflictPattern [] None b) eqn:Ex; [exfalso|reflexivity].
  destruct (exec_conflict_sound None b) as (x & -> & Hx); [congruence|].
  change (str "<<<<<<< HEAD" ++ nl ++ after) with (head_marker ++ after) in E.
  change (str "<<<<<<< HEAD" ++ nl) with head_marker in Hhead.
  change (nl ++ str "=======" ++ nl) with separator in Hsep.
  destruct a as [|c a].
  - change ([] ++ head_marker ++ x) with (head_marker ++ x) in E.
    apply app_inv_head in E. congruence.
  - destruct (Nat.le_gt_cases (length head_marker) (length (c :: a))) as [Hlen|Hlen].
    + (* the other opening marker lies after the first *)
      apply (f_equal (skipn (length head_marker))) in E.
      rewrite skipn_length_app, skipn_app in E.
      replace (length head_marker - length (c :: a)) with 0 in E by lia.
      simpl skipn at 2 in E.
      assert (includes head_marker after = true)
        by (rewrite E; apply includes_app_r, includes_prefix;
            exact (starts_with_app head_marker x)).
      congruence.
    + (* or it overlaps the first *)
      assert (S : starts_with head_marker ((c :: a) ++ head_marker ++ x) = true)
        by (rewrite <- E; apply starts_with_app).
      change head_marker with (str "<<<<<<< HEAD" ++ [newline]) in S.
      rewrite (no_early_last newline (str "<<<<<<< HEAD") (c :: a) x [] (c :: a))
        in S; [discriminate S|reflexivity| |reflexivity|discriminate].
      apply includes_shorter. exact Hlen.
Qed.

Lemma empty_local_side_not_recognised_witness :
  extractConflict (str "<<<<<<< HEAD" ++ nl ++ str "=======" ++ nl ++
                   str "theirs" ++ nl ++ str ">>>>>>> " ++ str "origin/main")
  = None.
Proof.
  apply (empty_local_side_not_recognised (str "theirs") (str "origin/main"));
    reflexivity.
Defined.

End ExtractFacts.

(* ================================================================== *)
(** * The scripts on the samples *)

Module ScriptWitnesses.

Import ScriptSamples.

Lemma processFile_writes_artifacts_witness :
  let r := RedactScript.processFile clock rounded Samples.always memory_path
             (store_with memory_path memory_text) in
  fst r = Returned tt /\
  RedactScript.files (snd r) memory_safe_path
    = Some (Redact.redactPII memory_text) /\
  (exists now,
     RedactScript.files (snd r) memory_quick_path =
     Some (RedactScript.generateQuickVersion rounded now
             (Redact.redactPII memory_text))) /\
  RedactScript.files (snd r) memory_path = Some memory_text /\
  (forall q, q <> memory_safe_path -> q <> memory_quick_path ->
             RedactScript.files (snd r) q
             = RedactScript.files (store_with memory_path memory_text) q).
Proof.
  apply (RedactScriptFacts.processFile_writes_artifacts clock rounded
           Samples.always memory_path memory_text
           (store_with memory_path memory_text)); reflexivity.
Defined.

Lemma processFile_failure_witness :
  let r := RedactScript.processFile clock rounded Samples.always memory_path
             (store_with todo_path memory_text) in
  fst r = Returned tt /\
  RedactScript.files (snd r)
    = RedactScript.files (store_with todo_path memory_text) /\
  exists lines,
    RedactScript.console (snd r)
    = RedactScript.console (store_with todo_path memory_text) ++ lines.
Proof.
  apply (RedactScriptFacts.processFile_failure clock rounded Samples.always
           memory_path (store_with todo_path memory_text)).
  left. reflexivity.
Defined.

Lemma processFile_overwrites_other_files_witness :
  let r := RedactScript.processFile clock rounded Samples.always todo_path
             (store_with todo_path memory_text) in
  RedactScript.with_suffix (str ".safe.md") todo_path = todo_path /\
  RedactScript.with_suffix (str ".quick.md") todo_path = todo_path /\
  exists now,
    RedactScript.files (snd r) todo_path =
    Some (RedactScript.generateQuickVersion rounded now
            (Redact.redactPII memory_text)).
Proof.
  apply (RedactScriptFacts.processFile_overwrites_other_files clock rounded
           Samples.always todo_path memory_text
           (store_with todo_path memory_text)); reflexivity.
Defined.

Lemma redaction_writes_artifacts_only_witness :
  RedactScript.files
    (snd (RedactScript.main Samples.MEMORY_DIR true memory_tree clock rounded
            Samples.always (store_with memory_path memory_text)))
    memory_path
  = RedactScript.files (store_with memory_path memory_text) memory_path.
Proof.
  apply (RedactScriptFacts.redaction_writes_artifacts_only Samples.MEMORY_DIR
           true memory_tree clock rounded Samples.always
           (store_with memory_path memory_text) memory_path).
  reflexivity.
Defined.

Lemma redaction_covers_sources_witness :
  RedactScript.files
    (snd (RedactScript.main Samples.MEMORY_DIR true memory_tree clock rounded
            Samples.always (store_with memory_path memory_text)))
    (RedactScript.with_suffix (str ".safe.md") memory_path)
  = Some (Redact.redactPII memory_text) /\
  search Redact.PII_MARKER_PATTERN None (Redact.redactPII memory_text) = None.
Proof.
  apply (RedactScriptFacts.redaction_covers_sources Samples.MEMORY_DIR true
           memory_tree clock rounded Samples.always
           (store_with memory_path memory_text) memory_path memory_text).
  - reflexivity.
  - left. reflexivity.
  - reflexivity.
  - reflexivity.
Defined.

Lemma gate_blocks_quick_versions_witness :
  let r := PrePush.main Samples.MEMORY_DIR tree_after_redaction true
             (Holds {| PrePush.redact_pii := true |}) in
  PrePush.matches_of PrePush.phone memory_quick <> [] /\
  PrePush.exit_code r = 2%Z /\
  In (PrePush.ReportFile (PrePush.relative Samples.MEMORY_DIR memory_quick_path))
     (PrePush.stderr r) /\
  In (PrePush.ReportFinding
        (PrePush.finding PrePush.phone
           (length (PrePush.matches_of PrePush.phone memory_quick))))
     (PrePush.stderr r).
Proof.
  apply (GateFacts.gate_blocks_quick_versions Samples.MEMORY_DIR
           tree_after_redaction rounded "2"%char "0"%char "2"%char "6"%char
           (str "-01-10T16:00:00.000Z") (Redact.redactPII memory_text)
           memory_quick_path); try reflexivity.
  left. reflexivity.
Defined.

Lemma invalid_remote_date_fails_witness :
  let d := Samples.disk_with Samples.notes_path
             (Resolver.region Samples.newer_body undated_body
                (str "origin/main")) in
  let r := Resolver.resolveFile Samples.MEMORY_DIR Samples.calendar_parse
             decimalZ Samples.sample_now Samples.always Samples.invalid_time
             Samples.error_string Samples.notes_path d in
  fst r = Returned false /\
  Resolver.files (snd r) = Resolver.files d /\
  Resolver.staged (snd r) = Resolver.staged d /\
  Resolver.ran (snd r) = Resolver.ran d /\
  In (error,
      str "Failed to resolve " ++ Samples.notes_path ++
      str ": RangeError: Invalid Date")
     (Resolver.console (snd r)).
Proof.
  eapply (ResolverRunFacts.invalid_remote_date_fails Samples.MEMORY_DIR
            Samples.calendar_parse decimalZ Samples.sample_now Samples.always
            Samples.invalid_time Samples.error_string
            Samples.notes_path
            (Resolver.region Samples.newer_body undated_body
               (str "origin/main"))
            (Samples.markers_of Samples.newer_body undated_body));
    reflexivity.
Defined.


(** The device text of the losing body leads out of the directory of
    conflicts: the archive lands beside the configuration. *)
Lemma resolved_file_archives_loser_witness :
  let d := Samples.disk_with Samples.notes_path
             (Resolver.region Samples.newer_body climbing_body
                (str "origin/main")) in
  let r := Resolver.resolveFile Samples.MEMORY_DIR Samples.calendar_parse
             decimalZ Samples.sample_now Samples.always Samples.invalid_time
             Samples.error_string Samples.notes_path d in
  (exists content m,
     Resolver.files d Samples.notes_path = Some content /\
     Resolver.extractConflict content = Some m /\
     ResolverRun.archive_named
       (ResolverRun.archivePath Samples.MEMORY_DIR Samples.calendar_parse
          decimalZ Samples.sample_now Samples.notes_path m) = true /\
     Resolver.files (snd r)
       (ResolverRun.archivePath Samples.MEMORY_DIR Samples.calendar_parse
          decimalZ Samples.sample_now Samples.notes_path m)
       = Some (ResolverRun.losing_body Samples.calendar_parse m) /\
     Resolver.files (snd r) Samples.notes_path
       = Some (Resolver.winning_body Samples.calendar_parse m)) /\
  ResolverRun.archivePath Samples.MEMORY_DIR Samples.calendar_parse
    decimalZ Samples.sample_now Samples.notes_path
    (Samples.markers_of Samples.newer_body climbing_body)
  = str "/home/u/.claude-memory-cloud/.config.json.65120853600000.archived".
Proof.
  split; [|vm_compute; reflexivity].
  apply (ResolverRunFacts.resolved_file_archives_loser Samples.MEMORY_DIR
           Samples.calendar_parse decimalZ Samples.sample_now Samples.always
           Samples.invalid_time Samples.error_string
           Samples.notes_path).
  - reflexivity.
  - vm_compute. discriminate.
  - apply pair_from_fst. vm_compute. reflexivity.
Defined.

Lemma resolver_git_failure_witness :
  let d := Samples.disk_with Samples.notes_path Samples.conflicted_notes in
  let r := Resolver.main Samples.MEMORY_DIR Samples.calendar_parse decimalZ
             Samples.sample_now Samples.always
             (Fails (plain_error (str "fatal: not a git repository")))
             Samples.invalid_time Samples.error_string d in
  fst r = Exited 0 /\
  Resolver.files (snd r) = Resolver.files d /\
  Resolver.staged (snd r) = Resolver.staged d /\
  Resolver.ran (snd r) = Resolver.ran d ++ [GitDiffUnmerged] /\
  Resolver.console (snd r) =
    Resolver.console d ++
    [ (error, str "Failed to get conflicted files");
      (success, str "No conflicts found") ].
Proof.
  apply (ResolverRunFacts.resolver_git_failure Samples.MEMORY_DIR
           Samples.calendar_parse decimalZ Samples.sample_now Samples.always
           Samples.invalid_time Samples.error_string
           (plain_error (str "fatal: not a git repository"))
           (Samples.disk_with Samples.notes_path Samples.conflicted_notes)).
  reflexivity.
Defined.

End ScriptWitnesses.

(* ================================================================== *)
(** * The check of a device name *)

Module RegisterFacts.

Import Register.

Lemma run_length_all (p : ascii -> bool) (s : text) :
  forallb p s = true -> run_length p s = length s.
Proof.
  intros H. pose proof (run_length_app_ge p s [] H) as G.
  rewrite app_nil_r in G. pose proof (run_length_le p s). lia.
Qed.

(** A class repeated once or more between [^] and [$]. *)
Lemma test_all_class (p : ascii -> bool) (s : text) :
  test_all [Cls p 1 None true] s = true <-> s <> [] /\ forallb p s = true.
Proof.
  unfold test_all. cbn [exec_all]. split.
  - destruct (first_some _ _) as [r|] eqn:E; [intros _|discriminate].
    apply first_some_sound in E as (piece & Hin & Hx).
    apply in_candidates_cls in Hin as (n & -> & Hlo & Hhi). cbn [cap] in Hhi.
    pose proof (run_length_le p s) as Hle.
    destruct (skipn (length (firstn n s)) s) as [|c rest] eqn:Es;
      [|discriminate Hx].
    apply (f_equal (@length ascii)) in Es.
    rewrite length_skipn, length_firstn in Es. cbn [length] in Es.
    split; [intros ->; simpl in Hhi; lia|].
    rewrite <- (firstn_all s). apply run_length_forallb. lia.
  - intros [Hne Hall]. cbn [candidates]. unfold counts. cbn [cap].
    rewrite (run_length_all p s Hall).
    destruct s as [|c s]; [contradiction|]. cbn [length].
    replace (S (S (length s)) - 1) with (S (length s)) by lia.
    rewrite rev_seq_S. cbn [map first_some].
    replace (1 + length s) with (length (c :: s)) by reflexivity.
    rewrite firstn_all, skipn_all. reflexivity.
Qed.

Lemma name_char_not_space (c : ascii) : name_char c = true -> is_space c = false.
Proof.
  destruct c as [[] [] [] [] [] [] [] []]; vm_compute; congruence.
Qed.

Lemma drop_while_head (p : ascii -> bool) (c : ascii) (s : text) :
  p c = false -> drop_while p (c :: s) = c :: s.
Proof. intros H. simpl. now rewrite H. Qed.

(** Trimming does nothing to a name made of the letters allowed. *)
Lemma trim_name (name : text) : forallb name_char name = true -> trim name = name.
Proof.
  intros H. unfold trim.
  assert (D : forall s, forallb name_char s = true -> drop_while is_space s = s).
  { intros [|c s] Hs; [reflexivity|]. apply drop_while_head.
    simpl in Hs. apply andb_true_iff in Hs as [Hc _].
    now apply name_char_not_space. }
  rewrite (D name H), D, rev_involutive; [reflexivity|].
  rewrite forallb_forall in *. intros x Hx. apply H. now apply in_rev.
Qed.

(** X25. A device name is accepted exactly when it is not empty, is made
    of lowercase letters, digits and hyphens only, and has at most 50
    characters; an error text is given exactly when it is refused. *)
Theorem validateDeviceName_valid (name : text) :
  let r := validateDeviceName name in
  (valid r = true <->
   name <> [] /\ forallb name_char name = true /\ length name <= 50) /\
  (valid r = true <-> error_of r = None).
Proof.
  cbv zeta. unfold validateDeviceName.
  destruct (text_eqb name [] || text_eqb (trim name) []) eqn:E1; cbn [valid error_of].
  { split; [|split; discriminate]. split; [discriminate|].
    intros (Hne & Hall & _). exfalso.
    apply orb_true_iff in E1 as [E|E]; apply text_eqb_eq in E.
    - contradiction.
    - rewrite (trim_name name Hall) in E. contradiction. }
  destruct (test_all namePattern name) eqn:E2; cbn [negb valid error_of].
  2:{ split; [|split; discriminate]. split; [discriminate|].
      intros (Hne & Hall & _). exfalso.
      assert (test_all namePattern name = true)
        by (apply test_all_class; auto).
      congruence. }
  apply test_all_class in E2 as [Hne Hall].
  destruct (50 <? length name) eqn:E3; cbn [valid error_of].
  - apply Nat.ltb_lt in E3. split; [|split; discriminate].
    split; [discriminate|]. intros (_ & _ & Hl). lia.
  - apply Nat.ltb_ge in E3. repeat split; auto.
Qed.

End RegisterFacts.

(* ================================================================== *)
(** * The hooks as a whole *)

Module HookRunFacts.

Import Host Queue HookRun.

(** X26. A hook that is switched off does nothing: when the event cannot
    be read, the memory directory is missing, or the configuration is
    missing, unreadable or has the sync or the hook disabled, the hook
    exits with status 0 having run no command and written no file. *)
Theorem disabled_hook_is_idle (w : World) (s : State) :
  let off (flag : Config -> bool) :=
    stdin_json w = false \/ memory_dir_exists w = false \/
    forall cfg, config_file w = Holds cfg ->
                sync_enabled cfg && flag cfg = false in
  (off on_session_end ->
   fst (SessionEnd.main w s) = Exited 0 /\ idle s (snd (SessionEnd.main w s))) /\
  (off on_session_start ->
   fst (SessionStart.main w s) = Exited 0 /\
   idle s (snd (SessionStart.main w s))).
Proof.
  cbv zeta. unfold idle. split; intros H.
  - SessionEndFacts.open_hook.
    destruct (stdin_json w); cbn; [|repeat split].
    destruct (config_file w) as [| |cfg]; cbn;
      [repeat split|repeat split|].
    destruct (sync_enabled cfg) eqn:E1; cbn; [|repeat split].
    destruct (on_session_end cfg) eqn:E2; cbn; [|repeat split].
    destruct (memory_dir_exists w); cbn; [|repeat split].
    exfalso. destruct H as [H|[H|H]]; try discriminate H.
    specialize (H cfg eq_refl). rewrite E1, E2 in H. discriminate H.
  - unfold SessionStart.main, read_event, loadConfig, log, try_catch, bind,
      ret, exit, throw, modify.
    destruct (stdin_json w); cbn; [|repeat split].
    destruct (config_file w) as [| |cfg]; cbn;
      [repeat split|repeat split|].
    destruct (sync_enabled cfg) eqn:E1; cbn; [|repeat split].
    destruct (on_session_start cfg) eqn:E2; cbn; [|repeat split].
    destruct (memory_dir_exists w); cbn; [|repeat split].
    exfalso. destruct H as [H|[H|H]]; try discriminate H.
    specialize (H cfg eq_refl). rewrite E1, E2 in H. discriminate H.
Qed.

Section Start.

Variable w : World.

(** The pull: one command when it fails, the status after it when it
    goes through. *)
Lemma pullFromCloud_spec (s : State) :
  exists pr s1 a rest,
    SessionStart.pullFromCloud w s = (Returned pr, s1) /\
    pending_file s1 = pending_file s /\
    trace s1 = trace s ++ (GitPullRebase, a) :: rest /\
    match a with
    | Output _ => exists st, rest = [(GitStatusShort, st)]
    | Fails _ => rest = []
    end.
Proof.
  unfold SessionStart.pullFromCloud, execSync, try_catch, bind, log, modify, ret.
  cbn.
  destruct (reply w (length (trace s)) GitPullRebase) as [o|e] eqn:E; cbn.
  - rewrite length_app. cbn [length].
    destruct (reply w (length (trace s) + 1) GitStatusShort) as [st|e] eqn:E2; cbn.
    + match goal with |- context [if ?b then _ else _] => destruct b end; cbn;
        do 2 eexists; exists (Output o); eexists;
        (split; [reflexivity|]); cbn; rewrite <- app_assoc;
        (split; [reflexivity|]); (split; [reflexivity|]); eauto.
    + match goal with
      | |- context [SessionStart.is_code ?c e] =>
          destruct (SessionStart.is_code c e)
      end; cbn;
        [|destruct (SessionStart.is_status 128 e); cbn];
        do 2 eexists; exists (Output o); eexists;
        (split; [reflexivity|]); cbn; rewrite <- app_assoc;
        (split; [reflexivity|]); (split; [reflexivity|]); eauto.
  - match goal with
      | |- context [SessionStart.is_code ?c e] =>
          destruct (SessionStart.is_code c e)
      end; cbn;
      [|destruct (SessionStart.is_status 128 e); cbn];
      do 2 eexists; exists (Fails e); eexists;
      (split; [reflexivity|]); cbn;
      (split; [reflexivity|]); (split; [reflexivity|]); reflexivity.
Qed.

End Start.

Ltac quiet :=
  split; [reflexivity|]; exists []; rewrite app_nil_r;
  split; [reflexivity|]; rewrite ?andb_false_r; reflexivity.


Section Drain.

Variable w : World.

(** The loop of the drain accounts for every entry: an entry is kept
    unless its push went through. *)
Lemma retry_loop_account (pending : list PendingPush) :
  forall (acc : list PendingPush) (s : State),
  exists kept added s',
    SessionStart.retry_loop w pending acc s = (Returned (acc ++ kept), s') /\
    pending_file s' = pending_file s /\
    trace s' = trace s ++ added /\
    length kept + length (filter went_through added) = length pending /\
    (forallb (fun x => negb (went_through x)) added = true ->
     map commit_hash kept = map commit_hash pending) /\
    (forallb went_through added = true -> kept = filter spent pending).
Proof.
  induction pending as [|push rest IH]; intros acc s.
  - exists [], [], s. cbn. rewrite !app_nil_r. repeat split.
  - cbn [SessionStart.retry_loop]. fold (spent push).
    destruct (spent push) eqn:Hsp.
    + unfold bind at 1. unfold log at 1, modify at 1.
      match goal with |- context [SessionStart.retry_loop w rest ?a ?st] =>
        destruct (IH a st) as (kept & added & s' & E & P & T & L & F & G) end.
      tidy. exists (push :: kept), added, s'.
      rewrite E, <- app_assoc. cbn [filter app length map]. rewrite Hsp.
      split; [reflexivity|]. split; [exact P|]. split; [exact T|].
      split; [lia|]. split.
      * intros H. now rewrite F.
      * intros H. now rewrite G.
    + unfold bind at 1, try_catch at 1, bind at 1, execSync at 1.
      destruct (reply w (length (trace s)) GitPush) as [o|e] eqn:Ea;
        cbn [fst snd]; unfold bind, log, modify, ret; tidy.
      * match goal with |- context [SessionStart.retry_loop w rest ?a ?st] =>
          destruct (IH a st) as (kept & added & s' & E & P & T & L & F & G) end.
        tidy. exists kept, ((GitPush, Output o) :: added), s'.
        rewrite E, T, <- app_assoc.
        cbn [filter app length map forallb went_through snd negb andb].
        rewrite Hsp.
        split; [reflexivity|]. split; [exact P|]. split; [reflexivity|].
        split; [lia|]. split; [discriminate|exact G].
      * match goal with |- context [SessionStart.retry_loop w rest ?a ?st] =>
          destruct (IH a st) as (kept & added & s' & E & P & T & L & F & G) end.
        tidy. exists (SessionStart.retried w push (err_message e) :: kept),
                ((GitPush, Fails e) :: added), s'.
        rewrite E, T, <- !app_assoc.
        cbn [filter app length map forallb went_through snd negb andb].
        rewrite Hsp.
        split; [reflexivity|]. split; [exact P|]. split; [reflexivity|].
        split; [lia|]. split; [|discriminate].
        intros H. rewrite (F H). reflexivity.
Qed.

End Drain.

(** X28. The drain of the pending-push queue loses no entry: the queue
    it writes holds an entry less for each push that went through, and
    nothing else is dropped.  When every push fails, the queue holds
    the same commits in the same order; when every push goes through,
    what is left are the entries that had used up their three
    retries. *)
Theorem drain_accounts_for_every_entry (w : World) (s : State)
    (q : list PendingPush) :
  pending_file s = Holds q ->
  disk_writable w = true ->
  let s' := snd (SessionStart.retryPendingPushes w s) in
  exists q' added,
    pending_file s' = Holds q' /\
    trace s' = trace s ++ added /\
    length q' + length (filter went_through added) = length q /\
    (forallb (fun x => negb (went_through x)) added = true ->
     map commit_hash q' = map commit_hash q) /\
    (forallb went_through added = true -> q' = filter spent q).
Proof.
  intros Hq Hw s'. subst s'.
  change (wp (SessionStart.retryPendingPushes w)
            (fun _ s' =>
               exists q' added,
                 pending_file s' = Holds q' /\
                 trace s' = trace s ++ added /\
                 length q' + length (filter went_through added) = length q /\
                 (forallb (fun x => negb (went_through x)) added = true ->
                  map commit_hash q' = map commit_hash q) /\
                 (forallb went_through added = true -> q' = filter spent q)) s).
  unfold SessionStart.retryPendingPushes, log. hwalk. rewrite Hq.
  cbn [file_exists negb parse_file]. hwalk.
  destruct q as [|p0 q0]; cbn [length Nat.eqb]; hwalk.
  - exists [], []. rewrite app_nil_r. repeat split. exact Hq.
  - match goal with |- wp (SessionStart.retry_loop w ?l ?a) _ ?st =>
      destruct (retry_loop_account w l a st)
        as (kept & added & s1 & E & P & T & L & F & G) end.
    eapply wp_run; [exact E|]. cbn [after]. tidy.
    unfold writing. rewrite Hw. hwalk.
    exists kept, added. repeat split; auto.
Qed.

Section Closing.

Variable w : World.

Lemma redactPII_quiet (s : State) :
  exists b s1 added,
    SessionEnd.redactPII w s = (Returned b, s1) /\
    pending_file s1 = pending_file s /\
    daily_log s1 = daily_log s /\
    trace s1 = trace s ++ added /\
    (forall c a, In (c, a) added -> c = RunRedactionScript).
Proof.
  unfold SessionEnd.redactPII, execSync, try_catch, bind, log, modify, ret.
  destruct (redaction_script_exists w); cbn.
  - destruct (reply w (length (trace s)) RunRedactionScript) eqn:E; cbn;
      do 2 eexists; eexists [_]; (split; [reflexivity|]); cbn;
      (split; [reflexivity|]); (split; [reflexivity|]); (split; [reflexivity|]);
      intros c a [[= <- _]|[]]; reflexivity.
  - do 2 eexists. exists []. rewrite app_nil_r. repeat split. intros c a [].
Qed.

End Closing.

(** X29. With nothing to commit, the session-end hook stops after the
    status: when [git status] reports no change, the hook exits with
    status 0 having run the redaction script at most and the status;
    nothing is added, committed or pushed, the pending-push queue is as
    it was and no entry is written to the daily log. *)
Theorem clean_tree_is_not_committed (w : World) (s : State) :
  (forall n, exists out,
     reply w n GitStatusShort = Output out /\ trim out = []) ->
  let r := SessionEnd.main w s in
  fst r = Exited 0 /\
  pending_file (snd r) = pending_file s /\
  daily_log (snd r) = daily_log s /\
  exists added,
    trace (snd r) = trace s ++ added /\
    forall c a, In (c, a) added -> c = RunRedactionScript \/ c = GitStatusShort.
Proof.
  intros Hclean r. subst r.
  change (wp (SessionEnd.main w)
            (fun o s' =>
               o = Exited 0 /\
               pending_file s' = pending_file s /\
               daily_log s' = daily_log s /\
               exists added,
                 trace s' = trace s ++ added /\
                 forall c a, In (c, a) added ->
                             c = RunRedactionScript \/ c = GitStatusShort) s).
  assert (Hnone : exists added : list (command * answer),
            trace s = trace s ++ added /\
            forall c a, In (c, a) added ->
                        c = RunRedactionScript \/ c = GitStatusShort).
  { exists []. rewrite app_nil_r. split; [reflexivity|intros c a []]. }
  unfold SessionEnd.main, read_event, loadConfig, log.
  apply wp_try, wp_bind.
  destruct (stdin_json w); hwalk; [|auto].
  destruct (config_file w) as [| |cfg]; hwalk; auto.
  destruct (sync_enabled cfg); cbn [negb]; hwalk; [|auto].
  destruct (on_session_end cfg); cbn [negb]; hwalk; [|auto].
  destruct (memory_dir_exists w); cbn [negb]; hwalk; [|auto].
  apply wp_mono with
    (P := fun o s1 =>
            (o = Returned tt \/ o = Exited 0) /\
            pending_file s1 = pending_file s /\
            daily_log s1 = daily_log s /\
            exists add1, trace s1 = trace s ++ add1 /\
                         forall c a, In (c, a) add1 -> c = RunRedactionScript).
  { destruct (redact_pii cfg); hwalk.
    - match goal with |- wp (SessionEnd.redactPII w) _ ?st =>
        destruct (redactPII_quiet w st) as (b & s1 & add1 & E & P1 & D1 & T1 & A1)
      end.
      eapply wp_run; [exact E|]; cbn [after].
      destruct b; cbn [negb]; hwalk; eauto 8.
    - repeat split; auto.
      exists []. rewrite app_nil_r. split; [reflexivity|intros c a []]. }
  intros o s1 (Ho & P1 & D1 & add1 & T1 & A1).
  destruct Ho as [->| ->]; cbn [after caught].
  2:{ split; [reflexivity|]. split; [exact P1|]. split; [exact D1|].
      exists add1. split; [exact T1|]. intros c a Hin. left. eauto. }
  hwalk. unfold SessionEnd.createCommit, log. hwalk.
  apply SessionStartFacts.wp_execSync. cbv zeta.
  destruct (Hclean (length (trace s1))) as (out & E & B). rewrite E. hwalk.
  rewrite B. cbn [text_eqb]. hwalk. cbn [SessionEnd.truthy]. hwalk.
  split; [reflexivity|]. split; [exact P1|]. split; [exact D1|].
  exists (add1 ++ [(GitStatusShort, Output out)]).
  split; [rewrite T1, <- app_assoc; reflexivity|].
  intros c a Hin. apply in_app_or in Hin as [Hin|[[= <- _]|[]]]; [left|right]; eauto.
Qed.

(** X30. A missing redaction script does not stop the sync: with
    redaction enabled and the script not on disk, the hook goes on to
    the commit without running any redaction, and when there are changes
    and the commit is made, it pushes them. *)
Theorem missing_script_skips_redaction (w : World) (s : State) (cfg : Config)
    (status o1 o2 out : text) :
  stdin_json w = true ->
  config_file w = Holds cfg ->
  sync_enabled cfg = true ->
  on_session_end cfg = true ->
  memory_dir_exists w = true ->
  redact_pii cfg = true ->
  redaction_script_exists w = false ->
  let n := length (trace s) in
  let msg := SessionEnd.commitMessage w (device_name cfg) in
  reply w n GitStatusShort = Output status ->
  trim status <> [] ->
  reply w (n + 1) GitAddAll = Output o1 ->
  reply w (n + 2) (GitCommit msg) = Output o2 ->
  reply w (n + 3) GitRevParseHead = Output out ->
  trim out <> [] ->
  let r := SessionEnd.main w s in
  fst r = Exited 0 /\
  trace (snd r) =
    trace s ++ [ (GitStatusShort, Output status);
                 (GitAddAll, Output o1);
                 (GitCommit msg, Output o2);
                 (GitRevParseHead, Output out);
                 (GitPush, reply w (n + 4) GitPush) ].
Proof.
  intros Hin Hcfg Hen Hend Hdir Hred Hscript n msg Hst Hdirty Hadd Hcommit
    Hrev Hhash r.
  subst r n msg.
  change (wp (SessionEnd.main w)
            (fun o s' =>
               o = Exited 0 /\
               trace s' =
                 trace s ++
                 [ (GitStatusShort, Output status);
                   (GitAddAll, Output o1);
                   (GitCommit (SessionEnd.commitMessage w (device_name cfg)),
                    Output o2);
                   (GitRevParseHead, Output out);
                   (GitPush, reply w (length (trace s) + 4) GitPush) ]) s).
  unfold SessionEnd.main, read_event, loadConfig, log.
  rewrite Hin, Hcfg. hwalk. cbn iota.
  rewrite Hen, Hend, Hdir, Hred. cbn [negb]. hwalk.
  unfold SessionEnd.redactPII, log. rewrite Hscript. cbn [negb]. hwalk.
  cbn [negb]. hwalk.
  unfold SessionEnd.createCommit, log. hwalk.
  apply SessionStartFacts.wp_execSync. tidy. rewrite Hst. hwalk.
  rewrite (text_eqb_neq _ _ Hdirty). hwalk.
  apply SessionStartFacts.wp_execSync. tidy.
  rewrite !length_app. cbn [length]. rewrite Hadd. hwalk.
  apply SessionStartFacts.wp_execSync. tidy.
  rewrite !length_app. cbn [length]. rewrite <- !Nat.add_assoc. cbn [Nat.add].
  rewrite Hcommit. hwalk.
  apply SessionStartFacts.wp_execSync. tidy.
  rewrite !length_app. cbn [length]. rewrite <- !Nat.add_assoc. cbn [Nat.add].
  rewrite Hrev. hwalk.
  destruct (trim out) as [|h0 hash] eqn:Etrim; [contradiction|].
  cbn [SessionEnd.truthy]. hwalk.
  unfold SessionEnd.pushToCloud, log. hwalk.
  apply SessionStartFacts.wp_execSync. tidy.
  rewrite !length_app. cbn [length]. rewrite <- !Nat.add_assoc. cbn [Nat.add].
  rewrite <- !app_assoc. cbn [app].
  destruct (reply w (length (trace s) + 4) GitPush) as [po|pe]; hwalk;
    cbn [SessionEnd.push_success SessionEnd.push_error negb when]; hwalk.
  - match goal with |- wp (SessionEnd.generateDailyLog w ?d) _ ?st =>
      destruct (SessionEndFacts.generateDailyLog_spec w d st) as (s5 & E5 & T5 & _)
    end.
    eapply wp_run; [exact E5|]. cbn [after]. hwalk.
    split; [reflexivity|]. rewrite T5. reflexivity.
  - match goal with |- wp (SessionEnd.queuePendingPush w ?h ?e) _ ?st =>
      destruct (SessionEndFacts.queuePendingPush_spec w h e st)
        as (s4 & E4 & T4 & _)
    end.
    eapply wp_run; [exact E4|]. cbn [after]. hwalk.
    match goal with |- wp (SessionEnd.generateDailyLog w ?d) _ ?st =>
      destruct (SessionEndFacts.generateDailyLog_spec w d st) as (s5 & E5 & T5 & _)
    end.
    eapply wp_run; [exact E5|]. cbn [after]. hwalk.
    split; [reflexivity|]. rewrite T5, T4. reflexivity.
Qed.

Lemma disabled_hook_is_idle_witness :
  fst (SessionEnd.main RunSamples.switched_off HookSamples.fresh_state)
    = Exited 0 /\
  idle HookSamples.fresh_state
       (snd (SessionEnd.main RunSamples.switched_off HookSamples.fresh_state)).
Proof.
  apply (proj1 (disabled_hook_is_idle RunSamples.switched_off
                  HookSamples.fresh_state)).
  right. right. intros cfg [= <-]. reflexivity.
Defined.

Lemma drain_accounts_for_every_entry_witness :
  let w := HookSamples.world_with HookSamples.push_fails in
  let q := [HookSamples.entry "aaaaaaa" 3; HookSamples.entry "bbbbbbb" 1] in
  let s' := snd (SessionStart.retryPendingPushes w HookSamples.queued_state) in
  exists q' added,
    pending_file s' = Holds q' /\
    trace s' = trace HookSamples.queued_state ++ added /\
    length q' + length (filter went_through added) = length q /\
    (forallb (fun x => negb (went_through x)) added = true ->
     map commit_hash q' = map commit_hash q) /\
    (forallb went_through added = true -> q' = filter spent q).
Proof.
  apply (drain_accounts_for_every_entry
           (HookSamples.world_with HookSamples.push_fails)
           HookSamples.queued_state
           [HookSamples.entry "aaaaaaa" 3; HookSamples.entry "bbbbbbb" 1]);
    reflexivity.
Defined.

Lemma clean_tree_is_not_committed_witness :
  let s := HookSamples.fresh_state in
  let r := SessionEnd.main (HookSamples.world_with RunSamples.nothing_changed) s in
  fst r = Exited 0 /\
  pending_file (snd r) = pending_file s /\
  daily_log (snd r) = daily_log s /\
  exists added,
    trace (snd r) = trace s ++ added /\
    forall c a, In (c, a) added -> c = RunRedactionScript \/ c = GitStatusShort.
Proof.
  apply (clean_tree_is_not_committed
           (HookSamples.world_with RunSamples.nothing_changed)
           HookSamples.fresh_state).
  intros n. exists []. split; reflexivity.
Defined.

Lemma missing_script_skips_redaction_witness :
  let w := RunSamples.without_script in
  let r := SessionEnd.main w HookSamples.fresh_state in
  fst r = Exited 0 /\
  trace (snd r) =
    [ (GitStatusShort, Output (str " M global-memory.md"));
      (GitAddAll, Output []);
      (GitCommit (SessionEnd.commitMessage w (str "laptop-work")), Output []);
      (GitRevParseHead, Output (str "3f2a9c1e" ++ [newline]));
      (GitPush, Fails HookSamples.offline) ].
Proof.
  apply (missing_script_skips_redaction RunSamples.without_script
           HookSamples.fresh_state HookSamples.config_on
           (str " M global-memory.md") [] [] (str "3f2a9c1e" ++ [newline]));
    try reflexivity; vm_compute; discriminate.
Defined.

End HookRunFacts.
